(** * log-OS: rules-and-scoring engine of the operator-board word game

    A shallow embedding of the TypeScript sources
    - [src/utils/tileSystem.ts]  (letter tables, bag generation, hand refill),
    - [src/types.ts]             (operators and cells),
    - [src/utils/boardGen.ts]    (the initial board),
    - [src/App.tsx]              (validation, blank resolver, base scoring,
                                  logic-chain compiler, cascade evaluator,
                                  placement evaluation and execution of the
                                  move search, the turn operations on tiles,
                                  the commit and the gates in front of it),
    followed by the properties the specification states about them and by
    further properties of the code: what validation and the resolver
    guarantee, what the analyzer records, conservation of tiles across the
    turn operations, and what a commit leaves behind.

    Conventions of the embedding.
    - JavaScript numbers that hold integers (scores, turns, coordinates) are
      [Z]; [Math.floor (a / b)] on such numbers is [a `div` b] (floor
      division), exact as long as the values stay below 2^53.
    - A tile or a cell letter is a one-character string in the program (it
      comes from the distribution table, from [alphabet[i]] or from [word[k]]);
      it is an [ascii] here and [letter : string | null] is [option ascii].
    - [Set<string>] is [gset string], [Map<string, number>] is
      [gmap string Z].
    - [Math.random] is an oracle: the only way the program uses it is
      [Math.floor (Math.random () * (i + 1))], some index in [0..i]. *)

From Stdlib Require Import ZArith Ascii String DecimalString.
From stdpp Require Import base decidable option list gmap sets strings sorting.

Open Scope string_scope.
Open Scope list_scope.
Open Scope Z_scope.

(** ** src/types.ts *)

Inductive Operator : Set :=
  | IF | THEN | AND | OR | PLUS | MINUS | MULT | OVER | START.

#[global] Instance Operator_eq_dec : EqDecision Operator.
Proof. solve_decision. Defined.

(** [isLocked?], [isBlank?] are only ever tested for truthiness, so an absent
    field is [false]; [turnPlaced?] is read as [cell.turnPlaced || 0]. *)
Record CellData : Type := mkCell {
  cellId : string;
  row : Z;
  col : Z;
  operator : option Operator;
  letter : option ascii;
  isLocked : bool;
  isBlank : bool;
  turnPlaced : option Z
}.

Inductive GameMode : Set := DYNAMIC | FIXED.
Inductive PlacementMode : Set := ACROSTIC | GO.

#[global] Instance GameMode_eq_dec : EqDecision GameMode.
Proof. solve_decision. Defined.
#[global] Instance PlacementMode_eq_dec : EqDecision PlacementMode.
Proof. solve_decision. Defined.

(** ** src/utils/tileSystem.ts *)

Module TileSystem.

(** [Object.entries] enumerates the keys in insertion order, so the table is
    an association list. *)
Definition LETTER_DISTRIBUTION : list (ascii * nat) :=
  [ ("A"%char, 9%nat); ("B"%char, 2%nat); ("C"%char, 2%nat); ("D"%char, 4%nat);
    ("E"%char, 12%nat); ("F"%char, 2%nat); ("G"%char, 3%nat); ("H"%char, 2%nat);
    ("I"%char, 9%nat); ("J"%char, 1%nat); ("K"%char, 1%nat); ("L"%char, 4%nat);
    ("M"%char, 2%nat); ("N"%char, 6%nat); ("O"%char, 8%nat); ("P"%char, 2%nat);
    ("Q"%char, 1%nat); ("R"%char, 6%nat); ("S"%char, 4%nat); ("T"%char, 6%nat);
    ("U"%char, 4%nat); ("V"%char, 2%nat); ("W"%char, 2%nat); ("X"%char, 1%nat);
    ("Y"%char, 2%nat); ("Z"%char, 1%nat); ("*"%char, 2%nat) ].

Definition LETTER_VALUES : list (ascii * Z) :=
  [ ("A"%char, 1); ("B"%char, 3); ("C"%char, 3); ("D"%char, 2); ("E"%char, 1);
    ("F"%char, 4); ("G"%char, 2); ("H"%char, 4); ("I"%char, 1); ("J"%char, 8);
    ("K"%char, 5); ("L"%char, 1); ("M"%char, 3); ("N"%char, 1); ("O"%char, 1);
    ("P"%char, 3); ("Q"%char, 10); ("R"%char, 1); ("S"%char, 1); ("T"%char, 1);
    ("U"%char, 1); ("V"%char, 4); ("W"%char, 4); ("X"%char, 8); ("Y"%char, 4);
    ("Z"%char, 10); ("*"%char, 0) ].

(** [table[key]]: the first (only) entry of that key, [undefined] otherwise. *)
Fixpoint lookupTable {V} (table : list (ascii * V)) (key : ascii) : option V :=
  match table with
  | [] => None
  | (k, v) :: rest => if decide (k = key) then Some v else lookupTable rest key
  end.

(** [LETTER_VALUES[char] || 0] *)
Definition letterValue (char : ascii) : Z :=
  default 0 (lookupTable LETTER_VALUES char).

(** [for (let i = 0; i < count; i++) bag.push(letter)] *)
Fixpoint pushCopies (count : nat) (tile : ascii) (bag : list ascii) : list ascii :=
  match count with
  | O => bag
  | S n => pushCopies n tile (bag ++ [tile])
  end.

(** The bag before the shuffle: [Object.entries(...).forEach(...)]. *)
Definition unshuffledBag : list ascii :=
  fold_left (fun bag '(tile, count) => pushCopies count tile bag)
            LETTER_DISTRIBUTION [].

(** [[bag[i], bag[j]] = [bag[j], bag[i]]] *)
Definition swap (bag : list ascii) (i j : nat) : list ascii :=
  match bag !! i, bag !! j with
  | Some a, Some b => <[j:=a]> (<[i:=b]> bag)
  | _, _ => bag
  end.

(** [for (let i = bag.length - 1; i > 0; i--) { j = floor(random()*(i+1)); swap }].
    [rnd i] is the integer the oracle yields at loop index [i]; reducing it
    modulo [i + 1] gives every value [floor (random () * (i + 1))] can take. *)
Fixpoint fisherYates (rnd : nat → nat) (i : nat) (bag : list ascii) : list ascii :=
  match i with
  | O => bag
  | S i' => fisherYates rnd i' (swap bag i (rnd i `mod` (i + 1))%nat)
  end.

Definition generateTileBag (rnd : nat → nat) : list ascii :=
  let bag := unshuffledBag in
  fisherYates rnd (length bag - 1) bag.

Record Draw : Type := mkDraw { hand : list ascii; bag : list ascii }.

Definition drawTiles (currentHand tileBag : list ascii) : Draw :=
  let needed := 7 - Z.of_nat (length currentHand) in
  if bool_decide (needed ≤ 0) || bool_decide (length tileBag = 0%nat) then
    {| hand := currentHand; bag := tileBag |}
  else
    let drawn := take (Z.to_nat needed) tileBag in
    let newBag := drop (Z.to_nat needed) tileBag in
    let newHand := currentHand ++ drawn in
    {| hand := newHand; bag := newBag |}.

End TileSystem.

(** ** src/utils/boardGen.ts and the grid of src/App.tsx *)

Module Board.

Definition BOARD_SIZE : Z := 11.

(** [CellData[][]].  Every grid of the program is [BOARD_SIZE] rows of
    [BOARD_SIZE] cells: [generateBoard] builds it so and every update keeps
    the shape.  Reading [grid[r][c]] outside it would throw; the functions
    below guard such reads by comparing with [BOARD_SIZE], and the theorems
    assume [wfGrid] wherever a cell is read. *)
Abbreviation Grid := (list (list CellData)).

Definition wfGrid (grid : Grid) : Prop :=
  length grid = Z.to_nat BOARD_SIZE
  ∧ Forall (λ cells : list CellData, length cells = Z.to_nat BOARD_SIZE) grid.

(** [`${r}-${c}`] *)
Definition showZ (z : Z) : string := NilZero.string_of_int (Z.to_int z).
Definition coordId (r c : Z) : string := showZ r +:+ "-" +:+ showZ c.

(** [grid[r][c]] *)
Definition cellAt (grid : Grid) (r c : Z) : option CellData :=
  if bool_decide (0 ≤ r) && bool_decide (0 ≤ c)
  then grid !! Z.to_nat r ≫= λ cells, cells !! Z.to_nat c
  else None.

(** truthiness of [x.letter] *)
Definition hasLetter (cell : CellData) : bool :=
  match letter cell with Some _ => true | None => false end.

(** [!!grid[r][c].letter] *)
Definition lettered (grid : Grid) (r c : Z) : bool :=
  match cellAt grid r c with Some cell => hasLetter cell | None => false end.

(** [r >= 0 && r < BOARD_SIZE && c >= 0 && c < BOARD_SIZE] *)
Definition inBoard (r c : Z) : bool :=
  bool_decide (0 ≤ r) && bool_decide (r < BOARD_SIZE)
  && bool_decide (0 ≤ c) && bool_decide (c < BOARD_SIZE).

(** [for (let r = 0; r < BOARD_SIZE; r++)] *)
Definition indices : list Z := seqZ 0 BOARD_SIZE.

(** row-major [for r ... for c ...] *)
Definition coords : list (Z * Z) := r ← indices; c ← indices; [(r, c)].

(** [grid.map(row => row[c])] *)
Definition column (grid : Grid) (c : Z) : list CellData :=
  omap (λ cells : list CellData, cells !! Z.to_nat c) grid.

(** [grid[r][c] = f (grid[r][c])], on a grid of values *)
Definition updCell (grid : Grid) (r c : Z) (f : CellData → CellData) : Grid :=
  if bool_decide (0 ≤ r) && bool_decide (0 ≤ c)
  then alter (alter f (Z.to_nat c)) (Z.to_nat r) grid
  else grid.

Definition withLetter (l : option ascii) (cell : CellData) : CellData :=
  {| cellId := cellId cell; row := row cell; col := col cell;
     operator := operator cell; letter := l; isLocked := isLocked cell;
     isBlank := isBlank cell; turnPlaced := turnPlaced cell |}.

(** [generateBoard]: the layered operator layout, first match wins. *)
Definition operatorAt (r c : Z) : option Operator :=
  let last := BOARD_SIZE - 1 in
  if bool_decide ((r = 0 ∨ r = last) ∧ (c = 0 ∨ c = last)) then Some MULT
  else if bool_decide (r = 5 ∧ c = 5) then Some START
  else if bool_decide (r = 2 ∧ c = 8) then Some OVER
  else if bool_decide (r = 4 ∧ c = 4) then Some IF
  else if bool_decide (r = 5 ∧ c = 0) then Some OVER
  else if bool_decide (r = 6 ∧ c = 6) then Some OR
  else if bool_decide (r = 5 ∧ c = 10) then Some IF
  else if bool_decide (r = 8 ∧ c = 2) then Some OR
  else if bool_decide ((r = 2 ∨ r = 8) ∧ (c = 2 ∨ c = 8)) then Some IF
  else if bool_decide ((r = 2 ∨ r = 8) ∧ c = 5) then Some THEN
  else if bool_decide ((c = 2 ∨ c = 8) ∧ r = 5) then Some THEN
  else if bool_decide (Z.abs (r - 5) = Z.abs (c - 5) ∧ r ≠ 5 ∧ r ≠ 0 ∧ r ≠ 10)
       then (if bool_decide (Z.abs (r - 5) = 1) then Some OVER else Some AND)
  else if bool_decide ((r = 1 ∨ r = 9) ∧ c = 5) then Some PLUS
  else if bool_decide ((c = 1 ∨ c = 9) ∧ r = 5) then Some MINUS
  else if bool_decide ((r = 0 ∨ r = 10) ∧ c = 5) then Some OR
  else if bool_decide ((c = 0 ∨ c = 10) ∧ r = 5) then Some OR
  else None.

Definition generateBoard : Grid :=
  (λ r, (λ c, {| cellId := coordId r c; row := r; col := c;
                 operator := operatorAt r c; letter := None;
                 isLocked := false; isBlank := false; turnPlaced := None |})
        <$> indices) <$> indices.

End Board.

(** ** Validation and blank resolver (src/App.tsx) *)

Module Validation.
Import Board.

(** 0. Isolation check: every lettered cell has a lettered neighbour. *)
Definition isolationOk (grid : Grid) : bool :=
  forallb (λ '(r, c),
    if lettered grid r c then
      let hasHorz := (bool_decide (0 < c) && lettered grid r (c - 1))
                  || (bool_decide (c < BOARD_SIZE - 1) && lettered grid r (c + 1)) in
      let hasVert := (bool_decide (0 < r) && lettered grid (r - 1) c)
                  || (bool_decide (r < BOARD_SIZE - 1) && lettered grid (r + 1) c) in
      negb (negb hasHorz && negb hasVert)
    else true) coords.

(** [grid.some(row => row.some(cell => cell.isLocked && cell.letter))] *)
Definition hasLockedTiles (grid : Grid) : bool :=
  existsb (existsb (λ cell, isLocked cell && hasLetter cell)) grid.

(** [if (grid[r][c].letter && !grid[r][c].isLocked) newTiles.push({r, c})] *)
Definition newTiles (grid : Grid) : list (Z * Z) :=
  List.filter (λ '(r, c), match cellAt grid r c with
                          | Some cell => hasLetter cell && negb (isLocked cell)
                          | None => false
                          end) coords.

Definition neighbors (t : Z * Z) : list (Z * Z) :=
  [(t.1 - 1, t.2); (t.1 + 1, t.2); (t.1, t.2 - 1); (t.1, t.2 + 1)].

(** the inner [for (const n of neighbors)] of the connectivity check *)
Definition touchesLocked (grid : Grid) (t : Z * Z) : bool :=
  existsb (λ n, inBoard n.1 n.2 &&
                match cellAt grid n.1 n.2 with
                | Some neighborCell => hasLetter neighborCell && isLocked neighborCell
                | None => false
                end) (neighbors t).

(** 1. Connectivity check (Acrostic rule): [isConnected] becomes true at
    the first new tile that touches a locked letter. *)
Definition connectivityOk (grid : Grid) (placementMode : PlacementMode) : bool :=
  if decide (placementMode = ACROSTIC) then
    if hasLockedTiles grid then
      let nt := newTiles grid in
      if bool_decide (0 < length nt)%nat then
        let isConnected := existsb (touchesLocked grid) nt in
        isConnected
      else true
    else true
  else true.

(** [for (const locked of currentWordMeta) ...]: false at a second
    consecutive locked letter. *)
Fixpoint lockedRunOk (lockedRun : Z) (meta : list bool) : bool :=
  match meta with
  | [] => true
  | locked :: rest =>
      if locked then
        if bool_decide (1 < lockedRun + 1) then false
        else lockedRunOk (lockedRun + 1) rest
      else lockedRunOk 0 rest
  end.

(** The block [checkLine] runs when a run ends (it occurs twice in the
    source, inside the loop and after it). *)
Definition wordOk (dictionary : gset string) (gameMode : GameMode)
    (currentWord : string) (currentWordMeta : list bool) : bool :=
  if bool_decide (1 < String.length currentWord)%nat then
    if negb (bool_decide (currentWord ∈ dictionary)) then false
    else if decide (gameMode = FIXED) then
      let hasUnlocked := existsb negb currentWordMeta in
      if hasUnlocked then lockedRunOk 0 currentWordMeta else true
    else true
  else true.

Fixpoint checkLineFrom (dictionary : gset string) (gameMode : GameMode)
    (cells : list CellData) (currentWord : string) (currentWordMeta : list bool)
    : bool :=
  match cells with
  | [] => wordOk dictionary gameMode currentWord currentWordMeta
  | cell :: rest =>
      match letter cell with
      | Some l =>
          checkLineFrom dictionary gameMode rest
            (currentWord +:+ String l EmptyString)
            (currentWordMeta ++ [isLocked cell])
      | None =>
          wordOk dictionary gameMode currentWord currentWordMeta
          && checkLineFrom dictionary gameMode rest "" []
      end
  end.

Definition checkLine (dictionary : gset string) (gameMode : GameMode)
    (cells : list CellData) : bool :=
  checkLineFrom dictionary gameMode cells "" [].

Definition validatePlacementRules (grid : Grid) (gameMode : GameMode)
    (placementMode : PlacementMode) (dictionary : option (gset string)) : bool :=
  match dictionary with
  | None => false
  | Some dict =>
      isolationOk grid
      && connectivityOk grid placementMode
      && forallb (λ r, checkLine dict gameMode (default [] (grid !! Z.to_nat r))) indices
      && forallb (λ c, checkLine dict gameMode (column grid c)) indices
  end.

Definition alphabet : list ascii :=
  list_ascii_of_string "ABCDEFGHIJKLMNOPQRSTUVWXYZ".

(** [if (grid[r][c].letter === '*') blankCoords.push({r, c})] *)
Definition blankCoords (grid : Grid) : list (Z * Z) :=
  List.filter (λ '(r, c), bool_decide ((cellAt grid r c ≫= letter) = Some "*"%char))
              coords.

(** [for (i ...) { currentGrid[r][c].letter = alphabet[i]; result = ...;
    if (result) return result }] *)
Fixpoint firstResult {A B} (f : A → option B) (l : list A) : option B :=
  match l with
  | [] => None
  | x :: rest => match f x with Some y => Some y | None => firstResult f rest end
  end.

(** [trySolve (index, currentGrid)], by recursion on the blanks from
    [index] on.  The source writes the candidate letter into the cloned
    grid and restores ['*'] when all 26 fail, so each call sees the grid of
    its caller with one more blank filled in. *)
Fixpoint trySolve (gameMode : GameMode) (placementMode : PlacementMode)
    (dictionary : option (gset string)) (blanks : list (Z * Z))
    (currentGrid : Grid) : option Grid :=
  match blanks with
  | [] =>
      if validatePlacementRules currentGrid gameMode placementMode dictionary
      then Some currentGrid else None
  | (r, c) :: rest =>
      firstResult (λ ch, trySolve gameMode placementMode dictionary rest
                           (updCell currentGrid r c (withLetter (Some ch))))
                  alphabet
  end.

Definition resolveGridWithBlanks (grid : Grid) (gameMode : GameMode)
    (placementMode : PlacementMode) (dictionary : option (gset string))
    : option Grid :=
  match dictionary with
  | None => None
  | Some _ =>
      let blanks := blankCoords grid in
      if bool_decide (length blanks = 0%nat) then
        if validatePlacementRules grid gameMode placementMode dictionary
        then Some grid else None
      else trySolve gameMode placementMode dictionary blanks grid
  end.

End Validation.

(** ** Base scoring (src/App.tsx) *)

Module Scoring.
Import Board TileSystem.

(** [getWordScore] *)
Definition getWordScore (word : string) : Z :=
  fold_left (λ s char, s + letterValue char) (list_ascii_of_string word) 0.

(** [if (cell.isBlank) return 0; return LETTER_VALUES[cell.letter || ''] || 0] *)
Definition getCellScore (cell : CellData) : Z :=
  if isBlank cell then 0
  else match letter cell with Some l => letterValue l | None => 0 end.

(** first [while] of [scan]: walk back to the start of the run *)
Fixpoint walkBack (fuel : nat) (currentGrid : Grid) (currR currC dr dc : Z)
    : Z * Z :=
  match fuel with
  | O => (currR, currC)
  | S fuel' =>
      if inBoard (currR - dr) (currC - dc)
         && lettered currentGrid (currR - dr) (currC - dc)
      then walkBack fuel' currentGrid (currR - dr) (currC - dc) dr dc
      else (currR, currC)
  end.

(** second [while] of [scan]: collect the cells of the run *)
Fixpoint collectRun (fuel : nat) (currentGrid : Grid) (currR currC dr dc : Z)
    : list CellData :=
  match fuel with
  | O => []
  | S fuel' =>
      if inBoard currR currC then
        match cellAt currentGrid currR currC with
        | Some cell =>
            if hasLetter cell
            then cell :: collectRun fuel' currentGrid (currR + dr) (currC + dc) dr dc
            else []
        | None => []
        end
      else []
  end.

(** Both loops move one cell per iteration along a row or a column, so
    [BOARD_SIZE] iterations exhaust the board. *)
Definition scanFuel : nat := Z.to_nat BOARD_SIZE.

(** the state [scan] updates: [uniqueWords] and [totalScore] *)
Abbreviation ScoreState := (gset string * Z)%type.

Definition scan (currentGrid : Grid) (r c dr dc : Z) (st : ScoreState)
    : ScoreState :=
  let '(startR, startC) := walkBack scanFuel currentGrid r c dr dc in
  let wordCells := collectRun scanFuel currentGrid startR startC dr dc in
  if bool_decide (1 < length wordCells)%nat then
    let id := (if bool_decide (dr = 0) then "H" else "V")
              +:+ ":" +:+ showZ startR +:+ "-" +:+ showZ startC in
    if bool_decide (id ∈ st.1) then st
    else ({[id]} ∪ st.1,
          st.2 + fold_left (λ sum cell, sum + getCellScore cell) wordCells 0)
  else st.

Definition calculateScrabbleScore (currentGrid : Grid) (newTiles : list (Z * Z))
    : Z :=
  (fold_left (λ st '(r, c),
     if lettered currentGrid r c
     then scan currentGrid r c 1 0 (scan currentGrid r c 0 1 st)
     else st) newTiles (∅, 0)).2.

End Scoring.

(** ** Logic-chain compiler and cascade evaluator (src/App.tsx) *)

Module Logic.
Import Board TileSystem.

(** [CompiledOp & { clusterId: number }]: the objects of [rawOps], which are
    the very objects pushed to a chain's [compiledOps]. *)
Record CompiledOp : Type := mkOp {
  op : Operator;
  turn : Z;
  lastModifiedTurn : Z;
  word : string;
  opId : string;
  wordScore : Z;
  cellIds : list string;
  clusterId : Z
}.

Record WordMetadata : Type := mkWord {
  w_word : string;
  w_score : Z;
  w_turn : Z;
  w_cellIds : list string;
  w_clusterId : Z
}.

Record CompiledChain : Type := mkChain {
  chainId : Z;
  compiledOps : list CompiledOp;
  dataWords : list string
}.

(** *** 1. Clusters (GO mode) *)

Definition getNeighbors (r c : Z) : list (Z * Z) :=
  List.filter (λ '(nr, nc), inBoard nr nc)
    [(r - 1, c); (r + 1, c); (r, c - 1); (r, c + 1)].

(** what the flood fill updates: [visited], [cellToCluster] and the queue *)
Abbreviation FillState := (gset string * gmap string Z * list (Z * Z))%type.

(** body of [for (const n of getNeighbors(curr.r, curr.c))] *)
Definition visitNeighbor (grid : Grid) (cid : Z) (st : FillState) (n : Z * Z)
    : FillState :=
  let '(visited, cellToCluster, q) := st in
  let nid := coordId n.1 n.2 in
  if lettered grid n.1 n.2 && negb (bool_decide (nid ∈ visited))
  then ({[nid]} ∪ visited, <[nid:=cid]> cellToCluster, q ++ [n])
  else st.

(** [while (q.length) { const curr = q.shift()!; ... }].  The loop ends
    because a cell enters the queue only when it is first visited
    ([floodFill_fuel] below); [fuel] bounds the iterations. *)
Fixpoint floodFill (fuel : nat) (grid : Grid) (cid : Z) (st : FillState)
    : FillState :=
  match fuel with
  | O => st
  | S fuel' =>
      match st with
      | (visited, cellToCluster, curr :: q) =>
          floodFill fuel' grid cid
            (fold_left (visitNeighbor grid cid) (getNeighbors curr.1 curr.2)
                       (visited, cellToCluster, q))
      | (_, _, []) => st
      end
  end.

(** one more than the number of cells of the board *)
Definition fillFuel : nat := Z.to_nat (BOARD_SIZE * BOARD_SIZE + 1).

(** [visited], [cellToCluster], [nextClusterId] *)
Abbreviation ClusterState := (gset string * gmap string Z * Z)%type.

Definition clusterStep (grid : Grid) (st : ClusterState) (rc : Z * Z)
    : ClusterState :=
  let '(visited, cellToCluster, nextClusterId) := st in
  let id := coordId rc.1 rc.2 in
  if lettered grid rc.1 rc.2 && negb (bool_decide (id ∈ visited)) then
    let '(visited', cellToCluster', _) :=
      floodFill fillFuel grid nextClusterId
        ({[id]} ∪ visited, <[id:=nextClusterId]> cellToCluster, [rc]) in
    (visited', cellToCluster', nextClusterId + 1)
  else st.

Definition identifyClusters (grid : Grid) (placementMode : PlacementMode)
    : gmap string Z * Z :=
  match placementMode with
  | GO => let '(_, cellToCluster, nextClusterId) :=
            fold_left (clusterStep grid) coords (∅, ∅, 1) in
          (cellToCluster, nextClusterId)
  | ACROSTIC => (∅, 1)
  end.

(** [if (placementMode === 'ACROSTIC') return 1;
     return cellToCluster.get(cellIds[0]) || 0] *)
Definition getClusterId (placementMode : PlacementMode)
    (cellToCluster : gmap string Z) (ids : list string) : Z :=
  match placementMode with
  | ACROSTIC => 1
  | GO => default 0 (head ids ≫= λ i, cellToCluster !! i)
  end.

(** *** 2. Words and operators of a line *)

(** the locals of [scanLine] *)
Record RunAcc : Type := mkRun {
  currentWord : string;
  currentScore : Z;
  currentMaxTurn : Z;
  currentOps : list (Operator * Z * string);
  runCellIds : list string
}.

Definition emptyRun : RunAcc :=
  {| currentWord := ""; currentScore := 0; currentMaxTurn := 0;
     currentOps := []; runCellIds := [] |}.

(** what [scanLine] appends to *)
Record ScanState : Type := mkScan {
  rawOps : list CompiledOp;
  rawDataWords : list (string * Z);
  allValidWords : list WordMetadata;
  visitedWords : gset string
}.

Definition emptyScan : ScanState :=
  {| rawOps := []; rawDataWords := []; allValidWords := []; visitedWords := ∅ |}.

(** [dictionary ? dictionary.has(currentWord) : true] *)
Definition isValid (dictionary : option (gset string)) (w : string) : bool :=
  match dictionary with
  | Some dict => bool_decide (w ∈ dict)
  | None => true
  end.

(** [cellIds.join(',')] *)
Definition joinIds (ids : list string) : string := String.concat "," ids.

(** The block [scanLine] runs when a run ends (it occurs twice in the
    source, inside the loop and after it). *)
Definition flushRun (dictionary : option (gset string))
    (getCid : list string → Z) (run : RunAcc) (st : ScanState) : ScanState :=
  if bool_decide (1 < String.length (currentWord run))%nat then
    if isValid dictionary (currentWord run) then
      let uniqueKey := joinIds (runCellIds run) in
      if negb (bool_decide (uniqueKey ∈ visitedWords st)) then
        let cId := getCid (runCellIds run) in
        let w := {| w_word := currentWord run; w_score := currentScore run;
                    w_turn := currentMaxTurn run; w_cellIds := runCellIds run;
                    w_clusterId := cId |} in
        if bool_decide (length (currentOps run) = 0%nat) then
          {| rawOps := rawOps st;
             rawDataWords := rawDataWords st ++ [(currentWord run, cId)];
             allValidWords := allValidWords st ++ [w];
             visitedWords := {[uniqueKey]} ∪ visitedWords st |}
        else
          {| rawOps := rawOps st ++
               map (λ '(o, t, i),
                      {| op := o; turn := t; opId := i;
                         word := currentWord run;
                         wordScore := currentScore run;
                         lastModifiedTurn := currentMaxTurn run;
                         cellIds := runCellIds run;
                         clusterId := cId |}) (currentOps run);
             rawDataWords := rawDataWords st;
             allValidWords := allValidWords st ++ [w];
             visitedWords := {[uniqueKey]} ∪ visitedWords st |}
      else st
    else st
  else st.

(** the [if (cell.letter) { ... }] branch of the loop *)
Definition extendRun (cell : CellData) (l : ascii) (run : RunAcc) : RunAcc :=
  {| currentWord := currentWord run +:+ String l EmptyString;
     currentScore := currentScore run
                     + (if isBlank cell then 0 else letterValue l);
     currentMaxTurn := currentMaxTurn run `max` default 0 (turnPlaced cell);
     runCellIds := runCellIds run ++ [cellId cell];
     currentOps :=
       match operator cell with
       | Some o => if decide (o = START) then currentOps run
                   else currentOps run ++ [(o, default 0 (turnPlaced cell), cellId cell)]
       | None => currentOps run
       end |}.

Fixpoint scanLineFrom (dictionary : option (gset string))
    (getCid : list string → Z) (cells : list CellData) (run : RunAcc)
    (st : ScanState) : ScanState :=
  match cells with
  | [] => flushRun dictionary getCid run st
  | cell :: rest =>
      match letter cell with
      | Some l => scanLineFrom dictionary getCid rest (extendRun cell l run) st
      | None => scanLineFrom dictionary getCid rest emptyRun
                  (flushRun dictionary getCid run st)
      end
  end.

Definition scanLine (dictionary : option (gset string))
    (getCid : list string → Z) (st : ScanState) (cells : list CellData)
    : ScanState :=
  scanLineFrom dictionary getCid cells emptyRun st.

(** [grid.forEach(row => scanLine(row)); for (c ...) scanLine(col)] *)
Definition scanBoard (grid : Grid) (dictionary : option (gset string))
    (getCid : list string → Z) : ScanState :=
  fold_left (λ st c, scanLine dictionary getCid st (column grid c)) indices
    (fold_left (scanLine dictionary getCid) grid emptyScan).

(** *** 3. Chain assembly *)

(** [xs.sort((a, b) => a.turn - b.turn)]: [Array.prototype.sort] is stable,
    so the result is the one stable arrangement by ascending turn; insertion
    from the right computes it. *)
Fixpoint insertByTurn (x : CompiledOp) (l : list CompiledOp) : list CompiledOp :=
  match l with
  | [] => [x]
  | y :: rest =>
      if bool_decide (turn x ≤ turn y) then x :: y :: rest
      else y :: insertByTurn x rest
  end.

Definition sortByTurn (l : list CompiledOp) : list CompiledOp :=
  foldr insertByTurn [] l.

(** [xs.find(p)] *)
Definition findOp (p : CompiledOp → bool) (l : list CompiledOp) : option CompiledOp :=
  List.find p l.

Definition opIs (o : Operator) (x : CompiledOp) : bool := bool_decide (op x = o).

(** body of [for (let i = 1; i <= maxCluster; i++)], from the sort on *)
Definition assembleChain (clusterOps0 : list CompiledOp) : list CompiledOp :=
  let clusterOps := sortByTurn clusterOps0 in
  let compiledOps := [] in
  (* Rule 1: first IF *)
  let firstIf := findOp (opIs IF) clusterOps in
  let compiledOps := match firstIf with Some x => compiledOps ++ [x] | None => compiledOps end in
  (* Rule 2: all ORs *)
  let allOrs := sortByTurn (List.filter (opIs OR) clusterOps) in
  let compiledOps := compiledOps ++ allOrs in
  (* Rule 3: first THEN *)
  let firstThen := findOp (opIs THEN) clusterOps in
  let compiledOps := match firstThen with Some x => compiledOps ++ [x] | None => compiledOps end in
  (* Rule 4: all ANDs and PLUSs *)
  let additions := sortByTurn (List.filter (λ x, opIs AND x || opIs PLUS x) clusterOps) in
  let compiledOps := compiledOps ++ additions in
  (* Rule 5: math modifiers *)
  let modifiers :=
    sortByTurn (List.filter (λ x, bool_decide (op x ∈ [MINUS; MULT; OVER])) clusterOps) in
  compiledOps ++ modifiers.

Definition compileCluster (raw : list CompiledOp) (data : list (string * Z))
    (i : Z) : list CompiledChain :=
  let clusterOps := List.filter (λ x, bool_decide (clusterId x = i)) raw in
  let clusterData := map fst (List.filter (λ x, bool_decide (x.2 = i)) data) in
  if bool_decide (length clusterOps = 0%nat) && bool_decide (length clusterData = 0%nat)
  then []                                                     (* continue *)
  else [ {| chainId := i; compiledOps := assembleChain clusterOps;
            dataWords := clusterData |} ].

Definition analyzeBoardLogic (grid : Grid) (dictionary : option (gset string))
    (placementMode : PlacementMode) : list CompiledChain * list WordMetadata :=
  let '(cellToCluster, nextClusterId) := identifyClusters grid placementMode in
  let st := scanBoard grid dictionary (getClusterId placementMode cellToCluster) in
  let maxCluster := match placementMode with
                    | ACROSTIC => 1
                    | GO => nextClusterId - 1
                    end in
  (i ← seqZ 1 maxCluster; compileCluster (rawOps st) (rawDataWords st) i,
   allValidWords st).

(** *** 4. Cascade evaluation and trigger replay *)

Definition isTrigger (x : CompiledOp) : bool :=
  bool_decide (op x = IF) || bool_decide (op x = OR).

(** [for (const action of actions) { ... }] on
    [cascadeOutcome], [targetEstablished] *)
Fixpoint cascade (actions : list CompiledOp) (cascadeOutcome : Z)
    (targetEstablished : bool) : Z * bool :=
  match actions with
  | [] => (cascadeOutcome, targetEstablished)
  | action :: rest =>
      if bool_decide (op action = THEN) then
        cascade rest (wordScore action) true                  (* continue *)
      else if targetEstablished then
        match op action with
        | PLUS | AND =>
            cascade rest (cascadeOutcome + wordScore action) targetEstablished
        | MINUS =>
            cascade rest (cascadeOutcome - wordScore action) targetEstablished
        | MULT =>
            cascade rest (cascadeOutcome * wordScore action) targetEstablished
        | OVER =>
            if bool_decide (wordScore action ≠ 0)
            then cascade rest (cascadeOutcome `div` wordScore action) targetEstablished
            else cascade rest cascadeOutcome targetEstablished
        | _ => cascade rest cascadeOutcome targetEstablished
        end
      else cascade rest cascadeOutcome targetEstablished
  end.

(** [activeCellIds.add(id)] on a [Set] kept in insertion order *)
Definition addId (ids : list string) (i : string) : list string :=
  if bool_decide (i ∈ ids) then ids else ids ++ [i].

(** [totalLogicScore], [activeCellIds] *)
Abbreviation PayState := (Z * list string)%type.

(** body of [for (const trigger of triggers)] *)
Definition fire (ops : list CompiledOp) (cascadeOutcome : Z)
    (newWord : WordMetadata) (st : PayState) (trigger : CompiledOp) : PayState :=
  if bool_decide (w_word newWord = word trigger) then
    (st.1 + cascadeOutcome,
     fold_left (λ ids o, fold_left addId (cellIds o) ids) ops
       (fold_left addId (w_cellIds newWord) st.2))
  else st.

(** [compiledOps.filter(op => op.op === IF || op.op === OR)] *)
Definition triggersOf (chain : CompiledChain) : list CompiledOp :=
  List.filter isTrigger (compiledOps chain).

(** [compiledOps.filter(op => op.op !== IF && op.op !== OR)] *)
Definition actionsOf (chain : CompiledChain) : list CompiledOp :=
  List.filter (λ x, negb (bool_decide (op x = IF)) && negb (bool_decide (op x = OR)))
              (compiledOps chain).

(** [allValidWords.filter(w => w.turn === currentTurn && w.clusterId === chain.id)] *)
Definition newlyFormedWords (chain : CompiledChain) (allWords : list WordMetadata)
    (currentTurn : Z) : list WordMetadata :=
  List.filter (λ w, bool_decide (w_turn w = currentTurn)
                    && bool_decide (w_clusterId w = chainId chain)) allWords.

(** body of [for (const chain of chains)] *)
Definition chainStep (allWords : list WordMetadata) (currentTurn : Z)
    (st : PayState) (chain : CompiledChain) : PayState :=
  let triggers := triggersOf chain in
  let actions := actionsOf chain in
  if bool_decide (length triggers = 0%nat) || bool_decide (length actions = 0%nat)
  then st                                                      (* continue *)
  else
    let '(cascadeOutcome, targetEstablished) := cascade actions 0 false in
    if negb targetEstablished then st                          (* continue *)
    else
      fold_left (λ st newWord,
                   fold_left (fire (compiledOps chain) cascadeOutcome newWord)
                             triggers st)
                (newlyFormedWords chain allWords currentTurn) st.

Record ChainScore : Type := mkChainScore { score : Z; activeCellIds : list string }.

Definition calculateChainScore (chains : list CompiledChain)
    (allWords : list WordMetadata) (currentTurn : Z) : ChainScore :=
  let st := fold_left (chainStep allWords currentTurn) chains (0, []) in
  {| score := st.1; activeCellIds := st.2 |}.

End Logic.

(** ** Placement evaluation of the move search (src/App.tsx) *)

Module Search.
Import Board TileSystem Validation Scoring Logic.

(** [evaluatePlacement] clones the grid and the hand and then writes into
    the clones in place ([cell.letter = char], [tempHand.splice]).  To say
    what it leaves alone, cell objects and tile arrays live in a store and
    a grid is an array of references to cells.  (The row arrays themselves
    are never written to here, so they are values.) *)
Record Store : Type := mkStore {
  cellObjs : gmap nat CellData;
  handObjs : gmap nat (list ascii);
  nextCell : nat;                    (* next free cell reference *)
  nextHand : nat                     (* next free array reference *)
}.

(** the allocator has handed out only references below its counters *)
Definition storeOk (s : Store) : Prop :=
  (∀ l, (nextCell s ≤ l)%nat → cellObjs s !! l = None)
  ∧ (∀ l, (nextHand s ≤ l)%nat → handObjs s !! l = None).

(** state passing over the store *)
Definition M (A : Type) : Type := Store → A * Store.

Definition ret {A} (x : A) : M A := λ s, (x, s).

Definition bind {A B} (m : M A) (k : A → M B) : M B :=
  λ s, let '(x, s') := m s in k x s'.

Notation "'do' x <- m ; k" := (bind m (λ x, k))
  (at level 10, x name, m at level 100, k at level 200).

Definition emptyCell : CellData := mkCell "" 0 0 None None false false None.

(** [{...cell}]: a new object with the fields of [cell] *)
Definition newCell (cell : CellData) : M nat :=
  λ s, (nextCell s,
        {| cellObjs := <[nextCell s:=cell]> (cellObjs s); handObjs := handObjs s;
           nextCell := S (nextCell s); nextHand := nextHand s |}).

(** reading through a reference (every reference of the program points to
    an object; [emptyCell] stands for a dangling one) *)
Definition readCell (l : nat) : M CellData :=
  λ s, (default emptyCell (cellObjs s !! l), s).

(** assignment to fields of the object at [l] *)
Definition writeCell (l : nat) (f : CellData → CellData) : M unit :=
  λ s, (tt, {| cellObjs := alter f l (cellObjs s); handObjs := handObjs s;
               nextCell := nextCell s; nextHand := nextHand s |}).

(** [[...tiles]]: a new array *)
Definition newHand (tiles : list ascii) : M nat :=
  λ s, (nextHand s,
        {| cellObjs := cellObjs s; handObjs := <[nextHand s:=tiles]> (handObjs s);
           nextCell := nextCell s; nextHand := S (nextHand s) |}).

Definition readHand (l : nat) : M (list ascii) :=
  λ s, (default [] (handObjs s !! l), s).

(** [tempHand.splice(...)]: the array at [l] now holds [tiles] *)
Definition writeHand (l : nat) (tiles : list ascii) : M unit :=
  λ s, (tt, {| cellObjs := cellObjs s; handObjs := alter (λ _, tiles) l (handObjs s);
               nextCell := nextCell s; nextHand := nextHand s |}).

(** [xs.map(f)] with an effectful [f] *)
Fixpoint mapM {A B} (f : A → M B) (l : list A) : M (list B) :=
  match l with
  | [] => ret []
  | x :: rest => do y <- f x; do ys <- mapM f rest; ret (y :: ys)
  end.

Definition cloneCell (l : nat) : M nat := do cell <- readCell l; newCell cell.

(** [grid.map(row => row.map(cell => ({...cell})))] *)
Definition cloneGrid (g : list (list nat)) : M (list (list nat)) :=
  mapM (mapM cloneCell) g.

(** the cells a grid of references points to *)
Definition derefGrid (s : Store) (g : list (list nat)) : Grid :=
  map (map (λ l, default emptyCell (cellObjs s !! l))) g.

Definition readGrid (g : list (list nat)) : M Grid := λ s, (derefGrid s g, s).

(** [nextGrid[r][c]] *)
Definition refAt (g : list (list nat)) (r c : Z) : option nat :=
  if bool_decide (0 ≤ r) && bool_decide (0 ≤ c)
  then g !! Z.to_nat r ≫= λ cells, cells !! Z.to_nat c
  else None.

(** [tempHand.indexOf(char)], [None] for -1 *)
Fixpoint indexOf (char : ascii) (tiles : list ascii) : option nat :=
  match tiles with
  | [] => None
  | t :: rest => if decide (t = char) then Some 0%nat else S <$> indexOf char rest
  end.

Inductive Dir : Set := H | V.

#[global] Instance Dir_eq_dec : EqDecision Dir.
Proof. solve_decision. Defined.

(** [stateRef.current], as far as the search reads it *)
Record StateRef : Type := mkStateRef {
  sr_grid : list (list nat);
  sr_gameMode : GameMode;
  sr_dictionary : option (gset string);
  sr_placementMode : PlacementMode;
  sr_cpuHand : nat;
  sr_playerHand : nat;
  sr_turnCount : Z
}.

(** how the overlay loop ends: [Thrown] is the TypeError of reading a cell
    outside the grid, [Rejected] is [return -1] *)
Inductive Overlay : Type :=
  | Thrown
  | Rejected
  | Placed (placedCount : Z) (newlyPlacedCoords : list (Z * Z)).

(** [cell.letter = char; cell.isLocked = true; cell.isBlank = isBlank;
     cell.turnPlaced = turnCount] *)
Definition placeTile (char : ascii) (blank : bool) (turnCount : Z)
    (cell : CellData) : CellData :=
  {| cellId := cellId cell; row := row cell; col := col cell;
     operator := operator cell; letter := Some char; isLocked := true;
     isBlank := blank; turnPlaced := Some turnCount |}.

(** [for (let k = 0; k < word.length; k++) { ... }], from index [k] on *)
Fixpoint overlay (chars : list ascii) (k : Z) (nextGrid : list (list nat))
    (tempHand : nat) (startR startC : Z) (dir : Dir) (turnCount : Z)
    (placedCount : Z) (newlyPlacedCoords : list (Z * Z)) : M Overlay :=
  match chars with
  | [] => ret (Placed placedCount newlyPlacedCoords)
  | char :: rest =>
      let r := match dir with V => startR + k | H => startR end in
      let c := match dir with H => startC + k | V => startC end in
      match refAt nextGrid r c with
      | None => ret Thrown
      | Some cellRef =>
          do cell <- readCell cellRef;
          match letter cell with
          | Some l =>
              if decide (l ≠ char) then ret Rejected
              else overlay rest (k + 1) nextGrid tempHand startR startC dir
                     turnCount placedCount newlyPlacedCoords
          | None =>
              do tiles <- readHand tempHand;
              match indexOf char tiles with
              | Some idx =>
                  do _ <- writeHand tempHand (delete idx tiles);
                  do _ <- writeCell cellRef (placeTile char false turnCount);
                  overlay rest (k + 1) nextGrid tempHand startR startC dir
                    turnCount (placedCount + 1) (newlyPlacedCoords ++ [(r, c)])
              | None =>
                  match indexOf "*"%char tiles with
                  | Some bIdx =>
                      do _ <- writeHand tempHand (delete bIdx tiles);
                      do _ <- writeCell cellRef (placeTile char true turnCount);
                      overlay rest (k + 1) nextGrid tempHand startR startC dir
                        turnCount (placedCount + 1) (newlyPlacedCoords ++ [(r, c)])
                  | None => ret Rejected
                  end
              end
          end
      end
  end.

(** The result is [None] if the call throws, [Some v] if it returns [v]. *)
Definition evaluatePlacement (st : StateRef) (word : string)
    (pivotIdx ar ac : Z) (dir : Dir) : M (option Z) :=
  let startR := match dir with V => ar - pivotIdx | H => ar end in
  let startC := match dir with H => ac - pivotIdx | V => ac end in
  let len := Z.of_nat (String.length word) in
  if bool_decide (startR < 0) || bool_decide (startC < 0) then ret (Some (-1))
  else if bool_decide (dir = H) && bool_decide (BOARD_SIZE < startC + len)
  then ret (Some (-1))
  else if bool_decide (dir = V) && bool_decide (BOARD_SIZE < startR + len)
  then ret (Some (-1))
  else
    do nextGrid <- cloneGrid (sr_grid st);
    do cpuTiles <- readHand (sr_cpuHand st);
    do tempHand <- newHand cpuTiles;
    do o <- overlay (list_ascii_of_string word) 0 nextGrid tempHand
              startR startC dir (sr_turnCount st) 0 [];
    match o with
    | Thrown => ret None
    | Rejected => ret (Some (-1))
    | Placed placedCount newlyPlacedCoords =>
        if bool_decide (placedCount = 0) then ret (Some (-1))
        else
          do g <- readGrid nextGrid;
          if validatePlacementRules g (sr_gameMode st) (sr_placementMode st)
               (sr_dictionary st)
          then
            let baseScore := calculateScrabbleScore g newlyPlacedCoords in
            let '(chains, allWords) :=
              analyzeBoardLogic g (sr_dictionary st) (sr_placementMode st) in
            let logicBonus := calculateChainScore chains allWords (sr_turnCount st) in
            ret (Some (baseScore + score logicBonus))
          else ret (Some (-1))
    end.

(** [getPivots]: the indices of the word that may sit on the anchor.  An
    anchor without a letter ([anchor.letter === '']) is [None]. *)
Fixpoint pivotsFrom (i : Z) (chars : list ascii) (anchorChar : ascii) : list Z :=
  match chars with
  | [] => []
  | ch :: rest =>
      if decide (ch = anchorChar) then i :: pivotsFrom (i + 1) rest anchorChar
      else pivotsFrom (i + 1) rest anchorChar
  end.

Definition getPivots (word : string) (anchorChar : option ascii) : list Z :=
  match anchorChar with
  | None => [Z.of_nat (String.length word) `div` 2]
  | Some a => pivotsFrom 0 (list_ascii_of_string word) a
  end.

End Search.

(** ** Turn commit of the player (src/App.tsx, [commitPlayerTurn]) *)

Module Commit.
Import Board TileSystem Validation Scoring Logic Search.

(** The part of [stateRef.current] the commit reads and the setters write.
    The commit never mutates an object in place ([newGrid = [...resolvedGrid]],
    [newGrid[r] = [...newGrid[r]]], [newGrid[r][c] = {...}]), so the grid is a
    value here. *)
Record Session : Type := mkSession {
  grid : Grid;
  playerHand : list ascii;
  cpuHand : list ascii;
  tileBag : list ascii;
  turnMoves : list (Z * Z * ascii);
  gameMode : GameMode;
  placementMode : PlacementMode;
  dictionary : option (gset string);
  turnCount : Z;
  playerScore : Z;
  cpuScore : Z;
  isCpuTurn : bool
}.

(** [{ ...cell, isLocked: true, turnPlaced: turnCount }] *)
Definition lockCell (turnCount : Z) (cell : CellData) : CellData :=
  {| cellId := cellId cell; row := row cell; col := col cell;
     operator := operator cell; letter := letter cell; isLocked := true;
     isBlank := isBlank cell; turnPlaced := Some turnCount |}.

Definition commitPlayerTurn (s : Session) : Session :=
  if bool_decide (length (turnMoves s) = 0%nat) then s
  else
    match resolveGridWithBlanks (grid s) (gameMode s) (placementMode s) (dictionary s) with
    | None => s                       (* "Attempted to commit invalid grid" *)
    | Some resolvedGrid =>
        (* 1. base score *)
        let baseScore :=
          calculateScrabbleScore resolvedGrid (map (λ m, (m.1.1, m.1.2)) (turnMoves s)) in
        (* 2. lock grid *)
        let newGrid :=
          fold_left (λ g m, updCell g m.1.1 m.1.2 (lockCell (turnCount s)))
                    (turnMoves s) resolvedGrid in
        (* 3. logic chain bonus *)
        let '(chains, allWords) :=
          analyzeBoardLogic newGrid (dictionary s) (placementMode s) in
        let logicBonus := calculateChainScore chains allWords (turnCount s) in
        let newScore := playerScore s + baseScore + score logicBonus in
        (* 4. refill hand *)
        let d := drawTiles (playerHand s) (tileBag s) in
        {| grid := newGrid; playerHand := hand d; cpuHand := cpuHand s;
           tileBag := bag d; turnMoves := [];
           gameMode := gameMode s; placementMode := placementMode s;
           dictionary := dictionary s; turnCount := turnCount s + 1;
           playerScore := newScore; cpuScore := cpuScore s;
           isCpuTurn := true |}
    end.

(** *** The other turn operations of src/App.tsx

    Like the commit they build new arrays and new cell objects instead of
    writing into existing ones, so they are functions on [Session]. *)

(** [for (i = xs.length - 1; i > 0; i--) swap (xs[i], xs[floor(random()*(i+1))])] *)
Definition shuffle (rnd : nat → nat) (tiles : list ascii) : list ascii :=
  fisherYates rnd (length tiles - 1) tiles.

(** [resetGame]; the modes and the dictionary are not touched *)
Definition resetGame (rnd : nat → nat) (s : Session) : Session :=
  let initialBag := generateTileBag rnd in
  let pDraw := drawTiles [] initialBag in
  let cDraw := drawTiles [] (bag pDraw) in
  {| grid := generateBoard; playerHand := hand pDraw; cpuHand := hand cDraw;
     tileBag := bag cDraw; turnMoves := [];
     gameMode := gameMode s; placementMode := placementMode s;
     dictionary := dictionary s; turnCount := 1;
     playerScore := 0; cpuScore := 0; isCpuTurn := false |}.

(** [cell.isBlank ? '*' : cell.letter] *)
Definition letterToReturn (cell : CellData) : option ascii :=
  if isBlank cell then Some "*"%char else letter cell.

(** [{ ...cell, letter: null, isLocked: false, isBlank: false }] *)
Definition clearCell (cell : CellData) : CellData :=
  {| cellId := cellId cell; row := row cell; col := col cell;
     operator := operator cell; letter := None; isLocked := false;
     isBlank := false; turnPlaced := turnPlaced cell |}.

(** the [turnMoves.forEach] of [handlePass] and [recallTiles]: take the
    tiles of the in-progress move off the board.  The moves are recorded by
    [performTilePlacement], on cells of the board; for a move outside it the
    source would throw at [newGrid[move.r][move.c]], the model skips it. *)
Fixpoint liftMoves (moves : list (Z * Z * ascii)) (newGrid : Grid)
    (lettersToReturn : list ascii) : Grid * list ascii :=
  match moves with
  | [] => (newGrid, lettersToReturn)
  | m :: rest =>
      match cellAt newGrid m.1.1 m.1.2 with
      | Some cell =>
          liftMoves rest (updCell newGrid m.1.1 m.1.2 clearCell)
            (match letterToReturn cell with
             | Some l => lettersToReturn ++ [l]
             | None => lettersToReturn
             end)
      | None => liftMoves rest newGrid lettersToReturn
      end
  end.

(** [handlePass] *)
Definition handlePass (rnd : nat → nat) (s : Session) : Session :=
  let '(newGrid, lettersToReturn) := liftMoves (turnMoves s) (grid s) (playerHand s) in
  let newBag := shuffle rnd (tileBag s ++ lettersToReturn) in
  let d := drawTiles [] newBag in
  {| grid := newGrid; playerHand := hand d; cpuHand := cpuHand s;
     tileBag := bag d; turnMoves := [];
     gameMode := gameMode s; placementMode := placementMode s;
     dictionary := dictionary s; turnCount := turnCount s;
     playerScore := playerScore s; cpuScore := cpuScore s; isCpuTurn := true |}.

(** [recallTiles] *)
Definition recallTiles (s : Session) : Session :=
  if bool_decide (length (turnMoves s) = 0%nat) then s
  else
    let '(newGrid, lettersToReturn) := liftMoves (turnMoves s) (grid s) [] in
    {| grid := newGrid; playerHand := playerHand s ++ lettersToReturn;
       cpuHand := cpuHand s; tileBag := tileBag s; turnMoves := [];
       gameMode := gameMode s; placementMode := placementMode s;
       dictionary := dictionary s; turnCount := turnCount s;
       playerScore := playerScore s; cpuScore := cpuScore s;
       isCpuTurn := isCpuTurn s |}.

(** [passCpuTurn] *)
Definition passCpuTurn (rnd : nat → nat) (s : Session) : Session :=
  let newBag := shuffle rnd (tileBag s ++ cpuHand s) in
  let d := drawTiles [] newBag in
  {| grid := grid s; playerHand := playerHand s; cpuHand := hand d;
     tileBag := bag d; turnMoves := turnMoves s;
     gameMode := gameMode s; placementMode := placementMode s;
     dictionary := dictionary s; turnCount := turnCount s;
     playerScore := playerScore s; cpuScore := cpuScore s; isCpuTurn := false |}.

(** [performTilePlacement (r, c, letter, handIndex)], without the cursor.
    A cell outside the board cannot be clicked; [None] at [cellAt] stands
    for that. *)
Definition performTilePlacement (r c : Z) (l : ascii) (handIndex : nat)
    (s : Session) : Session :=
  if isCpuTurn s then s
  else
    match cellAt (grid s) r c with
    | None => s
    | Some currentCell =>
        if isLocked currentCell then s
        else
          let tileUsed := playerHand s !! handIndex in
          let blank := bool_decide (tileUsed = Some "*"%char) in
          let newHand := delete handIndex (playerHand s) in
          let newHand :=
            if hasLetter currentCell && negb (isLocked currentCell)
            then match letterToReturn currentCell with
                 | Some back => newHand ++ [back]
                 | None => newHand
                 end
            else newHand in
          {| grid := updCell (grid s) r c (λ cell,
               {| cellId := cellId cell; row := row cell; col := col cell;
                  operator := operator cell; letter := Some l; isLocked := false;
                  isBlank := blank; turnPlaced := turnPlaced cell |});
             playerHand := newHand; cpuHand := cpuHand s; tileBag := tileBag s;
             turnMoves :=
               List.filter (λ m, negb (bool_decide (m.1.1 = r) && bool_decide (m.1.2 = c)))
                           (turnMoves s) ++ [(r, c, l)];
             gameMode := gameMode s; placementMode := placementMode s;
             dictionary := dictionary s; turnCount := turnCount s;
             playerScore := playerScore s; cpuScore := cpuScore s;
             isCpuTurn := isCpuTurn s |}
    end.

(** *** The two gates in front of the commit

    [isLoadingDict] is a state of its own, outside [Session]. *)

(** [!grid.some(row => row.some(cell => cell.isLocked))]; the memo's extra
    test [grid.length === 0] gives the same on the empty array *)
Definition isFirstTurn (g : Grid) : bool :=
  negb (existsb (existsb isLocked) g).

(** [!isFirstTurn || turnMoves.some(m => m.r === 5 && m.c === 5)] *)
Definition isStartCovered (s : Session) : bool :=
  negb (isFirstTurn (grid s))
  || existsb (λ m : Z * Z * ascii,
                bool_decide (m.1.1 = 5) && bool_decide (m.1.2 = 5)) (turnMoves s).

(** [resolveGridWithBlanks(...) !== null] *)
Definition isBoardValid (s : Session) : bool :=
  match resolveGridWithBlanks (grid s) (gameMode s) (placementMode s)
          (dictionary s) with
  | Some _ => true
  | None => false
  end.

(** [canCommit], which enables the commit button *)
Definition canCommit (isLoadingDict : bool) (s : Session) : bool :=
  bool_decide (0 < length (turnMoves s))%nat
  && isBoardValid s && negb isLoadingDict && negb (isCpuTurn s)
  && match placementMode s with
     | GO => if isFirstTurn (grid s) then isStartCovered s else true
     | ACROSTIC => isStartCovered s
     end.

(** the Enter branch of [handleKeyDown]: [true] when it reaches
    [commitPlayerTurn ()] *)
Definition enterCommits (isLoadingDict : bool) (s : Session) : bool :=
  if isCpuTurn s then false
  else if isCpuTurn s || isLoadingDict
          || bool_decide (length (turnMoves s) = 0%nat) then false
  else
    let firstTurn := isFirstTurn (grid s) in
    let startCovered :=
      negb firstTurn
      || existsb (λ m : Z * Z * ascii,
                    bool_decide (m.1.1 = 5) && bool_decide (m.1.2 = 5))
                 (turnMoves s) in
    if negb startCovered && negb (bool_decide (placementMode s = GO)) then false
    else if negb startCovered && firstTurn then false
    else
      match resolveGridWithBlanks (grid s) (gameMode s) (placementMode s)
              (dictionary s) with
      | Some _ => true
      | None => false
      end.

(** the move the search hands to [executeMove] *)
Record Move : Type := mkMove {
  mv_word : string;
  mv_pivot : Z;
  mv_r : Z;                                              (* anchor.r *)
  mv_c : Z;                                              (* anchor.c *)
  mv_dir : Dir
}.

(** the [for] loop of [executeMove], from index [k] on.  It is run on
    moves [evaluatePlacement] has accepted, whose letters all fall on the
    board; outside the board the source would throw at [newGrid[r][c]],
    which the model does not render: the theorems about [executeMove]
    are about accepted moves. *)
Fixpoint executeLoop (chars : list ascii) (k : Z) (move : Move) (turnCount : Z)
    (newGrid : Grid) (newCpuHand : list ascii) (newlyPlacedCoords : list (Z * Z))
    : Grid * list ascii * list (Z * Z) :=
  match chars with
  | [] => (newGrid, newCpuHand, newlyPlacedCoords)
  | char :: rest =>
      let r := match mv_dir move with
               | V => mv_r move - mv_pivot move + k | H => mv_r move end in
      let c := match mv_dir move with
               | H => mv_c move - mv_pivot move + k | V => mv_c move end in
      if negb (lettered newGrid r c) then
        let '(hand', blank) :=
          match indexOf char newCpuHand with
          | Some hIdx => (delete hIdx newCpuHand, false)
          | None =>
              match indexOf "*"%char newCpuHand with
              | Some bIdx => (delete bIdx newCpuHand, true)
              | None => (newCpuHand, false)
              end
          end in
        executeLoop rest (k + 1) move turnCount
          (updCell newGrid r c (placeTile char blank turnCount)) hand'
          (newlyPlacedCoords ++ [(r, c)])
      else executeLoop rest (k + 1) move turnCount newGrid newCpuHand
             newlyPlacedCoords
  end.

(** [executeMove] *)
Definition executeMove (move : Move) (s : Session) : Session :=
  let '(newGrid, newCpuHand, newlyPlacedCoords) :=
    executeLoop (list_ascii_of_string (mv_word move)) 0 move (turnCount s)
      (grid s) (cpuHand s) [] in
  let baseScore := calculateScrabbleScore newGrid newlyPlacedCoords in
  let '(chains, allWords) :=
    analyzeBoardLogic newGrid (dictionary s) (placementMode s) in
  let logicBonus := calculateChainScore chains allWords (turnCount s) in
  let draw := drawTiles newCpuHand (tileBag s) in
  {| grid := newGrid; playerHand := playerHand s; cpuHand := hand draw;
     tileBag := bag draw; turnMoves := turnMoves s;
     gameMode := gameMode s; placementMode := placementMode s;
     dictionary := dictionary s; turnCount := turnCount s + 1;
     playerScore := playerScore s;
     cpuScore := cpuScore s + baseScore + score logicBonus;
     isCpuTurn := false |}.

End Commit.

(** * Notions of the specification

    The definitions below follow the words of the specification; the
    theorems compare the embedded code with them. *)

Module Spec.
Import Board TileSystem Validation Scoring Logic.

(** The table expanded letter by letter, in table order. *)
Definition expandTable (table : list (ascii * nat)) : list ascii :=
  flat_map (λ '(tile, count), replicate count tile) table.

Definition tableTotal (table : list (ascii * nat)) : nat :=
  foldr (λ '(_, count) acc, (count + acc)%nat) 0%nat table.

(** The fold of the specification: one step per Action, on the outcome and
    the established flag. *)
Definition foldStep (st : Z * bool) (a : CompiledOp) : Z * bool :=
  let '(outcome, established) := st in
  match op a, established with
  | THEN, _ => (wordScore a, true)
  | PLUS, true | AND, true => (outcome + wordScore a, true)
  | MINUS, true => (outcome - wordScore a, true)
  | MULT, true => (outcome * wordScore a, true)
  | OVER, true => if decide (wordScore a = 0) then (outcome, true)
                  else (outcome `div` wordScore a, true)
  | _, _ => st
  end.

Definition specOutcome (chain : CompiledChain) : Z * bool :=
  fold_left foldStep (actionsOf chain) (0, false).

(** How often a freshly formed word of the chain's cluster repeats the text
    of one of its Triggers: the matching (word, Trigger) pairs. *)
Definition replays (chain : CompiledChain) (allWords : list WordMetadata)
    (currentTurn : Z) : nat :=
  length (List.filter (λ p : WordMetadata * CompiledOp,
                         bool_decide (w_word p.1 = word p.2))
            (w ← newlyFormedWords chain allWords currentTurn;
             trig ← triggersOf chain; [(w, trig)])).

(** ascending by turn *)
Definition turnLe (a b : CompiledOp) : Prop := turn a ≤ turn b.

(** the single earliest entry of a kind (if any), in a list sorted by turn *)
Definition earliest (p : CompiledOp → bool) (byTurn : list CompiledOp)
    : list CompiledOp :=
  option_list (head (List.filter p byTurn)).

(** The five buckets of the specification, read off the entries sorted by
    turn: earliest IF, every OR, earliest THEN, AND and PLUS together,
    MINUS, MULT and OVER together. *)
Definition specChain (entries : list CompiledOp) : list CompiledOp :=
  let byTurn := sortByTurn entries in
  earliest (opIs IF) byTurn
  ++ List.filter (opIs OR) byTurn
  ++ earliest (opIs THEN) byTurn
  ++ List.filter (λ x, opIs AND x || opIs PLUS x) byTurn
  ++ List.filter (λ x, opIs MINUS x || opIs MULT x || opIs OVER x) byTurn.

(** a newly placed tile: a lettered cell that is not locked *)
Definition isNewTile (grid : Grid) (r c : Z) : bool :=
  inBoard r c &&
  match cellAt grid r c with
  | Some cell => hasLetter cell && negb (isLocked cell)
  | None => false
  end.

(** a letter committed in an earlier turn *)
Definition isLockedLetter (grid : Grid) (r c : Z) : bool :=
  inBoard r c &&
  match cellAt grid r c with
  | Some cell => hasLetter cell && isLocked cell
  | None => false
  end.

(** orthogonal neighbours: one step along a row or a column *)
Definition orthogonal (a b : Z * Z) : bool :=
  bool_decide (Z.abs (a.1 - b.1) + Z.abs (a.2 - b.2) = 1).

Definition hasLockedNeighbour (grid : Grid) (r c : Z) : bool :=
  existsb (λ n, orthogonal (r, c) n && isLockedLetter grid n.1 n.2) coords.

(** [a] and [b] lie in one word: same row or same column, and every cell
    between them is lettered *)
Definition sameWord (grid : Grid) (a b : Z * Z) : bool :=
  (bool_decide (a.1 = b.1)
   && forallb (λ k, lettered grid a.1 k)
              (seqZ (a.2 `min` b.2) (Z.abs (a.2 - b.2) + 1)))
  || (bool_decide (a.2 = b.2)
      && forallb (λ k, lettered grid k a.2)
                 (seqZ (a.1 `min` b.1) (Z.abs (a.1 - b.1) + 1))).

(** connected to a locked letter, directly or via the word it is part of:
    some cell of a word through (r, c) is a locked letter or touches one *)
Definition connectedToLocked (grid : Grid) (r c : Z) : bool :=
  existsb (λ n, sameWord grid (r, c) n
                && (isLockedLetter grid n.1 n.2 || hasLockedNeighbour grid n.1 n.2))
          coords.

(** Two grids look alike to the base score: cell by cell the same
    letteredness and the same cell score. *)
Definition scoreAlike (g g' : Grid) : Prop :=
  ∀ r c, match cellAt g r c, cellAt g' r c with
         | Some a, Some b => hasLetter a = hasLetter b
                             ∧ getCellScore a = getCellScore b
         | None, None => True
         | _, _ => False
         end.

(** the two directions [scan] is called with: (0, 1) and (1, 0) *)
Definition unitDir (dr dc : Z) : Prop := (dr = 0 ∧ dc = 1) ∨ (dr = 1 ∧ dc = 0).

(** A maximal lettered run of a line: the line is [before ++ run ++ after],
    every cell of [run] is lettered, and the cells next to it on either
    side, if any, are not. *)
Definition maximalRun (cells before run after : list CellData) : Prop :=
  cells = before ++ run ++ after
  ∧ Forall (λ cell, hasLetter cell = true) run
  ∧ (∀ cell, last before = Some cell → hasLetter cell = false)
  ∧ (∀ cell, head after = Some cell → hasLetter cell = false).

(** the text of a run *)
Definition wordOfRun (run : list CellData) : string :=
  string_of_list_ascii (omap letter run).

(** the WordRecord of a run: text, score, max turnPlaced, cluster, cell ids *)
Definition recordOfRun (getCid : list string → Z) (run : list CellData)
    : WordMetadata :=
  {| w_word := wordOfRun run;
     w_score := foldr (λ cell acc, getCellScore cell + acc) 0 run;
     w_turn := foldr (λ cell acc, default 0 (turnPlaced cell) `max` acc) 0 run;
     w_cellIds := map cellId run;
     w_clusterId := getCid (map cellId run) |}.

(** the locals of [scanLine] after the cells of a run *)
Definition extendAll (run : list CellData) (acc : RunAcc) : RunAcc :=
  fold_left (λ acc cell, match letter cell with
                         | Some l => extendRun cell l acc
                         | None => acc
                         end) run acc.

(** every visited key is the key of a recorded word *)
Definition keysRecorded (st : ScanState) : Prop :=
  ∀ k, k ∈ visitedWords st → ∃ w, w ∈ allValidWords st ∧ joinIds (w_cellIds w) = k.

(** the cells of the board the flood fill has not visited yet *)
Definition pending (visited : gset string) : nat :=
  length (List.filter (λ '(r, c), negb (bool_decide (coordId r c ∈ visited))) coords).




(** the lines the analyzer scans: every row, then every column *)
Definition scannedLine (grid : Grid) (cells : list CellData) : Prop :=
  cells ∈ grid ∨ ∃ c, c ∈ indices ∧ cells = column grid c.

(** a recorded word has two or more letters and passes the dictionary *)
Definition wordSound (dictionary : option (gset string)) (w : WordMetadata)
    : Prop :=
  (1 < String.length (w_word w))%nat ∧ isValid dictionary (w_word w) = true.

(** an operator entry is not START and carries a recorded word *)
Definition opSound (words : list WordMetadata) (o : CompiledOp) : Prop :=
  op o ≠ START
  ∧ ∃ w, w ∈ words ∧ w_word w = word o ∧ w_score w = wordScore o
         ∧ w_turn w = lastModifiedTurn o ∧ w_cellIds w = cellIds o
         ∧ w_clusterId w = clusterId o.

(** a data word is a recorded word of its cluster *)
Definition dataSound (words : list WordMetadata) (d : string * Z) : Prop :=
  ∃ w, w ∈ words ∧ w_word w = d.1 ∧ w_clusterId w = d.2.

Definition scanSound (dictionary : option (gset string)) (st : ScanState)
    : Prop :=
  Forall (wordSound dictionary) (allValidWords st)
  ∧ Forall (opSound (allValidWords st)) (rawOps st)
  ∧ Forall (dataSound (allValidWords st)) (rawDataWords st).

(** the operators collected along a run never include START *)
Definition runSound (run : RunAcc) : Prop :=
  Forall (λ o : Operator * Z * string, o.1.1 ≠ START) (currentOps run).

(** the kinds of entry that add to the outcome, and those that modify it *)
Definition isAddition (x : CompiledOp) : bool := opIs AND x || opIs PLUS x.
Definition isModifier (x : CompiledOp) : bool :=
  opIs MINUS x || opIs MULT x || opIs OVER x.

(** the word scores of the additions, summed *)
Definition additionsTotal (entries : list CompiledOp) : Z :=
  foldr (λ x acc, wordScore x + acc) 0 (List.filter isAddition entries).

(** what one modifier does to the outcome *)
Definition applyModifier (outcome : Z) (m : CompiledOp) : Z :=
  match op m with
  | MINUS => outcome - wordScore m
  | MULT => outcome * wordScore m
  | OVER => if decide (wordScore m = 0) then outcome
            else outcome `div` wordScore m
  | _ => outcome
  end.

(** the board with its wildcards replaced, in order, by [letters] *)
Fixpoint fillBlanks (g : Grid) (blanks : list (Z * Z)) (letters : list ascii)
    : Grid :=
  match blanks, letters with
  | (r, c) :: blanks', ch :: letters' =>
      fillBlanks (updCell g r c (withLetter (Some ch))) blanks' letters'
  | _, _ => g
  end.

End Spec.

(** * Notions of the specification: the scratch copy of the move search *)

Module SearchSpec.
Import Board TileSystem Validation Scoring Logic Search.

(** every object of [s] is still there, unchanged, in [s'] *)
Definition preserved (s s' : Store) : Prop :=
  (∀ l cell, cellObjs s !! l = Some cell → cellObjs s' !! l = Some cell)
  ∧ (∀ l tiles, handObjs s !! l = Some tiles → handObjs s' !! l = Some tiles).

(** the session's board is 11 x 11 references to cells of the store, and
    its two hands are arrays of the store *)
Definition sessionOk (st : StateRef) (s : Store) : Prop :=
  length (sr_grid st) = Z.to_nat BOARD_SIZE
  ∧ Forall (λ refs : list nat, length refs = Z.to_nat BOARD_SIZE) (sr_grid st)
  ∧ Forall (Forall (λ l, is_Some (cellObjs s !! l))) (sr_grid st)
  ∧ is_Some (handObjs s !! sr_cpuHand st)
  ∧ is_Some (handObjs s !! sr_playerHand st).

(** where the [k]-th letter of the word goes *)
Definition posOf (dir : Dir) (startR startC k : Z) : Z * Z :=
  (match dir with V => startR + k | H => startR end,
   match dir with H => startC + k | V => startC end).

(** the letters of the word with their positions, from index [k] on *)
Fixpoint itemsFrom (dir : Dir) (startR startC k : Z) (chars : list ascii)
    : list (Z * Z * ascii) :=
  match chars with
  | [] => []
  | ch :: rest => (posOf dir startR startC k, ch)
                  :: itemsFrom dir startR startC (k + 1) rest
  end.

(** the letters the hand has to supply: those that fall on empty cells *)
Definition needed (g : Grid) (items : list (Z * Z * ascii)) : list ascii :=
  omap (λ it : Z * Z * ascii,
          if lettered g it.1.1 it.1.2 then None else Some it.2) items.

(** the hand can supply the needed letters, a wildcard standing in for any
    of them: some tiles of the hand, one per needed letter, each the letter
    itself or the wildcard *)
Definition canSupply (tiles needs : list ascii) : Prop :=
  ∃ used, used ⊆+ tiles
          ∧ Forall2 (λ n u, u = n ∨ u = "*"%char) needs used.

(** [g'] is [g] with the letters of [items] laid on its empty cells, locked
    at [turn]; nothing else differs *)
Definition overlaid (g g' : Grid) (items : list (Z * Z * ascii)) (turn : Z)
    : Prop :=
  (∀ r c, (r, c) ∉ items.*1 → cellAt g' r c = cellAt g r c)
  ∧ (∀ r c ch cell, (r, c, ch) ∈ items → cellAt g r c = Some cell →
       (hasLetter cell = true → cellAt g' r c = Some cell)
       ∧ (hasLetter cell = false →
          ∃ blank, cellAt g' r c = Some (placeTile ch blank turn cell))).

(** The overlay loop read on values: the scratch grid and the scratch hand
    as they are after each step. *)
Inductive PureOverlay : Type :=
  | PThrown
  | PRejected
  | PPlaced (g : Grid) (tiles : list ascii) (placedCount : Z)
            (newlyPlacedCoords : list (Z * Z)).

Fixpoint overlayItems (items : list (Z * Z * ascii)) (g : Grid)
    (tiles : list ascii) (turn : Z) (placedCount : Z)
    (newlyPlacedCoords : list (Z * Z)) : PureOverlay :=
  match items with
  | [] => PPlaced g tiles placedCount newlyPlacedCoords
  | (p, ch) :: rest =>
      match cellAt g p.1 p.2 with
      | None => PThrown
      | Some cell =>
          match letter cell with
          | Some l =>
              if decide (l ≠ ch) then PRejected
              else overlayItems rest g tiles turn placedCount newlyPlacedCoords
          | None =>
              match indexOf ch tiles with
              | Some idx =>
                  overlayItems rest (updCell g p.1 p.2 (placeTile ch false turn))
                    (delete idx tiles) turn (placedCount + 1)
                    (newlyPlacedCoords ++ [p])
              | None =>
                  match indexOf "*"%char tiles with
                  | Some bIdx =>
                      overlayItems rest (updCell g p.1 p.2 (placeTile ch true turn))
                        (delete bIdx tiles) turn (placedCount + 1)
                        (newlyPlacedCoords ++ [p])
                  | None => PRejected
                  end
              end
          end
      end
  end.

(** what [cloneGrid] establishes between the store before and after, the
    references it read and the references it returns *)
Definition cloned (s s' : Store) (src dst : list (list nat)) : Prop :=
  preserved s s'
  ∧ handObjs s' = handObjs s ∧ nextHand s' = nextHand s
  ∧ storeOk s'
  ∧ (nextCell s ≤ nextCell s')%nat
  ∧ Forall (Forall (λ l, (nextCell s ≤ l < nextCell s')%nat)) dst
  ∧ NoDup (concat dst)
  ∧ Forall2 (Forall2 (λ a b, cellObjs s' !! b
                             = Some (default emptyCell (cellObjs s !! a)))) src dst.

(** where the word starts, given the pivot and the anchor *)
Definition startOf (dir : Dir) (pivotIdx ar ac : Z) : Z * Z :=
  (match dir with V => ar - pivotIdx | H => ar end,
   match dir with H => ac - pivotIdx | V => ac end).

(** the letters of the word with the positions they would take *)
Definition wordItems (word : string) (pivotIdx ar ac : Z) (dir : Dir)
    : list (Z * Z * ascii) :=
  itemsFrom dir (startOf dir pivotIdx ar ac).1 (startOf dir pivotIdx ar ac).2 0
            (list_ascii_of_string word).

(** The reasons for which a candidate is infeasible, on the session's real
    board [real] and real hand [tiles]: the word runs off the board, a
    lettered cell under it holds another letter, the hand cannot supply the
    letters for the empty cells, there is no empty cell under it, or the
    board with the word laid on it fails validation. *)
Definition infeasible (st : StateRef) (real : Grid) (tiles : list ascii)
    (items : list (Z * Z * ascii)) : Prop :=
  (∃ it, it ∈ items ∧ inBoard it.1.1 it.1.2 = false)
  ∨ (∃ r c ch cell x, (r, c, ch) ∈ items ∧ cellAt real r c = Some cell
                      ∧ letter cell = Some x ∧ x ≠ ch)
  ∨ ¬ canSupply tiles (needed real items)
  ∨ needed real items = []
  ∨ (∀ g', overlaid real g' items (sr_turnCount st) →
           validatePlacementRules g' (sr_gameMode st) (sr_placementMode st)
             (sr_dictionary st) = false).

End SearchSpec.

(** * Notions of the specification: the tiles in play *)

Module TurnSpec.
Import Board TileSystem Commit.

(** the tile a lettered cell holds: a wildcard, whatever letter it shows,
    when the cell is flagged blank *)
Definition tileOf (cell : CellData) : option ascii :=
  match letter cell with
  | Some l => Some (if isBlank cell then "*"%char else l)
  | None => None
  end.

(** the tiles lying on the board, row by row *)
Definition boardTiles (g : Grid) : list ascii := omap tileOf (concat g).

(** every tile of the game: the two hands, the bag and the board *)
Definition tilesInPlay (s : Session) : list ascii :=
  playerHand s ++ cpuHand s ++ tileBag s ++ boardTiles (grid s).

(** no empty cell carries the blank flag *)
Definition blankOk (g : Grid) : bool :=
  forallb (forallb (λ cell, implb (isBlank cell) (hasLetter cell))) g.

(** every cell that shows the wildcard sign carries the blank flag *)
Definition wildcardsFlagged (g : Grid) : bool :=
  forallb (forallb (λ cell, implb (bool_decide (letter cell = Some "*"%char))
                              (isBlank cell))) g.

End TurnSpec.

(** * Notions of the specification: the move the search settles on *)

Module MoveSpec.
Import Board TileSystem Validation Scoring Logic Search SearchSpec Commit.

(** the word runs off the board: the four bounds tests of
    [evaluatePlacement] *)
Definition offBoard (word : string) (pivotIdx ar ac : Z) (dir : Dir) : bool :=
  let start := startOf dir pivotIdx ar ac in
  let len := Z.of_nat (String.length word) in
  bool_decide (start.1 < 0) || bool_decide (start.2 < 0)
  || bool_decide (dir = H) && bool_decide (BOARD_SIZE < start.2 + len)
  || bool_decide (dir = V) && bool_decide (BOARD_SIZE < start.1 + len).

(** base score plus chain bonus of a board with new tiles at [coords] *)
Definition boardValue (dictionary : option (gset string))
    (placementMode : PlacementMode) (turn : Z) (g : Grid)
    (coords : list (Z * Z)) : Z :=
  calculateScrabbleScore g coords
  + score (calculateChainScore (analyzeBoardLogic g dictionary placementMode).1
             (analyzeBoardLogic g dictionary placementMode).2 turn).

(** [evaluatePlacement] read on values: on the board [real] and the hand
    [tiles] of the session *)
Definition evaluateOn (st : StateRef) (real : Grid) (tiles : list ascii)
    (word : string) (pivotIdx ar ac : Z) (dir : Dir) : option Z :=
  if offBoard word pivotIdx ar ac dir then Some (-1)
  else
    match overlayItems (wordItems word pivotIdx ar ac dir) real tiles
            (sr_turnCount st) 0 [] with
    | PThrown => None
    | PRejected => Some (-1)
    | PPlaced g' _ placedCount coords =>
        if bool_decide (placedCount = 0) then Some (-1)
        else if validatePlacementRules g' (sr_gameMode st) (sr_placementMode st)
                  (sr_dictionary st)
        then Some (boardValue (sr_dictionary st) (sr_placementMode st)
                     (sr_turnCount st) g' coords)
        else Some (-1)
    end.

(** the session whose board and computer hand the search reads from the
    store *)
Definition viewOf (st : StateRef) (s : Store) (session : Session) : Prop :=
  grid session = derefGrid s (sr_grid st)
  ∧ cpuHand session = default [] (handObjs s !! sr_cpuHand st)
  ∧ turnCount session = sr_turnCount st
  ∧ dictionary session = sr_dictionary st
  ∧ placementMode session = sr_placementMode st
  ∧ gameMode session = sr_gameMode st.

End MoveSpec.

(** * Concrete boards and chains used by the examples *)

Module Examples.
Import Board TileSystem Validation Scoring Logic Commit.

(** a tile on the board *)
Definition putTile (r c : Z) (l : ascii) (locked : bool) (t : option Z)
    (g : Grid) : Grid :=
  updCell g r c (λ cell,
    {| cellId := cellId cell; row := row cell; col := col cell;
       operator := operator cell; letter := Some l; isLocked := locked;
       isBlank := false; turnPlaced := t |}).

Definition dictCatHat : gset string := {[ "CAT"; "HAT" ]}.

(** Turn 1 laid CAT on row 4 across the IF cell (4,4); turn 2 laid HA above
    its T, so HAT runs down column 5 from the THEN cell (2,5). *)
Definition boardCatHat : Grid :=
  putTile 2 5 "H" true (Some 2) (putTile 3 5 "A" true (Some 2)
  (putTile 4 3 "C" true (Some 1) (putTile 4 4 "A" true (Some 1)
  (putTile 4 5 "T" true (Some 1) generateBoard)))).

(** The player then puts A and T under the C: a second CAT, down column 3. *)
Definition boardReplay : Grid :=
  putTile 5 3 "A" false None (putTile 6 3 "T" false None boardCatHat).

Definition sessionReplay : Session :=
  {| grid := boardReplay; playerHand := ["E"; "E"; "R"; "S"; "O"]%char;
     cpuHand := []; tileBag := ["Q"; "Z"; "X"]%char;
     turnMoves := [(5, 3, "A"%char); (6, 3, "T"%char)];
     gameMode := DYNAMIC; placementMode := ACROSTIC;
     dictionary := Some dictCatHat; turnCount := 3;
     playerScore := 11; cpuScore := 0; isCpuTurn := false |}.

(** the player's turn on the CAT/HAT board before any tile is placed *)
Definition sessionFresh : Session :=
  {| grid := boardCatHat; playerHand := ["E"; "E"; "R"; "S"; "O"]%char;
     cpuHand := ["A"; "T"; "*"; "E"]%char; tileBag := ["Q"; "Z"; "X"]%char;
     turnMoves := []; gameMode := DYNAMIC; placementMode := ACROSTIC;
     dictionary := Some dictCatHat; turnCount := 3;
     playerScore := 11; cpuScore := 0; isCpuTurn := false |}.

(** a chain entry with the given kind, turn, word and word score *)
Definition entry (o : Operator) (t : Z) (w : string) (sc : Z) : CompiledOp :=
  {| op := o; turn := t; lastModifiedTurn := t; word := w; opId := "";
     wordScore := sc; cellIds := []; clusterId := 1 |}.

(** IF CAT, THEN 5, PLUS 10, MULT 2: the cascade of the specification *)
Definition chainThirty : CompiledChain :=
  {| chainId := 1;
     compiledOps := [entry IF 1 "CAT" 5; entry THEN 2 "DOG" 5;
                     entry PLUS 3 "QUIZ" 10; entry MULT 4 "AT" 2];
     dataWords := [] |}.

Definition freshWord (w : string) (t : Z) : WordMetadata :=
  {| w_word := w; w_score := 0; w_turn := t; w_cellIds := []; w_clusterId := 1 |}.

(** the operator entries of the chain-ordering example, as scanned *)
Definition entriesOrdering : list CompiledOp :=
  [ entry IF 1 "ICE" 5; entry OR 3 "ORE" 3; entry OR 2 "OAT" 3;
    entry THEN 4 "TEN" 3; entry AND 6 "ANT" 3; entry PLUS 5 "PIE" 5;
    entry MULT 7 "MUD" 6 ].

Definition dictTwoWords : gset string := {[ "AT"; "CAT"; "ON" ]}.

(** AT is locked on row 5.  In one turn the player puts C in front of it
    and, far away in the corner, the separate word ON. *)
Definition boardTwoWords : Grid :=
  putTile 0 0 "O" false None (putTile 0 1 "N" false None
  (putTile 5 4 "C" false None
  (putTile 5 5 "A" true (Some 1) (putTile 5 6 "T" true (Some 1) generateBoard)))).

(** the same turn without the far word *)
Definition boardOneWord : Grid :=
  putTile 5 4 "C" false None
  (putTile 5 5 "A" true (Some 1) (putTile 5 6 "T" true (Some 1) generateBoard)).

Definition sessionNoDictionary : Session :=
  {| grid := boardOneWord; playerHand := ["E"; "E"]%char; cpuHand := [];
     tileBag := ["Q"]%char; turnMoves := [(5, 4, "C"%char)];
     gameMode := DYNAMIC; placementMode := ACROSTIC; dictionary := None;
     turnCount := 2; playerScore := 2; cpuScore := 0; isCpuTurn := false |}.

(** CAT on row 4 whose A is a resolved blank tile *)
Definition boardBlankA : Grid :=
  updCell (putTile 4 3 "C" false None (putTile 4 4 "A" false None
            (putTile 4 5 "T" false None generateBoard)))
    4 4 (λ cell, {| cellId := cellId cell; row := row cell; col := col cell;
                    operator := operator cell; letter := letter cell;
                    isLocked := isLocked cell; isBlank := true;
                    turnPlaced := turnPlaced cell |}).

(** the replay board once the second CAT is locked at turn 3 *)
Definition boardReplayLocked : Grid :=
  putTile 5 3 "A" true (Some 3) (putTile 6 3 "T" true (Some 3) boardCatHat).

(** a store holding the cells of a board, row by row, and two hands *)
Definition storeOf (g : Grid) (cpuTiles playerTiles : list ascii) : Search.Store :=
  {| Search.cellObjs := list_to_map (zip (seq 0 121) (concat g));
     Search.handObjs := list_to_map [(0%nat, cpuTiles); (1%nat, playerTiles)];
     Search.nextCell := 121; Search.nextHand := 2 |}.

Definition gridRefs : list (list nat) := (λ r, seq (11 * r) 11) <$> seq 0 11.

(** the search's view of the CAT/HAT board at turn 3, with a hand that
    holds A, T and a wildcard *)
Definition searchState : Search.StateRef :=
  {| Search.sr_grid := gridRefs; Search.sr_gameMode := DYNAMIC;
     Search.sr_dictionary := Some dictCatHat;
     Search.sr_placementMode := ACROSTIC;
     Search.sr_cpuHand := 0; Search.sr_playerHand := 1;
     Search.sr_turnCount := 3 |}.

Definition searchStore : Search.Store :=
  storeOf boardCatHat ["A"; "T"; "*"; "E"]%char ["Q"]%char.

(** a tile played from a wildcard, showing [l] *)
Definition putBlank (r c : Z) (l : ascii) (g : Grid) : Grid :=
  updCell g r c (λ cell,
    {| cellId := cellId cell; row := row cell; col := col cell;
       operator := operator cell; letter := Some l; isLocked := false;
       isBlank := true; turnPlaced := None |}).

(** an unresolved wildcard in front of the locked AT *)
Definition boardWildcard : Grid :=
  putBlank 5 4 "*" (putTile 5 5 "A" true (Some 1)
                     (putTile 5 6 "T" true (Some 1) generateBoard)).

(** an unresolved wildcard behind CAT on the CAT/HAT board *)
Definition boardStuck : Grid := putBlank 4 6 "*" boardCatHat.

(** the opening move AT across the centre cell, not yet committed *)
Definition sessionOpening : Session :=
  {| grid := putTile 5 5 "A" false None (putTile 5 6 "T" false None generateBoard);
     playerHand := ["E"; "E"; "R"; "S"; "O"]%char;
     cpuHand := ["A"; "T"; "*"; "E"]%char; tileBag := ["Q"; "Z"; "X"]%char;
     turnMoves := [(5, 5, "A"%char); (5, 6, "T"%char)];
     gameMode := DYNAMIC; placementMode := GO;
     dictionary := Some dictTwoWords; turnCount := 1;
     playerScore := 0; cpuScore := 0; isCpuTurn := false |}.

(** the same view when no dictionary is loaded *)
Definition searchStateNoDictionary : Search.StateRef :=
  {| Search.sr_grid := gridRefs; Search.sr_gameMode := DYNAMIC;
     Search.sr_dictionary := None; Search.sr_placementMode := ACROSTIC;
     Search.sr_cpuHand := 0; Search.sr_playerHand := 1;
     Search.sr_turnCount := 3 |}.

(** the session behind [searchState] and [searchStore] *)
Definition sessionSearch : Session :=
  {| grid := boardCatHat; playerHand := ["Q"]%char;
     cpuHand := ["A"; "T"; "*"; "E"]%char; tileBag := ["Z"; "X"]%char;
     turnMoves := []; gameMode := DYNAMIC; placementMode := ACROSTIC;
     dictionary := Some dictCatHat; turnCount := 3;
     playerScore := 11; cpuScore := 4; isCpuTurn := true |}.

End Examples.

(** * Properties of the tile system *)

Module TileSystemFacts.
Import TileSystem Spec.

Lemma pushCopies_app count tile bag :
  pushCopies count tile bag = bag ++ replicate count tile.
Proof.
  revert bag. induction count as [|n IH]; intros bag; simpl.
  - by rewrite app_nil_r.
  - by rewrite IH, <- app_assoc.
Qed.

Lemma swap_length bag i j : length (swap bag i j) = length bag.
Proof.
  unfold swap. destruct (bag !! i), (bag !! j); try done.
  by rewrite !length_insert.
Qed.

Lemma insert_head_Permutation (l : list ascii) j x b :
  l !! j = Some b → x :: l ≡ₚ b :: <[j:=x]> l.
Proof.
  revert j. induction l as [|y l IH]; intros [|j] Hj; simplify_eq/=.
  - apply Permutation_swap.
  - rewrite Permutation_swap, (IH j Hj). apply Permutation_swap.
Qed.

Lemma swap_Permutation bag i j : swap bag i j ≡ₚ bag.
Proof.
  revert i j. induction bag as [|x l IH]; intros i j.
  - unfold swap. by destruct i.
  - unfold swap. destruct i as [|i], j as [|j]; simpl.
    + done.
    + destruct (l !! j) as [b|] eqn:Hj; [|done].
      symmetry. by apply insert_head_Permutation.
    + destruct (l !! i) as [a|] eqn:Hi; [|done].
      symmetry. by apply insert_head_Permutation.
    + specialize (IH i j). unfold swap in IH.
      destruct (l !! i), (l !! j); try done. by rewrite IH.
Qed.

Lemma fisherYates_Permutation rnd i bag : fisherYates rnd i bag ≡ₚ bag.
Proof.
  revert bag. induction i as [|i IH]; intros bag; simpl; [done|].
  by rewrite IH, swap_Permutation.
Qed.

Lemma fold_pushCopies table acc :
  fold_left (λ bag '(tile, count), pushCopies count tile bag) table acc
  = acc ++ expandTable table.
Proof.
  revert acc. induction table as [|[tile count] table IH]; intros acc; simpl.
  - by rewrite app_nil_r.
  - by rewrite IH, pushCopies_app, <- app_assoc.
Qed.

Lemma unshuffledBag_expand : unshuffledBag = expandTable LETTER_DISTRIBUTION.
Proof. unfold unshuffledBag. by rewrite fold_pushCopies. Qed.

Lemma expandTable_length table : length (expandTable table) = tableTotal table.
Proof.
  induction table as [|[tile count] table IH]; simpl; [done|].
  by rewrite length_app, length_replicate, IH.
Qed.

Lemma generateTileBag_Permutation rnd :
  generateTileBag rnd ≡ₚ expandTable LETTER_DISTRIBUTION.
Proof.
  unfold generateTileBag. by rewrite fisherYates_Permutation, unshuffledBag_expand.
Qed.

Lemma generateTileBag_length rnd : length (generateTileBag rnd) = 100%nat.
Proof. by rewrite (Permutation_length (generateTileBag_Permutation rnd)). Qed.

(** C6, as stated, fails: whatever the shuffle draws, the bag never holds
    101 tiles, because the distribution table sums to 100. *)
Lemma generateTileBag_not_101 :
  ¬ (generateTileBag (λ _, 0%nat) ≡ₚ expandTable LETTER_DISTRIBUTION
     ∧ length (generateTileBag (λ _, 0%nat)) = 101%nat).
Proof. intros [_ H]. by rewrite generateTileBag_length in H. Qed.

(** C6 (amended): [generateTileBag] returns a permutation of the expanded
    distribution table; every letter occurs exactly as often as the table
    says, the number of tiles is the sum of the table, and that sum is 100
    in the reference configuration. *)
Theorem generateTileBag_multiset (rnd : nat → nat) :
  generateTileBag rnd ≡ₚ expandTable LETTER_DISTRIBUTION
  ∧ (∀ tile count, (tile, count) ∈ LETTER_DISTRIBUTION →
       length (filter (λ t, t = tile) (generateTileBag rnd)) = count)
  ∧ length (generateTileBag rnd) = tableTotal LETTER_DISTRIBUTION
  ∧ tableTotal LETTER_DISTRIBUTION = 100%nat.
Proof.
  pose proof (generateTileBag_Permutation rnd) as HP.
  split_and!; [done| |by rewrite HP, expandTable_length|done].
  intros tile count Hin. rewrite HP.
  assert (Forall (λ '(t, n), length (filter (λ t', t' = t)
            (expandTable LETTER_DISTRIBUTION)) = n) LETTER_DISTRIBUTION) as HF.
  { repeat constructor. }
  rewrite Forall_forall in HF. by apply (HF (tile, count)).
Qed.

(** The amended C6 for the shuffle that always draws index 0: 12 tiles E. *)
Lemma generateTileBag_multiset_witness :
  length (filter (λ t, t = "E"%char) (generateTileBag (λ _, 0%nat))) = 12%nat.
Proof.
  destruct (generateTileBag_multiset (λ _, 0%nat)) as (_ & H & _).
  apply H. apply list_elem_of_In. simpl. tauto.
Defined.




End TileSystemFacts.

(** * Properties of the cascade evaluator and of trigger replay *)

Module CascadeFacts.
Import Board TileSystem Validation Scoring Logic Commit Spec Examples.

Lemma cascade_fold actions outcome established :
  cascade actions outcome established
  = fold_left foldStep actions (outcome, established).
Proof.
  revert outcome established.
  induction actions as [|a rest IH]; intros outcome established; [done|].
  cbn [cascade fold_left]. unfold foldStep at 2.
  destruct (op a), established; simpl; rewrite ?IH; try done.
  repeat case_bool_decide; case_decide; try done; by rewrite IH.
Qed.

Lemma cascade_established actions outcome :
  (cascade actions outcome true).2 = true.
Proof.
  revert outcome. induction actions as [|a rest IH]; intros outcome; [done|].
  cbn [cascade]. case_bool_decide; [done|].
  destruct (op a); try done. by case_bool_decide.
Qed.

Lemma cascade_no_THEN actions outcome :
  Forall (λ a, op a ≠ THEN) actions →
  cascade actions outcome false = (outcome, false).
Proof.
  induction 1 as [|a rest Ha _ IH]; [done|].
  cbn [cascade]. by rewrite bool_decide_eq_false_2.
Qed.

Lemma cascade_unestablished actions outcome :
  (cascade actions outcome false).2 = false →
  (cascade actions outcome false).1 = outcome.
Proof.
  induction actions as [|a rest IH]; [done|].
  cbn [cascade]. case_bool_decide; [|done].
  by rewrite cascade_established.
Qed.

Lemma fire_score ops outcome w st trig :
  (fire ops outcome w st trig).1
  = st.1 + (if bool_decide (w_word w = word trig) then outcome else 0).
Proof. unfold fire. case_bool_decide; simpl; lia. Qed.

Lemma fold_fire_score ops outcome w triggers st :
  (fold_left (fire ops outcome w) triggers st).1
  = st.1 + outcome *
      Z.of_nat (length (List.filter (λ p : WordMetadata * CompiledOp,
                                       bool_decide (w_word p.1 = word p.2))
                          (trig ← triggers; [(w, trig)]))).
Proof.
  revert st. induction triggers as [|trig rest IH]; intros st; [simpl; lia|].
  cbn [fold_left]. rewrite IH, fire_score.
  change ((trig :: rest) ≫= ?f) with (f trig ++ (rest ≫= f)).
  rewrite List.filter_app, length_app. cbn [List.filter fst snd].
  case_bool_decide; cbn [length]; lia.
Qed.

Lemma fold_words_score ops outcome triggers (ws : list WordMetadata) st :
  (fold_left (λ st w, fold_left (fire ops outcome w) triggers st) ws st).1
  = st.1 + outcome *
      Z.of_nat (length (List.filter (λ p : WordMetadata * CompiledOp,
                                       bool_decide (w_word p.1 = word p.2))
                          (w ← ws; trig ← triggers; [(w, trig)]))).
Proof.
  revert st. induction ws as [|w rest IH]; intros st; [simpl; lia|].
  cbn [fold_left]. rewrite IH, fold_fire_score.
  change ((w :: rest) ≫= ?f) with (f w ++ (rest ≫= f)).
  rewrite List.filter_app, length_app. lia.
Qed.

(** What one chain adds to the total: its cascade outcome, once per replay. *)
Lemma chainStep_score allWords currentTurn st chain :
  (chainStep allWords currentTurn st chain).1
  = st.1 + (cascade (actionsOf chain) 0 false).1
           * Z.of_nat (replays chain allWords currentTurn).
Proof.
  unfold chainStep, replays.
  destruct (bool_decide (length (triggersOf chain) = 0%nat)) eqn:Ht; simpl.
  { apply bool_decide_eq_true in Ht. apply nil_length_inv in Ht. rewrite Ht.
    assert ((w ← newlyFormedWords chain allWords currentTurn;
             trig ← @nil CompiledOp; [(w, trig)]) = []) as ->.
    { induction (newlyFormedWords _ _ _); [done|]. done. }
    simpl. lia. }
  destruct (bool_decide (length (actionsOf chain) = 0%nat)) eqn:Ha; simpl.
  { apply bool_decide_eq_true in Ha. apply nil_length_inv in Ha. rewrite Ha.
    simpl. lia. }
  destruct (cascade (actionsOf chain) 0 false) as [outcome est] eqn:Hc.
  destruct est; simpl.
  - by rewrite fold_words_score.
  - pose proof (cascade_unestablished (actionsOf chain) 0) as H0.
    rewrite Hc in H0. simpl in H0. rewrite H0 by done. lia.
Qed.

Lemma calculateChainScore_sum chains allWords currentTurn st :
  (fold_left (chainStep allWords currentTurn) chains st).1
  = st.1 + foldr (λ chain acc,
                    (cascade (actionsOf chain) 0 false).1
                    * Z.of_nat (replays chain allWords currentTurn) + acc)
                 0 chains.
Proof.
  revert st. induction chains as [|chain rest IH]; intros st; simpl; [lia|].
  rewrite IH, chainStep_score. lia.
Qed.

(** C1: for a chain with at least one Trigger and one Action, the cascade
    outcome [calculateChainScore] computes is the fold of its Actions from
    (0, not established): THEN sets the outcome to its word score and
    establishes it; once established PLUS and AND add, MINUS subtracts, MULT
    multiplies and OVER divides with floor, or does nothing when the word
    score is 0.  That outcome is what the chain pays per replay; a chain
    without THEN has outcome 0 and pays nothing.  THEN 5, PLUS 10, MULT 2
    give 30, and an OVER of score 0 after them leaves 30. *)
Theorem cascade_outcome_is_fold (chain : CompiledChain) :
  triggersOf chain ≠ [] → actionsOf chain ≠ [] →
  cascade (actionsOf chain) 0 false = specOutcome chain
  ∧ (∀ allWords currentTurn,
       score (calculateChainScore [chain] allWords currentTurn)
       = (specOutcome chain).1 * Z.of_nat (replays chain allWords currentTurn))
  ∧ (Forall (λ a, op a ≠ THEN) (compiledOps chain) →
       specOutcome chain = (0, false)
       ∧ ∀ allWords currentTurn,
           score (calculateChainScore [chain] allWords currentTurn) = 0)
  ∧ (∀ t p m o,
       op t = THEN → wordScore t = 5 → op p = PLUS → wordScore p = 10 →
       op m = MULT → wordScore m = 2 → op o = OVER → wordScore o = 0 →
       cascade [t; p; m] 0 false = (30, true)
       ∧ cascade [t; p; m; o] 0 false = (30, true)).
Proof.
  intros _ _.
  assert (∀ allWords currentTurn,
            score (calculateChainScore [chain] allWords currentTurn)
            = (specOutcome chain).1 * Z.of_nat (replays chain allWords currentTurn))
    as Hpay.
  { intros allWords currentTurn. unfold calculateChainScore, specOutcome.
    cbn [score]. rewrite calculateChainScore_sum, <- cascade_fold. simpl. lia. }
  split_and!.
  - apply cascade_fold.
  - done.
  - intros Hno.
    assert (specOutcome chain = (0, false)) as H0.
    { unfold specOutcome. rewrite <- cascade_fold. apply cascade_no_THEN.
      unfold actionsOf. rewrite Forall_forall in Hno |- *.
      intros a Ha. apply Hno. apply list_elem_of_In in Ha.
      apply filter_In in Ha. apply list_elem_of_In. tauto. }
    split; [done|]. intros allWords currentTurn. rewrite Hpay, H0. simpl. lia.
  - intros t p m o Ht Hts Hp Hps Hm Hms Ho Hos.
    cbn [cascade]. rewrite Ht, Hp, Hm, Ho, Hts, Hps, Hms, Hos. done.
Qed.

(** C1 at the chain IF CAT, THEN 5, PLUS 10, MULT 2. *)
Lemma cascade_outcome_is_fold_witness :
  cascade (actionsOf chainThirty) 0 false = (30, true).
Proof.
  destruct (cascade_outcome_is_fold chainThirty) as [H _].
  - by vm_compute.
  - by vm_compute.
  - rewrite H. reflexivity.
Defined.



(** On a real board: CAT crosses the IF cell, HAT the THEN cell, so the
    chain of cluster 1 is [IF CAT; THEN HAT] with outcome 6.  Committing a
    second CAT at turn 3 scores its 5 base points plus the outcome. *)
Example replay_on_board :
  validatePlacementRules boardReplay DYNAMIC ACROSTIC (Some dictCatHat) = true
  ∧ map (λ c, map (λ x, (op x, word x)) (compiledOps c))
        (analyzeBoardLogic boardCatHat (Some dictCatHat) ACROSTIC).1
    = [[(IF, "CAT"); (THEN, "HAT")]]
  ∧ playerScore (commitPlayerTurn sessionReplay) = 11 + 5 + 6
  ∧ turnCount (commitPlayerTurn sessionReplay) = 4
  ∧ playerHand (commitPlayerTurn sessionReplay) = ["E"; "E"; "R"; "S"; "O"; "Q"; "Z"]%char.
Proof. by vm_compute. Qed.

End CascadeFacts.

(** * Properties of chain assembly *)

Module AssemblyFacts.
Import Board TileSystem Logic Spec Examples.

Lemma insertByTurn_Permutation x l : insertByTurn x l ≡ₚ x :: l.
Proof.
  induction l as [|y l IH]; simpl; [done|].
  case_bool_decide; [done|]. by rewrite IH, Permutation_swap.
Qed.

Lemma sortByTurn_Permutation l : sortByTurn l ≡ₚ l.
Proof.
  induction l as [|x l IH]; simpl; [done|].
  by rewrite insertByTurn_Permutation, IH.
Qed.

Lemma insertByTurn_sorted x l :
  StronglySorted turnLe l → StronglySorted turnLe (insertByTurn x l).
Proof.
  induction 1 as [|y l Hs IH Hy]; simpl.
  - repeat constructor.
  - case_bool_decide as Hxy.
    + constructor; [by constructor|]. constructor; [done|].
      eapply Forall_impl; [exact Hy|]. unfold turnLe. intros; lia.
    + constructor; [done|]. rewrite insertByTurn_Permutation.
      constructor; [unfold turnLe; lia|done].
Qed.

Lemma sortByTurn_sorted l : StronglySorted turnLe (sortByTurn l).
Proof.
  induction l as [|x l IH]; simpl; [constructor|]. by apply insertByTurn_sorted.
Qed.

(** The sort is stable: entries of one turn keep their order. *)
Lemma insertByTurn_stable t x l :
  List.filter (λ y, bool_decide (turn y = t)) (insertByTurn x l)
  = List.filter (λ y, bool_decide (turn y = t)) (x :: l).
Proof.
  induction l as [|y l IH]; [done|].
  cbn [insertByTurn]. case_bool_decide as Hxy; [done|].
  cbn [List.filter] in IH |- *. rewrite IH.
  repeat case_bool_decide; try done; lia.
Qed.

Lemma sortByTurn_stable t l :
  List.filter (λ y, bool_decide (turn y = t)) (sortByTurn l)
  = List.filter (λ y, bool_decide (turn y = t)) l.
Proof.
  induction l as [|x l IH]; [done|].
  cbn [sortByTurn foldr]. rewrite insertByTurn_stable.
  cbn [List.filter]. fold (sortByTurn l). by rewrite IH.
Qed.

(** Sorting an already sorted list changes nothing, which is why the second
    [sort] of each bucket in the source is harmless. *)
Lemma sortByTurn_id l : StronglySorted turnLe l → sortByTurn l = l.
Proof.
  induction 1 as [|y l Hs IH Hy]; [done|].
  cbn [sortByTurn foldr]. fold (sortByTurn l). rewrite IH.
  destruct l as [|z l]; [done|]. simpl.
  apply Forall_cons in Hy as [Hyz _]. by rewrite bool_decide_eq_true_2.
Qed.

Lemma filter_sorted (p : CompiledOp → bool) l :
  StronglySorted turnLe l → StronglySorted turnLe (List.filter p l).
Proof.
  induction 1 as [|y l Hs IH Hy]; simpl; [constructor|].
  destruct (p y); [|done]. constructor; [done|].
  rewrite Forall_forall in Hy |- *. intros z Hz. apply Hy.
  apply list_elem_of_In in Hz. apply filter_In in Hz.
  apply list_elem_of_In. tauto.
Qed.

Lemma findOp_head p l : findOp p l = head (List.filter p l).
Proof.
  unfold findOp. induction l as [|x l IH]; simpl; [done|]. by destruct (p x).
Qed.

Lemma modifiers_filter x :
  bool_decide (op x ∈ [MINUS; MULT; OVER])
  = opIs MINUS x || opIs MULT x || opIs OVER x.
Proof.
  unfold opIs. destruct (op x); by vm_compute.
Qed.

Lemma assembleChain_spec entries : assembleChain entries = specChain entries.
Proof.
  unfold assembleChain, specChain, earliest.
  pose proof (sortByTurn_sorted entries) as Hs.
  rewrite !findOp_head.
  rewrite !(sortByTurn_id (List.filter _ _)) by by apply filter_sorted.
  rewrite (List.filter_ext _ _ modifiers_filter).
  destruct (head (List.filter (opIs IF) _)), (head (List.filter (opIs THEN) _));
    simpl; by rewrite <- ?app_assoc.
Qed.

(** C2: the chain compiled for a cluster is, read off that cluster's operator
    entries sorted ascending by turn (a stable rearrangement of them): the
    earliest IF if any, every OR, the earliest THEN if any, the AND and PLUS
    entries together, the MINUS, MULT and OVER entries together, each bucket
    ascending by turn.  IF@1, OR@3, OR@2, THEN@4, AND@6, PLUS@5, MULT@7
    compile to IF, OR@2, OR@3, THEN, PLUS@5, AND@6, MULT@7. *)
Theorem chain_assembly_order (entries : list CompiledOp) :
  let byTurn := sortByTurn entries in
  (byTurn ≡ₚ entries
   ∧ StronglySorted turnLe byTurn
   ∧ ∀ t, List.filter (λ y, bool_decide (turn y = t)) byTurn
          = List.filter (λ y, bool_decide (turn y = t)) entries)
  ∧ assembleChain entries = specChain entries
  ∧ (∀ p, StronglySorted turnLe (List.filter p byTurn))
  ∧ (∀ o x y, earliest (opIs o) byTurn = [x] → y ∈ entries → op y = o →
              op x = o ∧ turn x ≤ turn y)
  ∧ (∀ grid dictionary placementMode chain,
       chain ∈ (analyzeBoardLogic grid dictionary placementMode).1 →
       compiledOps chain
       = specChain (List.filter (λ x, bool_decide (clusterId x = chainId chain))
           (rawOps (scanBoard grid dictionary
              (getClusterId placementMode
                 (identifyClusters grid placementMode).1)))))
  ∧ map (λ x, (op x, turn x)) (assembleChain entriesOrdering)
    = [(IF, 1); (OR, 2); (OR, 3); (THEN, 4); (PLUS, 5); (AND, 6); (MULT, 7)].
Proof.
  intros byTurn. split_and!.
  - apply sortByTurn_Permutation.
  - apply sortByTurn_sorted.
  - intros t. apply sortByTurn_stable.
  - apply assembleChain_spec.
  - intros p. apply filter_sorted, sortByTurn_sorted.
  - intros o x y Hx Hy Ho. unfold earliest in Hx.
    destruct (List.filter (opIs o) byTurn) as [|x' rest] eqn:Hf; [done|].
    simpl in Hx. injection Hx as ->.
    assert (In x (List.filter (opIs o) byTurn)) as Hin by (rewrite Hf; by left).
    apply filter_In in Hin as [_ Hox]. unfold opIs in Hox.
    apply bool_decide_eq_true in Hox. split; [done|].
    assert (y ∈ List.filter (opIs o) byTurn) as Hyin.
    { apply list_elem_of_In, filter_In. split.
      - apply list_elem_of_In. unfold byTurn. by rewrite sortByTurn_Permutation.
      - unfold opIs. by apply bool_decide_eq_true. }
    pose proof (filter_sorted (opIs o) byTurn (sortByTurn_sorted entries)) as Hs.
    rewrite Hf in Hs, Hyin. apply StronglySorted_inv in Hs as [_ Hall].
    apply elem_of_cons in Hyin as [->|Hyin]; [lia|].
    rewrite Forall_forall in Hall. by apply Hall.
  - intros grid dictionary placementMode chain Hin.
    unfold analyzeBoardLogic in Hin.
    destruct (identifyClusters grid placementMode) as [cellToCluster next].
    cbn [fst] in Hin |- *. apply list_elem_of_bind in Hin as (i & Hin & _).
    unfold compileCluster in Hin. case_match; [by apply elem_of_nil in Hin|].
    apply list_elem_of_singleton in Hin as ->. cbn [compiledOps chainId].
    apply assembleChain_spec.
  - by vm_compute.
Qed.

(** C2 at the entries of the chain-ordering example: the earliest OR. *)
Lemma chain_assembly_order_witness :
  op (entry OR 2 "OAT" 3) = OR ∧ turn (entry OR 2 "OAT" 3) ≤ turn (entry OR 3 "ORE" 3).
Proof.
  destruct (chain_assembly_order entriesOrdering) as (_ & _ & _ & H & _).
  apply (H OR).
  - by vm_compute.
  - apply list_elem_of_In. simpl. tauto.
  - reflexivity.
Defined.

End AssemblyFacts.

(** * Properties of placement validation *)

Module ValidationFacts.
Import Board TileSystem Validation Scoring Logic Commit Spec Examples.

Lemma indices_spec k : k ∈ indices ↔ 0 ≤ k < BOARD_SIZE.
Proof. unfold indices. rewrite elem_of_seqZ. lia. Qed.

Lemma coords_spec r c : (r, c) ∈ coords ↔ inBoard r c = true.
Proof.
  unfold coords, inBoard. rewrite list_elem_of_bind.
  rewrite !andb_true_iff, !bool_decide_eq_true. split.
  - intros (r' & Hin & Hr). apply list_elem_of_bind in Hin as (c' & Hin & Hc).
    apply list_elem_of_singleton in Hin. simplify_eq.
    apply indices_spec in Hr, Hc. lia.
  - intros [[[? ?] ?] ?]. exists r. split; [|apply indices_spec; lia].
    apply list_elem_of_bind. exists c.
    split; [apply list_elem_of_singleton; done|apply indices_spec; lia].
Qed.

Lemma newTiles_spec grid r c : In (r, c) (newTiles grid) ↔ isNewTile grid r c = true.
Proof.
  unfold newTiles, isNewTile. rewrite filter_In, andb_true_iff.
  by rewrite <- list_elem_of_In, coords_spec.
Qed.

Lemma touchesLocked_spec grid r c :
  touchesLocked grid (r, c) = hasLockedNeighbour grid r c.
Proof.
  apply eq_true_iff_eq. unfold touchesLocked, hasLockedNeighbour.
  rewrite !existsb_exists. split.
  - intros ([nr nc] & Hin & Hn). exists (nr, nc).
    apply andb_true_iff in Hn as [Hb Hl].
    split; [by apply list_elem_of_In, coords_spec|].
    unfold isLockedLetter, orthogonal. cbn [fst snd] in *.
    rewrite Hb, Hl. rewrite andb_true_r.
    apply bool_decide_eq_true. simpl in Hin.
    destruct Hin as [?|[?|[?|[?|[]]]]]; simplify_eq; lia.
  - intros ([nr nc] & Hin & Hn). exists (nr, nc).
    apply andb_true_iff in Hn as [Ho Hl]. unfold isLockedLetter in Hl.
    cbn [fst snd] in *. split; [|done].
    unfold orthogonal in Ho. apply bool_decide_eq_true in Ho.
    cbn [fst snd] in Ho. unfold neighbors. cbn [fst snd In].
    assert ((nr = r - 1 ∧ nc = c) ∨ (nr = r + 1 ∧ nc = c)
            ∨ (nr = r ∧ nc = c - 1) ∨ (nr = r ∧ nc = c + 1)) as Hc by lia.
    destruct Hc as [[-> ->]|[[-> ->]|[[-> ->]|[-> ->]]]]; tauto.
Qed.

(** What the Acrostic check decides: with locked letters on the board and
    at least one new tile, some new tile touches a locked letter. *)
Lemma connectivityOk_spec grid :
  hasLockedTiles grid = true →
  (∃ r c, isNewTile grid r c = true) →
  connectivityOk grid ACROSTIC = true
  ↔ ∃ r c, isNewTile grid r c = true ∧ hasLockedNeighbour grid r c = true.
Proof.
  intros Hlocked (r0 & c0 & Hnew). unfold connectivityOk.
  rewrite decide_True by done. rewrite Hlocked.
  apply newTiles_spec in Hnew.
  rewrite bool_decide_eq_true_2
    by (destruct (newTiles grid); [done|simpl; lia]).
  rewrite existsb_exists. split.
  - intros ([r c] & Hin & Ht). exists r, c.
    by rewrite <- newTiles_spec, <- touchesLocked_spec.
  - intros (r & c & Hin & Ht). exists (r, c).
    by rewrite newTiles_spec, touchesLocked_spec.
Qed.

(** C4, as stated, fails: with AT locked and C put in front of it, the
    separate new word ON in the corner is accepted although neither of its
    cells touches a locked letter, directly or through its word. *)
Lemma connectivity_not_per_tile :
  wfGrid boardTwoWords
  ∧ hasLockedTiles boardTwoWords = true
  ∧ validatePlacementRules boardTwoWords DYNAMIC ACROSTIC (Some dictTwoWords) = true
  ∧ isNewTile boardTwoWords 0 0 = true
  ∧ connectedToLocked boardTwoWords 0 0 = false.
Proof.
  split_and!; try by vm_compute.
  split; [done|]. repeat constructor.
Qed.

(** C4 (amended): in ACROSTIC mode, once the board holds locked letters,
    [validatePlacementRules] accepts a grid with newly placed tiles only if
    at least one of them has a locked lettered orthogonal neighbour; a grid
    none of whose new tiles touches a locked letter is rejected. *)
Theorem acrostic_connectivity (grid : Grid) (gameMode : GameMode)
    (dict : gset string) :
  wfGrid grid →
  hasLockedTiles grid = true →
  (∃ r c, isNewTile grid r c = true) →
  (validatePlacementRules grid gameMode ACROSTIC (Some dict) = true →
     ∃ r c, isNewTile grid r c = true ∧ hasLockedNeighbour grid r c = true)
  ∧ ((∀ r c, isNewTile grid r c = true → hasLockedNeighbour grid r c = false) →
     validatePlacementRules grid gameMode ACROSTIC (Some dict) = false).
Proof.
  intros _ Hlocked Hnew.
  pose proof (connectivityOk_spec grid Hlocked Hnew) as Hspec.
  assert (validatePlacementRules grid gameMode ACROSTIC (Some dict) = true →
          connectivityOk grid ACROSTIC = true) as Hval.
  { unfold validatePlacementRules. rewrite !andb_true_iff. tauto. }
  split.
  - intros Hv. by apply Hspec, Hval.
  - intros Hnone.
    destruct (validatePlacementRules grid gameMode ACROSTIC (Some dict)) eqn:Hv;
      [|done].
    destruct Hspec as [Hs _]. destruct (Hs (Hval eq_refl)) as (r & c & Hn & Ht).
    rewrite (Hnone r c Hn) in Ht. done.
Qed.

(** The amended C4 on the board with both new words: the C touches the
    locked A. *)
Lemma acrostic_connectivity_witness :
  ∃ r c, isNewTile boardTwoWords r c = true
         ∧ hasLockedNeighbour boardTwoWords r c = true.
Proof.
  destruct (acrostic_connectivity boardTwoWords DYNAMIC dictTwoWords) as [H _].
  - split; [done|]. repeat constructor.
  - by vm_compute.
  - exists 0, 0. by vm_compute.
  - apply H. by vm_compute.
Defined.

(** C7: without a dictionary [validatePlacementRules] returns false for
    every board and mode, [resolveGridWithBlanks] returns no resolution, and
    [commitPlayerTurn] leaves the session as it is. *)
Theorem no_dictionary_fails_closed (grid : Grid) (gameMode : GameMode)
    (placementMode : PlacementMode) :
  validatePlacementRules grid gameMode placementMode None = false
  ∧ resolveGridWithBlanks grid gameMode placementMode None = None
  ∧ (∀ s : Session, dictionary s = None → commitPlayerTurn s = s).
Proof.
  split_and!; [done..|].
  intros s Hd. unfold commitPlayerTurn. case_bool_decide; [done|].
  by rewrite Hd.
Qed.

(** C7 on a session whose dictionary has not been loaded. *)
Lemma no_dictionary_fails_closed_witness :
  commitPlayerTurn sessionNoDictionary = sessionNoDictionary.
Proof.
  destruct (no_dictionary_fails_closed boardOneWord DYNAMIC ACROSTIC)
    as (_ & _ & H).
  by apply H.
Defined.

End ValidationFacts.

(** * Properties of base scoring *)

Module ScoringFacts.
Import Board TileSystem Validation Scoring Spec Examples.

Lemma cellAt_updCell_eq g r c f :
  cellAt (updCell g r c f) r c = f <$> cellAt g r c.
Proof.
  unfold cellAt, updCell.
  destruct (bool_decide (0 ≤ r) && bool_decide (0 ≤ c)); [|done].
  cbv iota. rewrite list_lookup_alter_eq. destruct (g !! Z.to_nat r) as [cells|]; [|done].
  simpl. by rewrite list_lookup_alter_eq.
Qed.

Lemma cellAt_updCell_ne g r c f x y :
  (x, y) ≠ (r, c) → cellAt (updCell g r c f) x y = cellAt g x y.
Proof.
  intros Hne. unfold cellAt, updCell.
  destruct (bool_decide (0 ≤ r) && bool_decide (0 ≤ c)) eqn:Hrc; [|done].
  destruct (bool_decide (0 ≤ x) && bool_decide (0 ≤ y)) eqn:Hxy; [|done].
  apply andb_true_iff in Hrc as [Hr Hc], Hxy as [Hx Hy].
  apply bool_decide_eq_true in Hr, Hc, Hx, Hy. cbv iota.
  destruct (decide (Z.to_nat r = Z.to_nat x)) as [Heq|Hneq].
  - rewrite Heq, list_lookup_alter_eq.
    destruct (g !! Z.to_nat x) as [cells|]; [|done]. simpl.
    rewrite list_lookup_alter_ne; [done|].
    intros Hcy. apply Hne. f_equal; lia.
  - by rewrite list_lookup_alter_ne.
Qed.

Lemma scoreAlike_lettered g g' r c :
  scoreAlike g g' → lettered g' r c = lettered g r c.
Proof.
  intros H. specialize (H r c). unfold lettered.
  destruct (cellAt g r c), (cellAt g' r c); try done. by destruct H.
Qed.

Lemma scoreAlike_walkBack g g' fuel r c dr dc :
  scoreAlike g g' → walkBack fuel g' r c dr dc = walkBack fuel g r c dr dc.
Proof.
  intros H. revert r c. induction fuel as [|fuel IH]; intros r c; [done|].
  simpl. rewrite (scoreAlike_lettered g g') by done. by rewrite IH.
Qed.

Lemma scoreAlike_collectRun g g' fuel r c dr dc :
  scoreAlike g g' →
  map getCellScore (collectRun fuel g' r c dr dc)
  = map getCellScore (collectRun fuel g r c dr dc).
Proof.
  intros H. revert r c. induction fuel as [|fuel IH]; intros r c; [done|].
  simpl. destruct (inBoard r c); [|done].
  pose proof (H r c) as Hrc.
  destruct (cellAt g r c) as [a|], (cellAt g' r c) as [b|]; try done.
  destruct Hrc as [Hl Hs]. rewrite <- Hl.
  destruct (hasLetter a); [|done]. simpl. by rewrite Hs, IH.
Qed.

Lemma sum_scores (cells : list CellData) acc :
  fold_left (λ sum cell, sum + getCellScore cell) cells acc
  = fold_left Z.add (map getCellScore cells) acc.
Proof.
  revert acc. induction cells as [|x cells IH]; intros acc; [done|]. simpl. apply IH.
Qed.

Lemma scoreAlike_scan g g' r c dr dc st :
  scoreAlike g g' → scan g' r c dr dc st = scan g r c dr dc st.
Proof.
  intros H. unfold scan. rewrite (scoreAlike_walkBack g g') by done.
  destruct (walkBack scanFuel g r c dr dc) as [startR startC].
  pose proof (scoreAlike_collectRun g g' scanFuel startR startC dr dc H) as Hm.
  rewrite !sum_scores, Hm.
  assert (length (collectRun scanFuel g' startR startC dr dc)
          = length (collectRun scanFuel g startR startC dr dc)) as ->; [|done].
  by rewrite <- (length_map getCellScore), Hm, length_map.
Qed.

Lemma scoreAlike_score g g' newTiles :
  scoreAlike g g' →
  calculateScrabbleScore g' newTiles = calculateScrabbleScore g newTiles.
Proof.
  intros H. unfold calculateScrabbleScore.
  generalize (∅ : gset string, 0).
  induction newTiles as [|[r c] rest IH]; intros st; cbn [fold_left]; [reflexivity|].
  rewrite (scoreAlike_lettered g g') by done.
  rewrite !(scoreAlike_scan g g') by done. apply IH.
Qed.

(** Both loops of [scan] stop on their own within [scanFuel] iterations:
    more fuel changes nothing. *)
Lemma walkBack_fuel g fuel1 fuel2 r c dr dc :
  unitDir dr dc →
  r * dr + c * dc ≤ Z.of_nat fuel1 → r * dr + c * dc ≤ Z.of_nat fuel2 →
  walkBack fuel1 g r c dr dc = walkBack fuel2 g r c dr dc.
Proof.
  intros Hd. revert fuel2 r c.
  induction fuel1 as [|fuel1 IH]; intros [|fuel2] r c H1 H2; simpl; try done.
  - rewrite (proj2 (andb_false_iff _ _)); [done|]. left.
    unfold inBoard. rewrite !andb_false_iff, !bool_decide_eq_false.
    destruct Hd as [[-> ->]|[-> ->]]; lia.
  - rewrite (proj2 (andb_false_iff _ _)); [done|]. left.
    unfold inBoard. rewrite !andb_false_iff, !bool_decide_eq_false.
    destruct Hd as [[-> ->]|[-> ->]]; lia.
  - destruct (inBoard (r - dr) (c - dc) && lettered g (r - dr) (c - dc)); [|done].
    apply IH; destruct Hd as [[-> ->]|[-> ->]]; lia.
Qed.

Lemma collectRun_fuel g fuel1 fuel2 r c dr dc :
  unitDir dr dc →
  BOARD_SIZE - (r * dr + c * dc) ≤ Z.of_nat fuel1 →
  BOARD_SIZE - (r * dr + c * dc) ≤ Z.of_nat fuel2 →
  collectRun fuel1 g r c dr dc = collectRun fuel2 g r c dr dc.
Proof.
  intros Hd. revert fuel2 r c.
  assert (∀ r c, BOARD_SIZE - (r * dr + c * dc) ≤ 0 → inBoard r c = false) as Hout.
  { intros r c H. unfold inBoard. rewrite !andb_false_iff, !bool_decide_eq_false.
    destruct Hd as [[-> ->]|[-> ->]]; lia. }
  induction fuel1 as [|fuel1 IH]; intros [|fuel2] r c H1 H2; simpl; try done.
  - by rewrite Hout by lia.
  - by rewrite Hout by lia.
  - destruct (inBoard r c); [|done]. destruct (cellAt g r c) as [cell|]; [|done].
    destruct (hasLetter cell); [|done]. f_equal.
    apply IH; destruct Hd as [[-> ->]|[-> ->]]; lia.
Qed.

Lemma scan_fuel g r c dr dc k :
  unitDir dr dc → inBoard r c = true →
  walkBack (scanFuel + k) g r c dr dc = walkBack scanFuel g r c dr dc
  ∧ ∀ r' c', 0 ≤ r' → 0 ≤ c' →
      collectRun (scanFuel + k) g r' c' dr dc = collectRun scanFuel g r' c' dr dc.
Proof.
  intros Hd Hin. unfold inBoard in Hin.
  rewrite !andb_true_iff, !bool_decide_eq_true in Hin.
  unfold scanFuel, BOARD_SIZE in *. split.
  - apply walkBack_fuel; [done|..]; destruct Hd as [[-> ->]|[-> ->]]; lia.
  - intros r' c' Hr Hc.
    apply collectRun_fuel; [done|..]; unfold BOARD_SIZE;
      destruct Hd as [[-> ->]|[-> ->]]; lia.
Qed.

(** C9: for every board and every set of newly placed cells, giving a cell
    with [isBlank = true] another resolved letter does not change the result
    of [calculateScrabbleScore]; such a cell scores 0 whatever its letter. *)
Theorem blank_letter_invariance (grid : Grid) (newTiles : list (Z * Z))
    (r c : Z) (cell : CellData) (l' : ascii) :
  wfGrid grid →
  cellAt grid r c = Some cell → isBlank cell = true → hasLetter cell = true →
  calculateScrabbleScore (updCell grid r c (withLetter (Some l'))) newTiles
  = calculateScrabbleScore grid newTiles
  ∧ getCellScore (withLetter (Some l') cell) = 0
  ∧ getCellScore cell = 0.
Proof.
  intros _ Hcell Hblank Hletter. split_and!.
  - apply scoreAlike_score. intros x y.
    destruct (decide ((x, y) = (r, c))) as [Heq|Hne].
    + injection Heq as -> ->. rewrite cellAt_updCell_eq, Hcell. simpl.
      unfold getCellScore. simpl. by rewrite Hletter, Hblank.
    + rewrite cellAt_updCell_ne by done. by destruct (cellAt grid x y).
  - unfold getCellScore. simpl. by rewrite Hblank.
  - unfold getCellScore. by rewrite Hblank.
Qed.

(** C9 on CAT with a blank A: read as CUT it still scores C + T = 4. *)
Lemma blank_letter_invariance_witness :
  calculateScrabbleScore (updCell boardBlankA 4 4 (withLetter (Some "U"%char)))
    [(4, 3); (4, 4); (4, 5)] = 4.
Proof.
  destruct (blank_letter_invariance boardBlankA [(4, 3); (4, 4); (4, 5)] 4 4
              (default (mkCell "" 0 0 None None false false None)
                       (cellAt boardBlankA 4 4)) "U"%char) as [H _].
  - split; [done|]. repeat constructor.
  - by vm_compute.
  - by vm_compute.
  - by vm_compute.
  - rewrite H. by vm_compute.
Defined.

End ScoringFacts.

(** * Properties of the word scan of the analyzer *)

Module ScanFacts.
Import Board TileSystem Validation Scoring Logic Commit Spec Examples.

Lemma app_String c s t : String c s +:+ t = String c (s +:+ t).
Proof. reflexivity. Qed.

Lemma app_snoc s c t : (s +:+ String c "") +:+ t = s +:+ String c t.
Proof. induction s as [|x s IH]; [done|]. by rewrite !app_String, IH. Qed.

Lemma app_empty s : s +:+ "" = s.
Proof. induction s as [|x s IH]; [done|]. by rewrite app_String, IH. Qed.

Lemma length_app_string s t :
  String.length (s +:+ t) = (String.length s + String.length t)%nat.
Proof. induction s as [|x s IH]; [done|]. rewrite app_String. simpl. by rewrite IH. Qed.

Lemma scanLineFrom_run dictionary getCid run rest acc st :
  Forall (λ cell, hasLetter cell = true) run →
  scanLineFrom dictionary getCid (run ++ rest) acc st
  = scanLineFrom dictionary getCid rest (extendAll run acc) st.
Proof.
  intros H. revert acc. induction H as [|cell run Hc _ IH]; intros acc; [done|].
  simpl. unfold hasLetter in Hc. destruct (letter cell); [|done]. apply IH.
Qed.

Lemma flushRun_emptyRun dictionary getCid st :
  flushRun dictionary getCid emptyRun st = st.
Proof. done. Qed.

Lemma scanLineFrom_break dictionary getCid before rest acc st :
  (∃ cell, last before = Some cell ∧ hasLetter cell = false) →
  scanLineFrom dictionary getCid (before ++ rest) acc st
  = scanLineFrom dictionary getCid rest emptyRun
      (scanLineFrom dictionary getCid before acc st).
Proof.
  revert acc st. induction before as [|x before IH]; intros acc st (cell & Hl & Hc).
  - done.
  - destruct before as [|y before].
    + simpl in Hl. simplify_eq. simpl. unfold hasLetter in Hc.
      destruct (letter cell); [done|]. by rewrite flushRun_emptyRun.
    + cbn [app scanLineFrom]. destruct (letter x); apply IH; by exists cell.
Qed.

Lemma extendAll_word run acc :
  Forall (λ cell, hasLetter cell = true) run →
  0 ≤ currentMaxTurn acc →
  currentWord (extendAll run acc) = currentWord acc +:+ wordOfRun run
  ∧ currentScore (extendAll run acc)
    = currentScore acc + foldr (λ cell a, getCellScore cell + a) 0 run
  ∧ currentMaxTurn (extendAll run acc)
    = currentMaxTurn acc `max` foldr (λ cell a, default 0 (turnPlaced cell) `max` a) 0 run
  ∧ runCellIds (extendAll run acc) = runCellIds acc ++ map cellId run.
Proof.
  intros H. revert acc. induction H as [|cell run Hc _ IH]; intros acc Hpos.
  - unfold wordOfRun. simpl. rewrite app_empty, app_nil_r. split_and!; [done|lia|lia|done].
  - unfold hasLetter in Hc. destruct (letter cell) as [l|] eqn:Hl; [|done].
    unfold extendAll. cbn [fold_left]. rewrite Hl. fold (extendAll run (extendRun cell l acc)).
    destruct (IH (extendRun cell l acc)) as (Hw & Hs & Ht & Hi).
    { cbn [extendRun currentMaxTurn]. lia. }
    rewrite Hw, Hs, Ht, Hi. cbn [extendRun currentWord currentScore currentMaxTurn runCellIds].
    unfold wordOfRun. cbn [omap list_omap]. rewrite Hl. cbn [string_of_list_ascii foldr map].
    unfold getCellScore. rewrite Hl. rewrite app_snoc, <- app_assoc.
    split_and!; [done| |lia|done].
    destruct (isBlank cell); lia.
Qed.

Lemma wordOfRun_length run :
  Forall (λ cell, hasLetter cell = true) run →
  String.length (wordOfRun run) = length run.
Proof.
  induction 1 as [|cell run Hc _ IH]; [done|].
  unfold hasLetter in Hc. unfold wordOfRun in *. cbn [omap list_omap].
  destruct (letter cell); [|done]. simpl. by rewrite IH.
Qed.

(** [scanLine] only ever appends to the word list. *)
Lemma flushRun_mono dictionary getCid acc st w :
  w ∈ allValidWords st → w ∈ allValidWords (flushRun dictionary getCid acc st).
Proof.
  intros Hw. unfold flushRun. repeat case_match; try done;
    cbn [allValidWords]; apply elem_of_app; by left.
Qed.

Lemma scanLineFrom_mono dictionary getCid cells acc st w :
  w ∈ allValidWords st →
  w ∈ allValidWords (scanLineFrom dictionary getCid cells acc st).
Proof.
  revert acc st. induction cells as [|cell cells IH]; intros acc st Hw; simpl.
  - by apply flushRun_mono.
  - destruct (letter cell); apply IH; [done|]. by apply flushRun_mono.
Qed.

Lemma flushRun_keys dictionary getCid acc st :
  keysRecorded st → keysRecorded (flushRun dictionary getCid acc st).
Proof.
  intros Hst. unfold flushRun. repeat case_match; try done;
    intros k Hk; cbn [visitedWords allValidWords] in *;
    (apply elem_of_union in Hk as [Hk|Hk];
     [apply elem_of_singleton in Hk as ->; eexists; split;
        [apply elem_of_app; right; apply list_elem_of_singleton; reflexivity|done]
     |destruct (Hst k Hk) as (w & Hw & Hkey); exists w; split;
        [apply elem_of_app; by left|done]]).
Qed.

Lemma scanLineFrom_keys dictionary getCid cells acc st :
  keysRecorded st → keysRecorded (scanLineFrom dictionary getCid cells acc st).
Proof.
  revert acc st. induction cells as [|cell cells IH]; intros acc st Hst; simpl.
  - by apply flushRun_keys.
  - destruct (letter cell); apply IH; [done|]. by apply flushRun_keys.
Qed.

Lemma maxTurn_nonneg (run : list CellData) :
  0 ≤ foldr (λ cell a, default 0 (turnPlaced cell) `max` a) 0 run.
Proof. induction run; simpl; lia. Qed.

(** Scanning a line that contains a maximal run comes down to flushing that
    run in the state reached before it and scanning on. *)
Lemma scanLine_at_run dictionary getCid st cells before run after :
  maximalRun cells before run after →
  ∃ rest,
    scanLine dictionary getCid st cells
    = scanLineFrom dictionary getCid rest emptyRun
        (flushRun dictionary getCid (extendAll run emptyRun)
           (scanLine dictionary getCid st before)).
Proof.
  intros (-> & Hrun & Hbefore & Hafter). unfold scanLine.
  assert (scanLineFrom dictionary getCid (before ++ run ++ after) emptyRun st
          = scanLineFrom dictionary getCid after (extendAll run emptyRun)
              (scanLineFrom dictionary getCid before emptyRun st)) as ->.
  { destruct (last before) as [cell|] eqn:Hl.
    - rewrite scanLineFrom_break by (exists cell; auto).
      by rewrite scanLineFrom_run.
    - apply last_None in Hl as ->. simpl. by rewrite scanLineFrom_run. }
  destruct after as [|x after].
  - exists []. done.
  - exists after. simpl. specialize (Hafter x eq_refl).
    unfold hasLetter in Hafter. by destruct (letter x).
Qed.

Lemma scanLine_records_run getCid st cells before run after :
  maximalRun cells before run after → (1 < length run)%nat →
  (joinIds (map cellId run)
     ∉ visitedWords (scanLine None getCid st before) →
   recordOfRun getCid run ∈ allValidWords (scanLine None getCid st cells))
  ∧ (keysRecorded st →
     ∃ w, w ∈ allValidWords (scanLine None getCid st cells)
          ∧ joinIds (w_cellIds w) = joinIds (map cellId run)).
Proof.
  intros Hmax Hlen.
  destruct (scanLine_at_run None getCid st _ _ _ _ Hmax) as (rest & ->).
  destruct Hmax as (_ & Hrun & _ & _).
  destruct (extendAll_word run emptyRun Hrun) as (Hw & Hs & Ht & Hi); [done|].
  pose proof (maxTurn_nonneg run) as Hpos.
  cbn [emptyRun currentWord currentScore currentMaxTurn runCellIds app] in Hw, Hs, Ht, Hi.
  change ("" +:+ wordOfRun run) with (wordOfRun run) in Hw.
  rewrite Z.add_0_l in Hs. rewrite Z.max_r in Ht by lia.
  set (reached := scanLine None getCid st before).
  assert (joinIds (map cellId run) ∉ visitedWords reached →
          recordOfRun getCid run
          ∈ allValidWords (flushRun None getCid (extendAll run emptyRun) reached))
    as Hfresh.
  { intros Hkey. unfold flushRun. rewrite Hw, Hs, Ht, Hi.
    rewrite wordOfRun_length by done.
    rewrite bool_decide_eq_true_2 by done.
    rewrite bool_decide_eq_false_2 by done.
    cbn [isValid negb].
    case_bool_decide; cbn [allValidWords]; apply elem_of_app; right;
      by apply list_elem_of_singleton. }
  split.
  - intros Hkey. by apply scanLineFrom_mono, Hfresh.
  - intros Hst.
    destruct (decide (joinIds (map cellId run) ∈ visitedWords reached)) as [Hin|Hout].
    + assert (keysRecorded reached) as Hr by by apply scanLineFrom_keys.
      destruct (Hr _ Hin) as (w & Hwin & Hk). exists w. split; [|done].
      by apply scanLineFrom_mono, flushRun_mono.
    + exists (recordOfRun getCid run). split; [|done].
      by apply scanLineFrom_mono, Hfresh.
Qed.

Lemma fold_scanLine_mono {A} dictionary getCid (lineOf : A → list CellData) xs st w :
  w ∈ allValidWords st →
  w ∈ allValidWords
        (fold_left (λ st x, scanLine dictionary getCid st (lineOf x)) xs st).
Proof.
  revert st. induction xs as [|x xs IH]; intros st Hw; [done|].
  simpl. apply IH. by apply scanLineFrom_mono.
Qed.

Lemma fold_scanLine_keys {A} dictionary getCid (lineOf : A → list CellData) xs st :
  keysRecorded st →
  keysRecorded (fold_left (λ st x, scanLine dictionary getCid st (lineOf x)) xs st).
Proof.
  revert st. induction xs as [|x xs IH]; intros st Hst; [done|].
  simpl. apply IH. by apply scanLineFrom_keys.
Qed.

Lemma fold_scanLine_records {A} getCid (lineOf : A → list CellData) xs st x
    before run after :
  keysRecorded st → x ∈ xs →
  maximalRun (lineOf x) before run after → (1 < length run)%nat →
  ∃ w, w ∈ allValidWords
             (fold_left (λ st x, scanLine None getCid st (lineOf x)) xs st)
       ∧ joinIds (w_cellIds w) = joinIds (map cellId run).
Proof.
  intros Hst Hx Hmax Hlen.
  apply list_elem_of_split in Hx as (l1 & l2 & ->).
  rewrite fold_left_app. cbn [fold_left].
  set (st1 := fold_left _ l1 st).
  assert (keysRecorded st1) as H1 by by apply fold_scanLine_keys.
  destruct (scanLine_records_run getCid st1 _ _ _ _ Hmax Hlen) as [_ H].
  destruct (H H1) as (w & Hw & Hk). exists w. split; [|done].
  by apply (fold_scanLine_mono None getCid lineOf l2).
Qed.

Lemma scanBoard_records grid getCid cells before run after :
  scannedLine grid cells →
  maximalRun cells before run after → (1 < length run)%nat →
  ∃ w, w ∈ allValidWords (scanBoard grid None getCid)
       ∧ joinIds (w_cellIds w) = joinIds (map cellId run).
Proof.
  intros Hline Hmax Hlen. unfold scanBoard.
  assert (keysRecorded emptyScan) as H0.
  { intros k Hk. by apply not_elem_of_empty in Hk. }
  destruct Hline as [Hrow|(c & Hc & ->)].
  - destruct (fold_scanLine_records getCid (λ x, x) grid emptyScan cells
                before run after H0 Hrow Hmax Hlen) as (w & Hw & Hk).
    exists w. split; [|done].
    by apply (fold_scanLine_mono None getCid (column grid) indices).
  - apply (fold_scanLine_records getCid (column grid) indices _ c before run after);
      try done.
    by apply (fold_scanLine_keys None getCid (λ x, x) grid).
Qed.

(** C10: without a dictionary every word passes the validity test of the
    analyzer, so every maximal lettered run longer than one cell of a
    scanned line is recorded: in [scanLine] with its text, score, turn,
    cluster and cells unless a word of the same cell ids was recorded
    before, and hence on the whole board some recorded word has its cell
    ids.  On the CAT/HAT board placement validation answers false without
    a dictionary while the analyzer still compiles the chain
    [IF CAT; THEN HAT] and pays its outcome 6 for the replayed CAT. *)
Theorem analyzer_accepts_without_dictionary :
  (∀ w, isValid None w = true)
  ∧ (∀ getCid st cells before run after,
       maximalRun cells before run after → (1 < length run)%nat →
       joinIds (map cellId run) ∉ visitedWords (scanLine None getCid st before) →
       recordOfRun getCid run ∈ allValidWords (scanLine None getCid st cells))
  ∧ (∀ grid placementMode cells before run after,
       wfGrid grid → scannedLine grid cells →
       maximalRun cells before run after → (1 < length run)%nat →
       ∃ w, w ∈ (analyzeBoardLogic grid None placementMode).2
            ∧ joinIds (w_cellIds w) = joinIds (map cellId run))
  ∧ (validatePlacementRules boardReplayLocked DYNAMIC ACROSTIC None = false
     ∧ map (λ w, (w_word w, w_score w, w_turn w))
           (analyzeBoardLogic boardReplayLocked None ACROSTIC).2
       = [("CAT", 5, 1); ("CAT", 5, 3); ("HAT", 6, 2)]
     ∧ map (λ c, map (λ x, (op x, word x, wordScore x)) (compiledOps c))
           (analyzeBoardLogic boardReplayLocked None ACROSTIC).1
       = [[(IF, "CAT", 5); (THEN, "HAT", 6)]]
     ∧ score (calculateChainScore
                (analyzeBoardLogic boardReplayLocked None ACROSTIC).1
                (analyzeBoardLogic boardReplayLocked None ACROSTIC).2 3) = 6).
Proof.
  split; [done|]. split; [|split].
  - intros getCid st cells before run after Hmax Hlen.
    apply (proj1 (scanLine_records_run getCid st cells before run after Hmax Hlen)).
  - intros grid placementMode cells before run after _ Hline Hmax Hlen.
    unfold analyzeBoardLogic.
    destruct (identifyClusters grid placementMode) as [cellToCluster next].
    cbn [snd]. by eapply scanBoard_records.
  - by vm_compute.
Qed.

(** C10 on row 4 of the CAT/HAT board: the run CAT is recorded. *)
Lemma analyzer_accepts_without_dictionary_witness :
  ∃ w, w ∈ (analyzeBoardLogic boardCatHat None GO).2
       ∧ joinIds (w_cellIds w) = "4-3,4-4,4-5".
Proof.
  destruct analyzer_accepts_without_dictionary as (_ & _ & H & _).
  destruct (H boardCatHat GO (default [] (boardCatHat !! 4%nat))
              (take 3 (default [] (boardCatHat !! 4%nat)))
              (take 3 (drop 3 (default [] (boardCatHat !! 4%nat))))
              (drop 6 (default [] (boardCatHat !! 4%nat))))
    as (w & Hw & Hk).
  - split; [done|]. repeat constructor.
  - left. apply list_elem_of_lookup. by exists 4%nat.
  - split_and!.
    + by vm_compute.
    + repeat constructor.
    + intros cell Hc. vm_compute in Hc. by simplify_eq.
    + intros cell Hc. vm_compute in Hc. by simplify_eq.
  - simpl. lia.
  - exists w. split; [done|]. rewrite Hk. by vm_compute.
Defined.

End ScanFacts.

(** * Termination of the flood fill *)

Module ClusterFacts.
Import Board Logic Spec.

Lemma filter_length_le {A} (p q : A → bool) l :
  (∀ y, q y = true → p y = true) →
  (length (List.filter q l) ≤ length (List.filter p l))%nat.
Proof.
  intros Hqp. induction l as [|y l IH]; simpl; [done|].
  destruct (q y) eqn:Hq.
  - rewrite (Hqp y Hq). simpl. lia.
  - destruct (p y); simpl; lia.
Qed.

Lemma filter_length_lt {A} (p q : A → bool) l x :
  (∀ y, q y = true → p y = true) →
  In x l → p x = true → q x = false →
  (length (List.filter q l) < length (List.filter p l))%nat.
Proof.
  intros Hqp Hin Hp Hq. induction l as [|y l IH]; simpl; [done|].
  destruct Hin as [->|Hin].
  - rewrite Hp, Hq. simpl. pose proof (filter_length_le p q l Hqp). lia.
  - specialize (IH Hin). destruct (q y) eqn:Hqy.
    + rewrite (Hqp y Hqy). simpl. lia.
    + destruct (p y); simpl; lia.
Qed.

Lemma pending_visit visited r c :
  In (r, c) coords → coordId r c ∉ visited →
  (pending ({[coordId r c]} ∪ visited) < pending visited)%nat.
Proof.
  intros Hin Hnew. unfold pending.
  apply (filter_length_lt _ _ coords (r, c)); [|done|..].
  - intros [r' c']. rewrite !negb_true_iff, !bool_decide_eq_false.
    intros Hn Hv. apply Hn, elem_of_union. by right.
  - by rewrite negb_true_iff, bool_decide_eq_false.
  - rewrite negb_false_iff, bool_decide_eq_true.
    apply elem_of_union. left. by apply elem_of_singleton.
Qed.

Lemma visitNeighbor_measure grid cid visited cellToCluster q n :
  In n coords →
  let st' := visitNeighbor grid cid (visited, cellToCluster, q) n in
  (length st'.2 + pending st'.1.1 ≤ length q + pending visited)%nat.
Proof.
  intros Hin. unfold visitNeighbor.
  destruct (lettered grid n.1 n.2 && negb (bool_decide (coordId n.1 n.2 ∈ visited)))
    eqn:Hv; simpl; [|lia].
  apply andb_true_iff in Hv as [_ Hv].
  rewrite negb_true_iff, bool_decide_eq_false in Hv.
  destruct n as [r c]. pose proof (pending_visit visited r c Hin Hv).
  rewrite length_app. simpl in *. lia.
Qed.

Lemma fold_visit_measure grid cid ns visited cellToCluster q :
  Forall (λ n, In n coords) ns →
  let st' := fold_left (visitNeighbor grid cid) ns (visited, cellToCluster, q) in
  (length st'.2 + pending st'.1.1 ≤ length q + pending visited)%nat.
Proof.
  intros Hns. revert visited cellToCluster q.
  induction Hns as [|n ns Hn _ IH]; intros visited cellToCluster q;
    cbv zeta; cbn [fold_left]; [simpl; lia|].
  pose proof (visitNeighbor_measure grid cid visited cellToCluster q n Hn) as H1.
  destruct (visitNeighbor grid cid (visited, cellToCluster, q) n) as [[v m] q'].
  cbv zeta in IH, H1. cbn [fst snd] in H1. specialize (IH v m q'). lia.
Qed.

Lemma getNeighbors_coords r c : Forall (λ n, In n coords) (getNeighbors r c).
Proof.
  apply Forall_forall. intros [nr nc] Hin. apply list_elem_of_In in Hin.
  unfold getNeighbors in Hin. apply filter_In in Hin as [_ Hb].
  apply list_elem_of_In. unfold coords. apply list_elem_of_bind.
  unfold inBoard in Hb. rewrite !andb_true_iff, !bool_decide_eq_true in Hb.
  exists nr. split; [|unfold indices; apply elem_of_seqZ; lia].
  apply list_elem_of_bind. exists nc.
  split; [by apply list_elem_of_singleton|unfold indices; apply elem_of_seqZ; lia].
Qed.

(** The queue loop of the flood fill ends: an iteration removes one cell
    from the queue and adds only cells it marks visited, so any fuel of at
    least the queue length plus the unvisited cells gives the same result. *)
Lemma floodFill_fuel_irrelevant grid cid fuel1 fuel2 visited cellToCluster q :
  (length q + pending visited ≤ fuel1)%nat →
  (length q + pending visited ≤ fuel2)%nat →
  floodFill fuel1 grid cid (visited, cellToCluster, q)
  = floodFill fuel2 grid cid (visited, cellToCluster, q).
Proof.
  revert fuel2 visited cellToCluster q.
  induction fuel1 as [|fuel1 IH]; intros [|fuel2] visited cellToCluster q H1 H2.
  - done.
  - destruct q; [done|]. simpl in H1. lia.
  - destruct q; [done|]. simpl in H2. lia.
  - destruct q as [|curr q]; [done|]. cbn [floodFill].
    pose proof (fold_visit_measure grid cid (getNeighbors curr.1 curr.2)
                  visited cellToCluster q (getNeighbors_coords _ _)) as Hm.
    destruct (fold_left _ _ _) as [[v m] q']. simpl in Hm, H1, H2.
    apply IH; lia.
Qed.

(** [fillFuel] is enough for every flood fill [identifyClusters] starts. *)
Lemma floodFill_fuel grid cid visited cellToCluster rc k :
  floodFill (fillFuel + k) grid cid (visited, cellToCluster, [rc])
  = floodFill fillFuel grid cid (visited, cellToCluster, [rc]).
Proof.
  assert (pending visited ≤ 121)%nat as Hp.
  { unfold pending. etrans; [apply List.filter_length_le|]. by vm_compute. }
  apply floodFill_fuel_irrelevant; simpl; unfold fillFuel, BOARD_SIZE; lia.
Qed.

(** and it leaves the queue empty *)
Lemma floodFill_done grid cid fuel visited cellToCluster q :
  (length q + pending visited ≤ fuel)%nat →
  (floodFill fuel grid cid (visited, cellToCluster, q)).2 = [].
Proof.
  revert visited cellToCluster q.
  induction fuel as [|fuel IH]; intros visited cellToCluster q Hf.
  - destruct q; [done|]. simpl in Hf. lia.
  - destruct q as [|curr q]; [done|]. cbn [floodFill].
    pose proof (fold_visit_measure grid cid (getNeighbors curr.1 curr.2)
                  visited cellToCluster q (getNeighbors_coords _ _)) as Hm.
    destruct (fold_left _ _ _) as [[v m] q']. simpl in Hm, Hf.
    apply IH; lia.
Qed.

End ClusterFacts.

(** * Properties of placement evaluation: the scratch copy *)

Module SearchFacts.
Import Board TileSystem Validation Scoring Logic Search SearchSpec Examples.
Import ScoringFacts.

Lemma preserved_refl s : preserved s s.
Proof. by split. Qed.

Lemma preserved_trans s1 s2 s3 :
  preserved s1 s2 → preserved s2 s3 → preserved s1 s3.
Proof. intros [Hc1 Hh1] [Hc2 Hh2]. split; eauto. Qed.

Lemma mapM_cons {A B} (f : A → M B) x rest s :
  mapM f (x :: rest) s
  = ((f x s).1 :: (mapM f rest (f x s).2).1, (mapM f rest (f x s).2).2).
Proof.
  cbn [mapM]. unfold bind, ret. destruct (f x s) as [y s1]. cbn [fst snd].
  by destruct (mapM f rest s1) as [ys s2].
Qed.

Lemma Forall2_transport {A B} (P Q : A → B → Prop) xs ys :
  Forall2 P xs ys → Forall (λ a, ∀ b, P a b → Q a b) xs → Forall2 Q xs ys.
Proof.
  induction 1 as [|a b xs ys Hab _ IH]; intros HF; constructor.
  - apply Forall_cons in HF as [Ha _]. by apply Ha.
  - apply IH. by apply Forall_cons in HF as [_ ?].
Qed.

Lemma cloneCell_spec l s :
  storeOk s →
  (cloneCell l s).1 = nextCell s
  ∧ preserved s (cloneCell l s).2
  ∧ handObjs (cloneCell l s).2 = handObjs s
  ∧ nextHand (cloneCell l s).2 = nextHand s
  ∧ storeOk (cloneCell l s).2
  ∧ nextCell (cloneCell l s).2 = S (nextCell s)
  ∧ cellObjs (cloneCell l s).2 !! nextCell s
    = Some (default emptyCell (cellObjs s !! l)).
Proof.
  intros [Hc Hh]. unfold cloneCell, bind, readCell, newCell. cbn.
  split_and!; try done.
  - split; [|done]. intros l' cell Hl. cbn.
    rewrite lookup_insert_ne; [done|]. intros <-. rewrite Hc in Hl; [done|lia].
  - split; [|done]. intros l' Hl. cbn in *.
    rewrite lookup_insert_ne by lia. apply Hc. lia.
  - by rewrite lookup_insert_eq.
Qed.

Lemma cloneRow_spec ls s :
  storeOk s → Forall (λ l, is_Some (cellObjs s !! l)) ls →
  preserved s (mapM cloneCell ls s).2
  ∧ handObjs (mapM cloneCell ls s).2 = handObjs s
  ∧ nextHand (mapM cloneCell ls s).2 = nextHand s
  ∧ storeOk (mapM cloneCell ls s).2
  ∧ (nextCell s ≤ nextCell (mapM cloneCell ls s).2)%nat
  ∧ Forall (λ l, (nextCell s ≤ l < nextCell (mapM cloneCell ls s).2)%nat)
           (mapM cloneCell ls s).1
  ∧ NoDup (mapM cloneCell ls s).1
  ∧ Forall2 (λ a b, cellObjs (mapM cloneCell ls s).2 !! b
                    = Some (default emptyCell (cellObjs s !! a)))
            ls (mapM cloneCell ls s).1.
Proof.
  revert s. induction ls as [|a ls IH]; intros s Hok Hall.
  - cbn. split_and!; try done; constructor.
  - apply Forall_cons in Hall as [Ha Hall]. rewrite mapM_cons. cbn [fst snd].
    destruct (cloneCell_spec a s Hok) as (Hl & Hp1 & Hh1 & Hn1 & Hok1 & Hnc1 & Hv1).
    set (s1 := (cloneCell a s).2) in *.
    assert (Forall (λ l, is_Some (cellObjs s1 !! l)) ls) as Hall1.
    { eapply Forall_impl; [exact Hall|]. intros l [c Hc].
      exists c. by apply Hp1. }
    destruct (IH s1 Hok1 Hall1) as (Hp2 & Hh2 & Hn2 & Hok2 & Hle & Hrng & Hnd & Hf2).
    set (r := mapM cloneCell ls s1) in *.
    split_and!.
    + by eapply preserved_trans.
    + congruence.
    + congruence.
    + done.
    + lia.
    + constructor; [rewrite Hl; lia|].
      eapply Forall_impl; [exact Hrng|]. intros l ?. simpl in *. lia.
    + constructor; [|done]. rewrite Hl. intros Hin.
      rewrite Forall_forall in Hrng. specialize (Hrng _ Hin). simpl in Hrng. lia.
    + constructor.
      * rewrite Hl. by apply Hp2.
      * eapply Forall2_transport; [exact Hf2|].
        eapply Forall_impl; [exact Hall|]. intros a' [c Hc] b Hab.
        rewrite Hab, Hc. by rewrite (proj1 Hp1 _ _ Hc).
Qed.

Lemma cloneGrid_spec g s :
  storeOk s → Forall (Forall (λ l, is_Some (cellObjs s !! l))) g →
  cloned s (cloneGrid g s).2 g (cloneGrid g s).1.
Proof.
  unfold cloneGrid. revert s. induction g as [|row rows IH]; intros s Hok Hall.
  - cbn. unfold cloned. split_and!; try done; try constructor.
  - apply Forall_cons in Hall as [Hrow Hrows]. rewrite mapM_cons. cbn [fst snd].
    destruct (cloneRow_spec row s Hok Hrow)
      as (Hp1 & Hh1 & Hn1 & Hok1 & Hle1 & Hrng1 & Hnd1 & Hf1).
    set (s1 := (mapM cloneCell row s).2) in *.
    set (d1 := (mapM cloneCell row s).1) in *.
    assert (Forall (Forall (λ l, is_Some (cellObjs s1 !! l))) rows) as Hrows1.
    { eapply Forall_impl; [exact Hrows|]. intros r Hr.
      eapply Forall_impl; [exact Hr|]. intros l [c Hc]. exists c. by apply Hp1. }
    destruct (IH s1 Hok1 Hrows1)
      as (Hp2 & Hh2 & Hn2 & Hok2 & Hle2 & Hrng2 & Hnd2 & Hf2).
    set (s2 := (mapM (mapM cloneCell) rows s1).2) in *.
    set (ds := (mapM (mapM cloneCell) rows s1).1) in *.
    unfold cloned. split_and!.
    + by eapply preserved_trans.
    + congruence.
    + congruence.
    + done.
    + lia.
    + constructor.
      * eapply Forall_impl; [exact Hrng1|]. intros l ?. simpl in *. lia.
      * eapply Forall_impl; [exact Hrng2|]. intros r Hr.
        eapply Forall_impl; [exact Hr|]. intros l ?. simpl in *. lia.
    + cbn [concat]. apply NoDup_app. split_and!; [done| |done].
      intros x Hx1 Hx2.
      rewrite Forall_forall in Hrng1. specialize (Hrng1 _ Hx1). simpl in Hrng1.
      apply Forall_concat in Hrng2. rewrite Forall_forall in Hrng2.
      specialize (Hrng2 _ Hx2). simpl in Hrng2. lia.
    + constructor.
      * eapply Forall2_impl; [exact Hf1|]. intros a b Hab. by apply Hp2.
      * eapply Forall2_transport; [exact Hf2|].
        eapply Forall_impl; [exact Hrows|]. intros r Hr d Hd.
        eapply Forall2_transport; [exact Hd|].
        eapply Forall_impl; [exact Hr|]. intros a [c Hc] b Hab.
        rewrite Hab, Hc. by rewrite (proj1 Hp1 _ _ Hc).
Qed.

(** The clone reads like the original. *)
Lemma cloned_deref s s' src dst :
  cloned s s' src dst → derefGrid s' dst = derefGrid s src.
Proof.
  intros (_ & _ & _ & _ & _ & _ & _ & Hf). unfold derefGrid.
  induction Hf as [|r d rs ds Hrd _ IH]; [done|]. cbn [map]. f_equal; [|done].
  clear -Hrd. induction Hrd as [|a b r d Hab _ IH]; [done|].
  cbn [map]. rewrite Hab. simpl. by f_equal.
Qed.

Lemma cloned_fresh s s' src dst l :
  storeOk s → cloned s s' src dst → In l (concat dst) → cellObjs s !! l = None.
Proof.
  intros [Hc _] (_ & _ & _ & _ & _ & Hrng & _ & _) Hin.
  apply Forall_concat in Hrng. rewrite Forall_forall in Hrng.
  apply list_elem_of_In in Hin. specialize (Hrng _ Hin). simpl in Hrng.
  apply Hc. lia.
Qed.

Lemma cloned_allocated s s' src dst :
  cloned s s' src dst → Forall (λ l, is_Some (cellObjs s' !! l)) (concat dst).
Proof.
  intros (_ & _ & _ & _ & _ & _ & _ & Hf).
  induction Hf as [|r d rs ds Hrd _ IH]; [constructor|].
  cbn [concat]. apply Forall_app. split; [|done].
  clear -Hrd. induction Hrd as [|a b r d Hab _ IH]; constructor; [|done].
  by rewrite Hab.
Qed.

Lemma cloned_shape s s' src dst :
  cloned s s' src dst →
  length dst = length src
  ∧ (Forall (λ r : list nat, length r = Z.to_nat BOARD_SIZE) src →
     Forall (λ r : list nat, length r = Z.to_nat BOARD_SIZE) dst).
Proof.
  intros (_ & _ & _ & _ & _ & _ & _ & Hf). split.
  - symmetry. by eapply Forall2_length.
  - induction Hf as [|r d rs ds Hrd _ IH]; intros Hs; constructor.
    + apply Forall_cons in Hs as [Hr _]. rewrite <- Hr. symmetry.
      by eapply Forall2_length.
    + apply IH. by apply Forall_cons in Hs as [_ ?].
Qed.

Lemma lookup_map {A B} (f : A → B) l i : map f l !! i = f <$> l !! i.
Proof. revert i. induction l as [|x l IH]; intros [|i]; simpl; auto. Qed.

(** Reading a cell of the scratch grid is reading through its reference. *)
Lemma cellAt_derefGrid s refs r c :
  cellAt (derefGrid s refs) r c
  = (λ l, default emptyCell (cellObjs s !! l)) <$> refAt refs r c.
Proof.
  unfold cellAt, refAt, derefGrid.
  destruct (bool_decide (0 ≤ r) && bool_decide (0 ≤ c)); [|done].
  rewrite lookup_map. destruct (refs !! Z.to_nat r) as [row|]; [|done].
  simpl. by rewrite lookup_map.
Qed.

Lemma deref_write_other s l f xs :
  l ∉ xs →
  map (λ l', default emptyCell (cellObjs (writeCell l f s).2 !! l')) xs
  = map (λ l', default emptyCell (cellObjs s !! l')) xs.
Proof.
  intros Hl. induction xs as [|x xs IH]; [done|].
  apply not_elem_of_cons in Hl as [Hx Hxs]. cbn [map]. f_equal; [|by apply IH].
  unfold writeCell. cbn. by rewrite lookup_alter_ne.
Qed.

Lemma deref_write_row s l f row j :
  NoDup row → row !! j = Some l → is_Some (cellObjs s !! l) →
  map (λ l', default emptyCell (cellObjs (writeCell l f s).2 !! l')) row
  = alter f j (map (λ l', default emptyCell (cellObjs s !! l')) row).
Proof.
  intros Hnd Hj [cell Hcell]. revert j Hj.
  induction Hnd as [|x row Hx Hnd IH]; intros [|j] Hj; try (by simplify_eq/=).
  - simpl in Hj. injection Hj as ->. cbn. rewrite lookup_alter_eq, Hcell. cbn.
    f_equal. by apply (deref_write_other s l f row).
  - simpl in Hj. cbn. rewrite lookup_alter_ne.
    + f_equal. by apply IH.
    + intros <-. apply Hx. by eapply list_elem_of_lookup_2.
Qed.

Lemma lookup_concat (rows : list (list nat)) i row l :
  rows !! i = Some row → l ∈ row → l ∈ concat rows.
Proof.
  revert i. induction rows as [|r rows IH]; intros [|i] Hi Hl; try (by simplify_eq/=).
  - simpl in Hi. injection Hi as ->. cbn [concat]. apply elem_of_app. by left.
  - cbn [concat]. apply elem_of_app. right. by eapply IH.
Qed.

Lemma deref_write_others s l f (rows : list (list nat)) :
  l ∉ concat rows →
  derefGrid (writeCell l f s).2 rows = derefGrid s rows.
Proof.
  intros Hl. unfold derefGrid. induction rows as [|r rows IH]; [done|].
  cbn [concat] in Hl. apply not_elem_of_app in Hl as [Hr Hrows].
  cbn [map]. f_equal; [by apply deref_write_other|by apply IH].
Qed.

(** Writing through a reference of the scratch grid updates that one cell
    of the grid it reads as: no two of its references are aliases. *)
Lemma derefGrid_write s refs r c l f :
  NoDup (concat refs) → refAt refs r c = Some l → is_Some (cellObjs s !! l) →
  derefGrid (writeCell l f s).2 refs = updCell (derefGrid s refs) r c f.
Proof.
  intros Hnd Href Hl. unfold refAt in Href. unfold updCell.
  destruct (bool_decide (0 ≤ r) && bool_decide (0 ≤ c)); [|done].
  destruct (refs !! Z.to_nat r) as [row|] eqn:Hrow; [|done]. simpl in Href.
  generalize dependent (Z.to_nat r). intros i. revert refs Hnd.
  induction i as [|i IH]; intros [|row0 rows] Hnd Hrow; try done.
  - simpl in Hrow. injection Hrow as ->. cbn [concat] in Hnd.
    apply NoDup_app in Hnd as (Hnd1 & Hdis & _).
    unfold derefGrid. cbn [map]. cbn. f_equal.
    + by apply deref_write_row.
    + apply deref_write_others. apply Hdis. by eapply list_elem_of_lookup_2.
  - simpl in Hrow. cbn [concat] in Hnd.
    apply NoDup_app in Hnd as (_ & Hdis & Hnd2).
    unfold derefGrid. cbn [map]. cbn. f_equal.
    + apply deref_write_other. intros Hin. apply (Hdis _ Hin).
      eapply lookup_concat; [exact Hrow|]. by eapply list_elem_of_lookup_2.
    + by apply IH.
Qed.

Lemma refAt_elem refs r c l : refAt refs r c = Some l → l ∈ concat refs.
Proof.
  unfold refAt. destruct (bool_decide (0 ≤ r) && bool_decide (0 ≤ c)); [|done].
  destruct (refs !! Z.to_nat r) as [row|] eqn:Hrow; [|done]. simpl. intros Hl.
  eapply lookup_concat; [exact Hrow|]. by eapply list_elem_of_lookup_2.
Qed.

(** one step of the loop that places a tile: the two writes *)
Lemma place_step s refs th r c l ch blank turn tiles tiles' :
  NoDup (concat refs) →
  Forall (λ l, is_Some (cellObjs s !! l)) (concat refs) →
  refAt refs r c = Some l → handObjs s !! th = Some tiles →
  let s2 := (writeCell l (placeTile ch blank turn) (writeHand th tiles' s).2).2 in
  Forall (λ l, is_Some (cellObjs s2 !! l)) (concat refs)
  ∧ derefGrid s2 refs = updCell (derefGrid s refs) r c (placeTile ch blank turn)
  ∧ handObjs s2 !! th = Some tiles'
  ∧ (∀ l', l' ∉ concat refs → cellObjs s2 !! l' = cellObjs s !! l')
  ∧ (∀ l', l' ≠ th → handObjs s2 !! l' = handObjs s !! l').
Proof.
  intros Hnd Hall Href Hth s2.
  pose proof (refAt_elem _ _ _ _ Href) as Hin.
  assert (is_Some (cellObjs s !! l)) as Hl.
  { rewrite Forall_forall in Hall. by apply Hall. }
  split_and!.
  - eapply Forall_impl; [exact Hall|]. intros l' [cell Hc]. unfold s2. cbn.
    rewrite lookup_alter. case_decide; subst; rewrite Hc; by eexists.
  - unfold s2. by rewrite (derefGrid_write _ refs r c l).
  - unfold s2. cbn. by rewrite lookup_alter_eq, Hth.
  - intros l' Hl'. unfold s2. cbn. rewrite lookup_alter_ne; [done|].
    intros <-. done.
  - intros l' Hl'. unfold s2. cbn. by rewrite lookup_alter_ne.
Qed.

(** The loop on the store and the loop on values go the same way, and the
    loop writes to nothing but the scratch cells and the scratch hand. *)
Lemma overlay_sim refs th startR startC dir turn chars :
  NoDup (concat refs) →
  ∀ k s tiles placed coords o s',
    Forall (λ l, is_Some (cellObjs s !! l)) (concat refs) →
    handObjs s !! th = Some tiles →
    overlay chars k refs th startR startC dir turn placed coords s = (o, s') →
    (∀ l, l ∉ concat refs → cellObjs s' !! l = cellObjs s !! l)
    ∧ (∀ l, l ≠ th → handObjs s' !! l = handObjs s !! l)
    ∧ match o, overlayItems (itemsFrom dir startR startC k chars)
                 (derefGrid s refs) tiles turn placed coords with
      | Thrown, PThrown => True
      | Rejected, PRejected => True
      | Placed p c, PPlaced g' tiles' p' c' =>
          p = p' ∧ c = c' ∧ derefGrid s' refs = g'
      | _, _ => False
      end.
Proof.
  intros Hnd.
  induction chars as [|ch rest IH]; intros k s tiles placed coords o s' Hall Hth Hrun.
  - cbn in Hrun. injection Hrun as <- <-. by cbn.
  - cbn [overlay itemsFrom overlayItems] in *. unfold posOf. cbn [fst snd].
    set (r := match dir with H => startR | V => startR + k end) in *.
    set (c := match dir with H => startC + k | V => startC end) in *.
    rewrite cellAt_derefGrid.
    destruct (refAt refs r c) as [l|] eqn:Href.
    2:{ injection Hrun as <- <-. by cbn. }
    cbn [fmap option_fmap option_map].
    unfold bind at 1 in Hrun. unfold readCell at 1 in Hrun.
    destruct (letter (default emptyCell (cellObjs s !! l))) as [x|].
    { case_decide.
      - injection Hrun as <- <-. by cbn.
      - by eapply IH. }
    unfold bind at 1 in Hrun. unfold readHand at 1 in Hrun.
    rewrite Hth in Hrun. change (default [] (Some tiles)) with tiles in Hrun.
    destruct (indexOf ch tiles) as [idx|].
    { unfold bind at 1 2 in Hrun.
      destruct (place_step s refs th r c l ch false turn tiles (delete idx tiles)
                  Hnd Hall Href Hth) as (Hall2 & Hg2 & Hth2 & Hc2 & Hh2).
      cbn [writeHand writeCell fst snd] in *.
      destruct (IH (k + 1) _ _ (placed + 1) (coords ++ [(r, c)]) o s' Hall2 Hth2 Hrun)
        as (Hc3 & Hh3 & Hm).
      rewrite Hg2 in Hm. split_and!; [| |done].
      - intros l' Hl'. by rewrite Hc3, Hc2.
      - intros l' Hl'. by rewrite Hh3, Hh2. }
    destruct (indexOf "*"%char tiles) as [bIdx|].
    2:{ injection Hrun as <- <-. by cbn. }
    unfold bind at 1 2 in Hrun.
    destruct (place_step s refs th r c l ch true turn tiles (delete bIdx tiles)
                Hnd Hall Href Hth) as (Hall2 & Hg2 & Hth2 & Hc2 & Hh2).
    cbn [writeHand writeCell fst snd] in *.
    destruct (IH (k + 1) _ _ (placed + 1) (coords ++ [(r, c)]) o s' Hall2 Hth2 Hrun)
      as (Hc3 & Hh3 & Hm).
    rewrite Hg2 in Hm. split_and!; [| |done].
    + intros l' Hl'. by rewrite Hc3, Hc2.
    + intros l' Hl'. by rewrite Hh3, Hh2.
Qed.

Lemma indexOf_lookup ch tiles idx :
  indexOf ch tiles = Some idx → tiles !! idx = Some ch.
Proof.
  revert idx. induction tiles as [|t tiles IH]; intros idx; [done|].
  cbn [indexOf]. case_decide as Ht.
  - intros [= <-]. by subst.
  - destruct (indexOf ch tiles) as [i|]; [|done]. intros [= <-]. by apply IH.
Qed.

Lemma canSupply_cons u n tiles needs idx :
  tiles !! idx = Some u → u = n ∨ u = "*"%char →
  canSupply (delete idx tiles) needs → canSupply tiles (n :: needs).
Proof.
  intros Hidx Hu (used & Hsub & Hf). exists (u :: used). split.
  - rewrite (delete_Permutation tiles idx u Hidx). by apply submseteq_skip.
  - by constructor.
Qed.

Lemma needed_ext g g1 items :
  (∀ it, it ∈ items → lettered g1 it.1.1 it.1.2 = lettered g it.1.1 it.1.2) →
  needed g1 items = needed g items.
Proof.
  unfold needed. induction items as [|it items IH]; intros Hext; [done|].
  cbn [omap list_omap]. rewrite (Hext it) by by left.
  rewrite IH; [done|]. intros it' Hit. apply Hext. by right.
Qed.

(** What an accepted overlay implies, on values: no lettered cell under the
    word disagrees with it, the hand can supply the letters for the empty
    cells, one tile is placed per empty cell, and the scratch grid is the
    grid with exactly those letters laid on it. *)
Lemma overlayItems_placed items turn :
  NoDup items.*1 →
  ∀ g tiles placed coords g' tiles' placed' coords',
    overlayItems items g tiles turn placed coords
    = PPlaced g' tiles' placed' coords' →
    (∀ r c ch cell x, (r, c, ch) ∈ items → cellAt g r c = Some cell →
                      letter cell = Some x → x = ch)
    ∧ canSupply tiles (needed g items)
    ∧ placed' = placed + Z.of_nat (length (needed g items))
    ∧ overlaid g g' items turn.
Proof.
  induction items as [|[[r0 c0] ch0] items IH];
    intros Hnd g tiles placed coords g' tiles' placed' coords' Hrun.
  - cbn in Hrun. injection Hrun as <- <- <- <-. split_and!.
    + intros r c ch cell x Hin. by apply elem_of_nil in Hin.
    + exists []. split; [apply submseteq_nil_l|constructor].
    + cbn. lia.
    + split; [done|]. intros r c ch cell Hin. by apply elem_of_nil in Hin.
  - cbn [fmap list_fmap fst] in Hnd. apply NoDup_cons in Hnd as [Hp Hnd].
    cbn [overlayItems fst snd] in Hrun.
    destruct (cellAt g r0 c0) as [cell0|] eqn:Hcell0; [|done].
    assert (∀ ch, (r0, c0, ch) ∉ items) as Hp'.
    { intros ch Hin. apply Hp.
      by apply (list_elem_of_fmap_2 fst) in Hin. }
    destruct (letter cell0) as [x0|] eqn:Hl0.
    + (* the cell holds a letter already *)
      case_decide as Hx; [done|]. subst x0.
      destruct (IH Hnd _ _ _ _ _ _ _ _ Hrun) as (H1 & H2 & H3 & [H4 H5]).
      assert (lettered g r0 c0 = true) as Hlet.
      { unfold lettered. rewrite Hcell0. unfold hasLetter. by rewrite Hl0. }
      assert (needed g ((r0, c0, ch0) :: items) = needed g items) as ->.
      { unfold needed. cbn [omap list_omap fst snd]. by rewrite Hlet. }
      split_and!; [|done|done|split].
      * intros r c ch cell x Hin Hc Hlx.
        apply elem_of_cons in Hin as [[= -> -> ->]|Hin]; [|by eapply H1].
        congruence.
      * intros r c Hrc. apply H4. intros Hin. apply Hrc.
        cbn [fmap list_fmap fst]. by right.
      * intros r c ch cell Hin Hc.
        apply elem_of_cons in Hin as [[= -> -> ->]|Hin]; [|by eapply H5].
        rewrite Hcell0 in Hc. injection Hc as <-. split.
        -- intros _. by rewrite H4.
        -- unfold hasLetter. by rewrite Hl0.
    + (* the cell is empty: a tile of the hand goes there *)
      assert (lettered g r0 c0 = false) as Hlet.
      { unfold lettered. rewrite Hcell0. unfold hasLetter. by rewrite Hl0. }
      assert (∃ idx u blank,
                tiles !! idx = Some u ∧ (u = ch0 ∨ u = "*"%char)
                ∧ overlayItems items (updCell g r0 c0 (placeTile ch0 blank turn))
                    (delete idx tiles) turn (placed + 1) (coords ++ [(r0, c0)])
                  = PPlaced g' tiles' placed' coords') as (idx & u & blank & Hidx & Hu & Hrun').
      { destruct (indexOf ch0 tiles) as [idx|] eqn:Hi.
        - exists idx, ch0, false. split_and!; [by apply indexOf_lookup|by left|done].
        - destruct (indexOf "*"%char tiles) as [bIdx|] eqn:Hb; [|done].
          exists bIdx, "*"%char, true.
          split_and!; [by apply indexOf_lookup|by right|done]. }
      clear Hrun. set (g1 := updCell g r0 c0 (placeTile ch0 blank turn)) in *.
      destruct (IH Hnd _ _ _ _ _ _ _ _ Hrun') as (H1 & H2 & H3 & [H4 H5]).
      assert (∀ r c, (r, c) ≠ (r0, c0) → cellAt g1 r c = cellAt g r c) as Hne.
      { intros r c Hrc. unfold g1. by apply cellAt_updCell_ne. }
      assert (needed g1 items = needed g items) as Hneed.
      { apply needed_ext. intros [[r c] ch] Hin. cbn [fst snd]. unfold lettered.
        rewrite Hne; [done|]. intros [= -> ->]. by eapply Hp'. }
      assert (needed g ((r0, c0, ch0) :: items) = ch0 :: needed g items) as ->.
      { unfold needed. cbn [omap list_omap fst snd]. by rewrite Hlet. }
      rewrite Hneed in *.
      split_and!; [| | |split].
      * intros r c ch cell x Hin Hc Hlx.
        apply elem_of_cons in Hin as [[= -> -> ->]|Hin]; [congruence|].
        eapply H1; [done| |done]. rewrite Hne; [done|].
        intros [= -> ->]. by eapply Hp'.
      * by eapply canSupply_cons.
      * cbn [length]. lia.
      * intros r c Hrc. cbn [fmap list_fmap fst] in Hrc.
        apply not_elem_of_cons in Hrc as [Hrc1 Hrc2]. by rewrite H4, Hne.
      * intros r c ch cell Hin Hc.
        apply elem_of_cons in Hin as [[= -> -> ->]|Hin].
        -- rewrite Hcell0 in Hc. injection Hc as <-. split.
           ++ unfold hasLetter. by rewrite Hl0.
           ++ intros _. exists blank. rewrite H4 by done. unfold g1.
              by rewrite cellAt_updCell_eq, Hcell0.
        -- eapply H5; [done|]. rewrite Hne; [done|].
           intros [= -> ->]. by eapply Hp'.
Qed.

Lemma cellAt_wf g r c : wfGrid g → inBoard r c = true → is_Some (cellAt g r c).
Proof.
  intros [Hlen Hrows] Hin. unfold inBoard in Hin.
  rewrite !andb_true_iff, !bool_decide_eq_true in Hin. unfold cellAt.
  rewrite !bool_decide_eq_true_2 by lia. cbn [andb].
  destruct (lookup_lt_is_Some_2 g (Z.to_nat r)) as [cells Hcells]; [lia|].
  rewrite Hcells. cbn. apply lookup_lt_is_Some_2.
  rewrite Forall_lookup in Hrows. rewrite (Hrows _ _ Hcells). lia.
Qed.

Lemma wfGrid_updCell g r c f : wfGrid g → wfGrid (updCell g r c f).
Proof.
  intros [Hlen Hrows]. unfold updCell.
  destruct (bool_decide (0 ≤ r) && bool_decide (0 ≤ c)); [|done]. split.
  - by rewrite length_alter.
  - apply Forall_alter; [done|]. intros cells _ Hc. by rewrite length_alter.
Qed.

Lemma overlayItems_no_throw items turn g tiles placed coords :
  wfGrid g → Forall (λ it : Z * Z * ascii, inBoard it.1.1 it.1.2 = true) items →
  overlayItems items g tiles turn placed coords ≠ PThrown.
Proof.
  intros Hwf Hall. revert g tiles placed coords Hwf.
  induction Hall as [|[[r c] ch] items Hin _ IH]; intros g tiles placed coords Hwf;
    [done|].
  cbn [overlayItems fst snd] in *.
  destruct (cellAt_wf g r c Hwf Hin) as [cell ->].
  destruct (letter cell); [case_decide; [done|by apply IH]|].
  destruct (indexOf ch tiles); [by apply IH, wfGrid_updCell|].
  destruct (indexOf "*"%char tiles); [by apply IH, wfGrid_updCell|done].
Qed.

(** the positions of the word's letters *)
Lemma itemsFrom_pos dir startR startC k chars r c ch :
  (r, c, ch) ∈ itemsFrom dir startR startC k chars →
  ∃ j, k ≤ j < k + Z.of_nat (length chars) ∧ (r, c) = posOf dir startR startC j.
Proof.
  revert k. induction chars as [|x chars IH]; intros k Hin.
  - by apply elem_of_nil in Hin.
  - cbn [itemsFrom] in Hin. apply elem_of_cons in Hin as [[= Hr Hc ->]|Hin].
    + exists k. cbn [length]. split; [lia|]. unfold posOf. by rewrite Hr, Hc.
    + destruct (IH _ Hin) as (j & Hj & Hp). exists j. cbn [length]. split; [lia|done].
Qed.

Lemma itemsFrom_NoDup dir startR startC k chars :
  NoDup (itemsFrom dir startR startC k chars).*1.
Proof.
  revert k. induction chars as [|x chars IH]; intros k; [constructor|].
  cbn [itemsFrom fmap list_fmap fst]. apply NoDup_cons. split; [|apply IH].
  intros Hin. apply list_elem_of_fmap in Hin as ([[r c] ch] & Hp & Hin).
  destruct (itemsFrom_pos _ _ _ _ _ _ _ _ Hin) as (j & Hj & Hrc).
  cbn [fst] in Hp. rewrite Hrc in Hp. unfold posOf in Hp.
  destruct dir; injection Hp; lia.
Qed.

Lemma itemsFrom_inBoard (dir : Dir) startR startC chars :
  0 ≤ startR → 0 ≤ startC →
  match dir with
  | H => startR < BOARD_SIZE ∧ startC + Z.of_nat (length chars) ≤ BOARD_SIZE
  | V => startC < BOARD_SIZE ∧ startR + Z.of_nat (length chars) ≤ BOARD_SIZE
  end →
  Forall (λ it : Z * Z * ascii, inBoard it.1.1 it.1.2 = true)
         (itemsFrom dir startR startC 0 chars).
Proof.
  intros HR HC Hb. apply Forall_forall. intros [[r c] ch] Hin.
  destruct (itemsFrom_pos _ _ _ _ _ _ _ _ Hin) as (j & Hj & Hrc).
  cbn [fst snd]. unfold posOf in Hrc. unfold inBoard.
  rewrite !andb_true_iff, !bool_decide_eq_true.
  destruct dir; injection Hrc as -> ->; lia.
Qed.

Lemma preserved_deref s s' g :
  preserved s s' → Forall (Forall (λ l, is_Some (cellObjs s !! l))) g →
  derefGrid s' g = derefGrid s g.
Proof.
  intros [Hc _] Hall. unfold derefGrid.
  induction Hall as [|row rows Hrow _ IH]; [done|]. cbn [map]. f_equal; [|done].
  induction Hrow as [|l row [cell Hl] _ IH']; [done|]. cbn [map].
  rewrite Hl, (Hc _ _ Hl). by f_equal.
Qed.

Lemma derefGrid_wf s g :
  length g = Z.to_nat BOARD_SIZE →
  Forall (λ refs : list nat, length refs = Z.to_nat BOARD_SIZE) g →
  wfGrid (derefGrid s g).
Proof.
  intros Hlen Hrows. unfold derefGrid. split; [by rewrite List.length_map|].
  clear Hlen. induction Hrows as [|row rows Hrow _ IH]; [constructor|].
  cbn [map]. constructor; [by rewrite List.length_map|done].
Qed.

Lemma length_chars word :
  length (list_ascii_of_string word) = String.length word.
Proof. induction word as [|x w IH]; [done|]. simpl. by rewrite IH. Qed.

(** the value the function returns once the overlay loop has ended *)
Lemma evaluatePlacement_unfold st word pivotIdx ar ac dir s :
  let start := startOf dir pivotIdx ar ac in
  let len := Z.of_nat (String.length word) in
  let c := cloneGrid (sr_grid st) s in
  let h := newHand (default [] (handObjs c.2 !! sr_cpuHand st)) c.2 in
  let o := overlay (list_ascii_of_string word) 0 c.1 h.1 start.1 start.2 dir
             (sr_turnCount st) 0 [] h.2 in
  evaluatePlacement st word pivotIdx ar ac dir s
  = if bool_decide (start.1 < 0) || bool_decide (start.2 < 0)
       || bool_decide (dir = H) && bool_decide (BOARD_SIZE < start.2 + len)
       || bool_decide (dir = V) && bool_decide (BOARD_SIZE < start.1 + len)
    then (Some (-1), s)
    else
      (match o.1 with
       | Thrown => None
       | Rejected => Some (-1)
       | Placed placedCount coords =>
           if bool_decide (placedCount = 0) then Some (-1)
           else if validatePlacementRules (derefGrid o.2 c.1) (sr_gameMode st)
                     (sr_placementMode st) (sr_dictionary st)
           then Some (calculateScrabbleScore (derefGrid o.2 c.1) coords
                      + score (calculateChainScore
                          (analyzeBoardLogic (derefGrid o.2 c.1) (sr_dictionary st)
                             (sr_placementMode st)).1
                          (analyzeBoardLogic (derefGrid o.2 c.1) (sr_dictionary st)
                             (sr_placementMode st)).2
                          (sr_turnCount st)))
           else Some (-1)
       end, o.2).
Proof.
  intros start len c h o. unfold evaluatePlacement.
  fold (startOf dir pivotIdx ar ac). fold start.
  change (match dir with H => ar | V => ar - pivotIdx end) with start.1.
  change (match dir with H => ac - pivotIdx | V => ac end) with start.2.
  fold len.
  destruct (bool_decide (start.1 < 0) || bool_decide (start.2 < 0)); [done|].
  destruct (bool_decide (dir = H) && bool_decide (BOARD_SIZE < start.2 + len)); [done|].
  destruct (bool_decide (dir = V) && bool_decide (BOARD_SIZE < start.1 + len)); [done|].
  cbn [orb]. unfold bind at 1. fold c. destruct c as [refs s1] eqn:Hc. cbn [fst snd] in *.
  unfold bind at 1. unfold readHand at 1. unfold bind at 1.
  fold h. destruct h as [th s2] eqn:Hh. cbn [fst snd] in *.
  unfold bind at 1. fold o. destruct o as [[| |placedCount coords] s3] eqn:Ho;
    cbn [fst snd]; try done.
  case_bool_decide; [done|]. unfold bind, readGrid.
  destruct (validatePlacementRules _ _ _ _); [|done].
  by destruct (analyzeBoardLogic _ _ _).
Qed.

(** C8: for every candidate (word, pivot, anchor on the board, orientation),
    in a session whose board and hands live in the store, [evaluatePlacement]
    returns a number and leaves every object that existed before the call
    as it was, so the session's real board and both hands read the same
    afterwards: it writes only to the cells and the hand it cloned.  It
    returns -1 whenever the word runs off the board, a lettered cell under
    the word holds another letter, the hand (with wildcards) cannot supply
    the letters for the empty cells, no new letter would be placed, or the
    board with the word laid on it fails validation. *)
Theorem evaluatePlacement_scratch_copy (st : StateRef) (word : string)
    (pivotIdx ar ac : Z) (dir : Dir) (s : Store) :
  storeOk s → sessionOk st s → inBoard ar ac = true →
  let real := derefGrid s (sr_grid st) in
  let tiles := default [] (handObjs s !! sr_cpuHand st) in
  let result := evaluatePlacement st word pivotIdx ar ac dir s in
  preserved s result.2
  ∧ derefGrid result.2 (sr_grid st) = real
  ∧ handObjs result.2 !! sr_cpuHand st = handObjs s !! sr_cpuHand st
  ∧ handObjs result.2 !! sr_playerHand st = handObjs s !! sr_playerHand st
  ∧ ∃ v, result.1 = Some v
         ∧ (infeasible st real tiles (wordItems word pivotIdx ar ac dir) → v = -1).
Proof.
  intros Hok (Hlen & Hrows & Halloc & Hcpu & Hplayer) Hanchor real tiles result.
  assert (preserved s result.2 →
          derefGrid result.2 (sr_grid st) = real
          ∧ handObjs result.2 !! sr_cpuHand st = handObjs s !! sr_cpuHand st
          ∧ handObjs result.2 !! sr_playerHand st = handObjs s !! sr_playerHand st)
    as Hframe.
  { intros Hp. split_and!.
    - by apply preserved_deref.
    - destruct Hcpu as [t Ht]. rewrite Ht. by apply Hp.
    - destruct Hplayer as [t Ht]. rewrite Ht. by apply Hp. }
  cut (preserved s result.2
       ∧ ∃ v, result.1 = Some v
              ∧ (infeasible st real tiles (wordItems word pivotIdx ar ac dir)
                 → v = -1)).
  { intros [Hp Hv]. split; [done|]. destruct (Hframe Hp) as (? & ? & ?). done. }
  clear Hframe. unfold result. rewrite evaluatePlacement_unfold. cbv zeta.
  set (start := startOf dir pivotIdx ar ac).
  set (chars := list_ascii_of_string word).
  destruct (bool_decide (start.1 < 0) || bool_decide (start.2 < 0)
            || bool_decide (dir = H)
               && bool_decide (BOARD_SIZE < start.2 + Z.of_nat (String.length word))
            || bool_decide (dir = V)
               && bool_decide (BOARD_SIZE < start.1 + Z.of_nat (String.length word)))
    eqn:Hbounds.
  { cbn [fst snd]. split; [apply preserved_refl|]. by exists (-1). }
  (* the word fits on the board *)
  assert (Forall (λ it : Z * Z * ascii, inBoard it.1.1 it.1.2 = true)
                 (wordItems word pivotIdx ar ac dir)) as Hfit.
  { unfold wordItems. fold start. fold chars.
    rewrite !orb_false_iff, !andb_false_iff, !bool_decide_eq_false in Hbounds.
    destruct Hbounds as [[[Hr Hc] HH] HV].
    unfold inBoard in Hanchor.
    rewrite !andb_true_iff, !bool_decide_eq_true in Hanchor.
    apply itemsFrom_inBoard; [lia|lia|].
    unfold chars. rewrite length_chars. subst start. unfold startOf in *.
    destruct dir; cbn [fst snd] in *.
    - destruct HH as [HH|HH]; [done|]. lia.
    - destruct HV as [HV|HV]; [done|]. lia. }
  (* the clone *)
  pose proof (cloneGrid_spec (sr_grid st) s Hok Halloc) as Hcl.
  destruct (cloneGrid (sr_grid st) s) as [refs s1]. cbn [fst snd] in *.
  pose proof Hcl as (Hp1 & Hh1 & Hn1 & Hok1 & _ & _ & Hnd & _).
  rewrite Hh1. fold tiles.
  set (s2 := (newHand tiles s1).2). set (th := (newHand tiles s1).1).
  assert (handObjs s2 !! th = Some tiles) as Hth by apply lookup_insert_eq.
  assert (Forall (λ l, is_Some (cellObjs s2 !! l)) (concat refs)) as Hall2
    by exact (cloned_allocated _ _ _ _ Hcl).
  destruct (overlay chars 0 refs th start.1 start.2 dir (sr_turnCount st) 0 [] s2)
    as [o s3] eqn:Hrun.
  destruct (overlay_sim refs th start.1 start.2 dir (sr_turnCount st) chars Hnd
              0 s2 tiles 0 [] o s3 Hall2 Hth Hrun) as (Hc3 & Hh3 & Hsim).
  cbn [fst snd].
  assert (derefGrid s2 refs = real) as Hreal by exact (cloned_deref _ _ _ _ Hcl).
  rewrite Hreal in Hsim.
  change (itemsFrom dir start.1 start.2 0 chars)
    with (wordItems word pivotIdx ar ac dir) in Hsim.
  split.
  - (* nothing that existed is written *)
    split.
    + intros l cell Hl. rewrite Hc3.
      * by apply Hp1.
      * intros Hin. apply list_elem_of_In in Hin.
        rewrite (cloned_fresh _ _ _ _ l Hok Hcl Hin) in Hl. done.
    + intros l t Hl. rewrite Hh3.
      * unfold s2. cbn. rewrite lookup_insert_ne; [by rewrite Hh1|].
        intros <-. rewrite Hn1 in Hl. rewrite (proj2 Hok) in Hl; [done|lia].
      * intros ->. unfold th in Hl. cbn in Hl. rewrite Hn1 in Hl.
        rewrite (proj2 Hok) in Hl; [done|lia].
  - (* the value *)
    pose proof (overlayItems_no_throw (wordItems word pivotIdx ar ac dir)
                  (sr_turnCount st) real tiles 0 []
                  (derefGrid_wf s _ Hlen Hrows) Hfit) as Hnothrow.
    destruct (overlayItems (wordItems word pivotIdx ar ac dir) real tiles
                (sr_turnCount st) 0 []) as [| |g' tiles' p' c'] eqn:Hpure;
      [done| |].
    { destruct o; cbn in Hsim; try done. by exists (-1). }
    destruct o as [| |placedCount coords]; cbn in Hsim; try done.
    destruct Hsim as (-> & -> & Hg').
    destruct (overlayItems_placed (wordItems word pivotIdx ar ac dir)
                (sr_turnCount st)
                (itemsFrom_NoDup _ _ _ _ _) _ _ _ _ _ _ _ _ Hpure)
      as (Hmatch & Hsupply & Hcount & Hover).
    destruct (bool_decide (p' = 0)) eqn:Hzero; [by exists (-1)|].
    apply bool_decide_eq_false in Hzero.
    rewrite Hg'.
    destruct (validatePlacementRules g' _ _ _) eqn:Hvalid; [|by exists (-1)].
    eexists. split; [done|].
    intros [(it & Hin & Hout)|[(r & c & ch & cell & x & Hin & Hcell & Hx & Hne)
                               |[Hno|[Hnone|Hinv]]]].
    + rewrite Forall_forall in Hfit. rewrite (Hfit _ Hin) in Hout. done.
    + destruct Hne. by eapply Hmatch.
    + done.
    + rewrite Hnone in Hcount. simpl in Hcount. lia.
    + rewrite (Hinv g' Hover) in Hvalid. done.
Qed.

Lemma storeOf_ok g cpuTiles playerTiles :
  length (concat g) = 121%nat → storeOk (storeOf g cpuTiles playerTiles).
Proof.
  intros Hlen. split; intros l Hl; unfold storeOf in *;
    cbn [cellObjs handObjs nextCell nextHand] in *.
  - apply not_elem_of_list_to_map_1. rewrite fst_zip by (rewrite length_seq; lia).
    rewrite elem_of_seq. lia.
  - apply not_elem_of_list_to_map_1. cbn [fmap list_fmap fst]. intros Hin.
    repeat (apply elem_of_cons in Hin as [->|Hin]; [lia|]).
    by apply elem_of_nil in Hin.
Qed.

(** C8 on the CAT/HAT board: HAT laid down from the C of CAT is rejected,
    and the board reads as before. *)
Lemma evaluatePlacement_scratch_copy_witness :
  (evaluatePlacement searchState "HAT" 0 4 3 V searchStore).1 = Some (-1)
  ∧ derefGrid (evaluatePlacement searchState "HAT" 0 4 3 V searchStore).2 gridRefs
    = boardCatHat.
Proof.
  destruct (evaluatePlacement_scratch_copy searchState "HAT" 0 4 3 V searchStore)
    as (_ & Hgrid & _ & _ & v & Hv & Hreject).
  - by apply storeOf_ok.
  - split_and!.
    + reflexivity.
    + repeat constructor.
    + apply (bool_decide_unpack _). by vm_compute.
    + by eexists.
    + by eexists.
  - reflexivity.
  - split.
    + rewrite Hv. f_equal. apply Hreject. right. left.
      exists 4, 3, "H"%char.
      exists (default emptyCell (cellAt boardCatHat 4 3)), "C"%char.
      split_and!; [by left|by vm_compute|reflexivity|done].
    + etrans; [exact Hgrid|]. by vm_compute.
Defined.

(** An accepted candidate: CAT laid down from the C of CAT takes A and T
    from the scratch hand, scores 5 base points plus the outcome 6 of the
    replayed chain, and the session's hand still holds its four tiles. *)
Example evaluatePlacement_accepts :
  (evaluatePlacement searchState "CAT" 0 4 3 V searchStore).1 = Some 11
  ∧ handObjs (evaluatePlacement searchState "CAT" 0 4 3 V searchStore).2 !! 0%nat
    = Some ["A"; "T"; "*"; "E"]%char.
Proof. by vm_compute. Qed.

End SearchFacts.

(** * Properties of the placement rules, rule by rule *)

Module RuleFacts.
Import Board Validation Spec Examples.
Import ValidationFacts ScanFacts.

Lemma checkLineFrom_run dict gameMode run rest w meta :
  Forall (λ cell, hasLetter cell = true) run →
  checkLineFrom dict gameMode (run ++ rest) w meta
  = checkLineFrom dict gameMode rest (w +:+ wordOfRun run) (meta ++ map isLocked run).
Proof.
  intros Hrun. revert w meta.
  induction Hrun as [|cell run Hcell _ IH]; intros w meta.
  - simpl. unfold wordOfRun. simpl. by rewrite app_empty, app_nil_r.
  - unfold hasLetter in Hcell. cbn [app checkLineFrom].
    destruct (letter cell) as [l|] eqn:Hl; [|done].
    rewrite IH. unfold wordOfRun. cbn [omap list_omap]. rewrite Hl.
    cbn [string_of_list_ascii map]. by rewrite app_snoc, <- app_assoc.
Qed.

Lemma checkLineFrom_break dict gameMode before rest w meta :
  (∃ cell, last before = Some cell ∧ hasLetter cell = false) →
  checkLineFrom dict gameMode (before ++ rest) w meta = true →
  checkLineFrom dict gameMode rest "" [] = true.
Proof.
  revert w meta. induction before as [|cell before IH]; intros w meta Hlast.
  - by destruct Hlast as (? & ? & ?).
  - destruct Hlast as (cl & Hlast & Hcl). cbn [app checkLineFrom].
    destruct before as [|cell' before].
    + simpl in Hlast. injection Hlast as ->. unfold hasLetter in Hcl.
      destruct (letter cl); [done|]. simpl. by intros [_ ?]%andb_true_iff.
    + assert (∃ x, last (cell' :: before) = Some x ∧ hasLetter x = false) as Hl'
        by (exists cl; done).
      destruct (letter cell).
      * by apply IH.
      * intros [_ ?]%andb_true_iff. by eapply IH.
Qed.

Lemma checkLine_at_run dict gameMode cells before run after :
  maximalRun cells before run after →
  checkLine dict gameMode cells = true →
  wordOk dict gameMode (wordOfRun run) (map isLocked run) = true.
Proof.
  intros (-> & Hrun & Hbefore & Hafter) Hline. unfold checkLine in Hline.
  assert (checkLineFrom dict gameMode (run ++ after) "" [] = true) as Hrest.
  { destruct (last before) as [cell|] eqn:Hlast.
    - eapply checkLineFrom_break; [|exact Hline]. exists cell. eauto.
    - apply last_None in Hlast. by subst before. }
  rewrite checkLineFrom_run in Hrest by done.
  change ("" +:+ wordOfRun run) with (wordOfRun run) in Hrest.
  change ([] ++ map isLocked run) with (map isLocked run) in Hrest.
  destruct after as [|cell after]; [done|].
  specialize (Hafter cell eq_refl). unfold hasLetter in Hafter.
  cbn [checkLineFrom] in Hrest. destruct (letter cell); [done|].
  by apply andb_true_iff in Hrest as [? _].
Qed.

Lemma valid_line grid gameMode placementMode dict cells :
  wfGrid grid → scannedLine grid cells →
  validatePlacementRules grid gameMode placementMode (Some dict) = true →
  checkLine dict gameMode cells = true.
Proof.
  intros [Hlen _] Hline Hv. unfold validatePlacementRules in Hv.
  rewrite !andb_true_iff in Hv. destruct Hv as [[[_ _] Hrows] Hcols].
  rewrite forallb_forall in Hrows, Hcols.
  destruct Hline as [Hrow|(c & Hc & ->)].
  - apply list_elem_of_lookup in Hrow as [i Hi].
    assert (i < 11)%nat as Hlt.
    { apply lookup_lt_Some in Hi. rewrite Hlen in Hi. by vm_compute in Hi. }
    specialize (Hrows (Z.of_nat i)). rewrite Nat2Z.id, Hi in Hrows.
    apply Hrows, list_elem_of_In, indices_spec. unfold BOARD_SIZE. lia.
  - by apply Hcols, list_elem_of_In.
Qed.

Lemma lockedRunOk_spec meta n :
  0 ≤ n → lockedRunOk n meta = true →
  (1 ≤ n → head meta ≠ Some true)
  ∧ ∀ i, meta !! i = Some true → meta !! S i = Some true → False.
Proof.
  revert n. induction meta as [|b meta IH]; intros n Hn Hok; [done|].
  cbn [lockedRunOk] in Hok. destruct b.
  - destruct (bool_decide (1 < n + 1)) eqn:Hlt; [done|].
    apply bool_decide_eq_false in Hlt. assert (n = 0) as -> by lia.
    destruct (IH (0 + 1) ltac:(lia) Hok) as [Hhead Hrest].
    split; [lia|]. intros [|i] Hi Hsi.
    + simpl in Hsi. apply Hhead; [lia|]. by destruct meta; simplify_eq/=.
    + by apply (Hrest i).
  - destruct (IH 0 ltac:(lia) Hok) as [_ Hrest].
    split; [done|]. intros [|i] Hi Hsi; [done|]. by apply (Hrest i).
Qed.

(** X1: on a board that passes validation every maximal run of two or more
    letters, in any row or column, spells a word of the dictionary. *)
Theorem valid_board_words grid gameMode placementMode dict cells before run after :
  wfGrid grid →
  validatePlacementRules grid gameMode placementMode (Some dict) = true →
  scannedLine grid cells → maximalRun cells before run after →
  (1 < length run)%nat →
  wordOfRun run ∈ dict.
Proof.
  intros Hwf Hv Hline Hrun Hlen.
  pose proof (checkLine_at_run dict gameMode _ _ _ _ Hrun
                (valid_line _ _ _ _ _ Hwf Hline Hv)) as Hok.
  destruct Hrun as (_ & Hlet & _). unfold wordOk in Hok.
  rewrite (wordOfRun_length run Hlet) in Hok.
  rewrite bool_decide_eq_true_2 in Hok by done.
  destruct (bool_decide (wordOfRun run ∈ dict)) eqn:Hin; [|done].
  by apply bool_decide_eq_true in Hin.
Qed.

Lemma valid_board_words_witness :
  wordOfRun (take 3 (drop 4 (column boardReplay 3))) ∈ dictCatHat.
Proof.
  apply (valid_board_words boardReplay FIXED ACROSTIC dictCatHat
           (column boardReplay 3) (take 4 (column boardReplay 3))
           (take 3 (drop 4 (column boardReplay 3))) (drop 7 (column boardReplay 3))).
  - split; [done|]. repeat constructor.
  - by vm_compute.
  - right. exists 3. split; [|done]. apply indices_spec. by vm_compute.
  - split_and!.
    + by vm_compute.
    + repeat constructor.
    + intros cell Hc. vm_compute in Hc. by simplify_eq.
    + intros cell Hc. vm_compute in Hc. by simplify_eq.
  - simpl. lia.
Defined.

(** X2: in FIXED mode a valid board has no word that puts new letters next
    to two adjacent locked ones: a run of two or more letters is locked
    throughout, or no two neighbouring cells of it are both locked. *)
Theorem fixed_mode_locked_words grid placementMode dict cells before run after :
  wfGrid grid →
  validatePlacementRules grid FIXED placementMode (Some dict) = true →
  scannedLine grid cells → maximalRun cells before run after →
  (1 < length run)%nat →
  Forall (λ cell, isLocked cell = true) run
  ∨ ∀ i a b, run !! i = Some a → run !! S i = Some b →
             isLocked a && isLocked b = false.
Proof.
  intros Hwf Hv Hline Hrun Hlen.
  pose proof (checkLine_at_run dict FIXED _ _ _ _ Hrun
                (valid_line _ _ _ _ _ Hwf Hline Hv)) as Hok.
  destruct Hrun as (_ & Hlet & _). unfold wordOk in Hok.
  rewrite (wordOfRun_length run Hlet) in Hok.
  rewrite bool_decide_eq_true_2 in Hok by done.
  destruct (bool_decide (wordOfRun run ∈ dict)); [|done].
  cbn [negb] in Hok. destruct (decide (FIXED = FIXED)); [|done].
  destruct (existsb negb (map isLocked run)) eqn:Hun.
  - right. intros i a b Ha Hb.
    destruct (lockedRunOk_spec _ 0 ltac:(done) Hok) as [_ Hno].
    destruct (isLocked a) eqn:Hla, (isLocked b) eqn:Hlb; try done.
    exfalso. apply (Hno i); rewrite list_lookup_fmap.
    + by rewrite Ha; simpl; rewrite Hla.
    + by rewrite Hb; simpl; rewrite Hlb.
  - left. apply Forall_forall. intros cell Hin.
    destruct (isLocked cell) eqn:Hl; [done|]. exfalso.
    assert (existsb negb (map isLocked run) = true) as Hex; [|congruence].
    apply existsb_exists. exists false. split; [|done].
    apply in_map_iff. exists cell. split; [done|]. by apply list_elem_of_In.
Qed.

Lemma fixed_mode_locked_words_witness :
  Forall (λ cell, isLocked cell = true) (take 3 (drop 4 (column boardReplay 3)))
  ∨ ∀ i a b, take 3 (drop 4 (column boardReplay 3)) !! i = Some a →
             take 3 (drop 4 (column boardReplay 3)) !! S i = Some b →
             isLocked a && isLocked b = false.
Proof.
  apply (fixed_mode_locked_words boardReplay ACROSTIC dictCatHat
           (column boardReplay 3) (take 4 (column boardReplay 3))
           (take 3 (drop 4 (column boardReplay 3))) (drop 7 (column boardReplay 3))).
  - split; [done|]. repeat constructor.
  - by vm_compute.
  - right. exists 3. split; [|done]. apply indices_spec. by vm_compute.
  - split_and!.
    + by vm_compute.
    + repeat constructor.
    + intros cell Hc. vm_compute in Hc. by simplify_eq.
    + intros cell Hc. vm_compute in Hc. by simplify_eq.
  - simpl. lia.
Defined.

(** X3: a valid board has no isolated tile: every lettered cell has a
    lettered orthogonal neighbour on the board.  In particular a move of a
    single tile on an empty board is never valid. *)
Theorem valid_board_no_isolated_tile grid gameMode placementMode dictionary r c :
  validatePlacementRules grid gameMode placementMode dictionary = true →
  inBoard r c = true → lettered grid r c = true →
  ∃ n, n ∈ neighbors (r, c) ∧ inBoard n.1 n.2 = true ∧ lettered grid n.1 n.2 = true.
Proof.
  intros Hv Hin Hl. destruct dictionary as [dict|]; [|done].
  unfold validatePlacementRules in Hv. rewrite !andb_true_iff in Hv.
  destruct Hv as [[[Hiso _] _] _]. unfold isolationOk in Hiso.
  rewrite forallb_forall in Hiso.
  specialize (Hiso (r, c) (proj1 (list_elem_of_In _ _) (proj2 (coords_spec r c) Hin))).
  cbv beta iota in Hiso. rewrite Hl in Hiso.
  unfold inBoard in Hin. rewrite !andb_true_iff, !bool_decide_eq_true in Hin.
  unfold BOARD_SIZE in *.
  apply negb_true_iff, andb_false_iff in Hiso.
  rewrite !negb_false_iff, !orb_true_iff, !andb_true_iff, !bool_decide_eq_true in Hiso.
  unfold neighbors, inBoard, BOARD_SIZE. cbn [fst snd].
  destruct Hiso as [[[? ?]|[? ?]]|[[? ?]|[? ?]]].
  - exists (r, c - 1). split; [apply list_elem_of_In; simpl; tauto|]. cbn [fst snd]. split; [|done].
    rewrite !andb_true_iff, !bool_decide_eq_true. lia.
  - exists (r, c + 1). split; [apply list_elem_of_In; simpl; tauto|]. cbn [fst snd]. split; [|done].
    rewrite !andb_true_iff, !bool_decide_eq_true. lia.
  - exists (r - 1, c). split; [apply list_elem_of_In; simpl; tauto|]. cbn [fst snd]. split; [|done].
    rewrite !andb_true_iff, !bool_decide_eq_true. lia.
  - exists (r + 1, c). split; [apply list_elem_of_In; simpl; tauto|]. cbn [fst snd]. split; [|done].
    rewrite !andb_true_iff, !bool_decide_eq_true. lia.
Qed.

Lemma valid_board_no_isolated_tile_witness :
  ∃ n, n ∈ neighbors (5, 3) ∧ inBoard n.1 n.2 = true
       ∧ lettered boardReplay n.1 n.2 = true.
Proof.
  apply (valid_board_no_isolated_tile boardReplay FIXED ACROSTIC (Some dictCatHat) 5 3);
    by vm_compute.
Defined.

Lemma wordOk_modes dict gameMode w meta :
  wordOk dict FIXED w meta = true → wordOk dict gameMode w meta = true.
Proof.
  unfold wordOk. destruct (bool_decide (1 < String.length w)%nat); [|done].
  destruct (negb (bool_decide (w ∈ dict))); [done|].
  destruct (decide (FIXED = FIXED)); [|done].
  destruct (decide (gameMode = FIXED)); [done|].
  by destruct (existsb negb meta).
Qed.

Lemma checkLineFrom_modes dict gameMode cells w meta :
  checkLineFrom dict FIXED cells w meta = true →
  checkLineFrom dict gameMode cells w meta = true.
Proof.
  revert w meta. induction cells as [|cell cells IH]; intros w meta;
    cbn [checkLineFrom].
  - apply wordOk_modes.
  - destruct (letter cell); [apply IH|]. rewrite !andb_true_iff.
    intros [? ?]. split; [by apply wordOk_modes|by apply IH].
Qed.

(** X4: FIXED with ACROSTIC is the strictest setting: a board that passes
    validation there passes it under every game mode and placement mode. *)
Theorem validation_strictest_modes grid gameMode placementMode dictionary :
  validatePlacementRules grid FIXED ACROSTIC dictionary = true →
  validatePlacementRules grid gameMode placementMode dictionary = true.
Proof.
  destruct dictionary as [dict|]; [|done]. unfold validatePlacementRules.
  rewrite !andb_true_iff, !forallb_forall.
  intros [[[Hiso Hconn] Hrows] Hcols]. split_and!; [done|..].
  - by destruct placementMode.
  - intros r Hr. by apply checkLineFrom_modes, Hrows.
  - intros c Hc. by apply checkLineFrom_modes, Hcols.
Qed.

Lemma validation_strictest_modes_witness :
  validatePlacementRules boardReplay DYNAMIC GO (Some dictCatHat) = true.
Proof.
  apply (validation_strictest_modes boardReplay DYNAMIC GO (Some dictCatHat)).
  by vm_compute.
Defined.

End RuleFacts.

(** * Properties of the blank resolver *)

Module ResolveFacts.
Import Board Validation Spec Examples.
Import ValidationFacts ScoringFacts.

Lemma NoDup_coords : NoDup coords.
Proof. apply (bool_decide_unpack _). by vm_compute. Qed.

Lemma firstResult_Some {A B} (f : A → option B) l y :
  firstResult f l = Some y → ∃ x, x ∈ l ∧ f x = Some y.
Proof.
  induction l as [|x l IH]; [done|]. cbn [firstResult].
  destruct (f x) as [y'|] eqn:Hx.
  - intros [= ->]. exists x. split; [left|done].
  - intros (x' & Hin & Hx')%IH. exists x'. split; [by right|done].
Qed.

Lemma firstResult_None {A B} (f : A → option B) l :
  firstResult f l = None → ∀ x, x ∈ l → f x = None.
Proof.
  induction l as [|x l IH]; cbn [firstResult]; [by intros _ ? ?%elem_of_nil|].
  destruct (f x) eqn:Hx; [done|]. intros Hrest y [->|Hin]%elem_of_cons; auto.
Qed.

Lemma trySolve_sound gameMode placementMode dictionary blanks g g' :
  trySolve gameMode placementMode dictionary blanks g = Some g' →
  validatePlacementRules g' gameMode placementMode dictionary = true
  ∧ ∃ letters, Forall (λ ch, ch ∈ alphabet) letters
               ∧ length letters = length blanks
               ∧ g' = fillBlanks g blanks letters.
Proof.
  revert g. induction blanks as [|[r c] blanks IH]; intros g; cbn [trySolve].
  - destruct (validatePlacementRules g _ _ _) eqn:Hv; [|done].
    intros [= <-]. split; [done|]. by exists [].
  - intros (ch & Hch & Hrec)%firstResult_Some.
    destruct (IH _ Hrec) as (Hv & letters & Hall & Hlen & ->).
    split; [done|]. exists (ch :: letters). split_and!; [by constructor|simpl; lia|done].
Qed.

Lemma trySolve_complete gameMode placementMode dictionary blanks g letters :
  trySolve gameMode placementMode dictionary blanks g = None →
  Forall (λ ch, ch ∈ alphabet) letters → length letters = length blanks →
  validatePlacementRules (fillBlanks g blanks letters) gameMode placementMode
    dictionary = false.
Proof.
  revert g letters. induction blanks as [|[r c] blanks IH]; intros g letters;
    cbn [trySolve].
  - destruct letters; [|done]. cbn [fillBlanks].
    by destruct (validatePlacementRules g _ _ _).
  - intros Hnone Hall Hlen. destruct letters as [|ch letters]; [done|].
    apply Forall_cons in Hall as [Hch Hall]. cbn [fillBlanks].
    apply IH; [|done|simpl in Hlen; lia].
    by apply (firstResult_None _ _ Hnone ch).
Qed.

Lemma fillBlanks_outside g blanks letters r c :
  (r, c) ∉ blanks → cellAt (fillBlanks g blanks letters) r c = cellAt g r c.
Proof.
  revert g letters. induction blanks as [|[r' c'] blanks IH]; intros g letters Hnot;
    [done|].
  destruct letters as [|ch letters]; [done|]. cbn [fillBlanks].
  apply not_elem_of_cons in Hnot as [Hne Hnot].
  rewrite IH by done. by apply cellAt_updCell_ne.
Qed.

Lemma fillBlanks_inside g blanks letters r c :
  NoDup blanks → length letters = length blanks → (r, c) ∈ blanks →
  ∃ ch, ch ∈ letters
        ∧ cellAt (fillBlanks g blanks letters) r c
          = withLetter (Some ch) <$> cellAt g r c.
Proof.
  revert g letters. induction blanks as [|[r' c'] blanks IH];
    intros g letters Hnd Hlen Hin; [by apply elem_of_nil in Hin|].
  destruct letters as [|ch letters]; [done|]. cbn [fillBlanks].
  apply NoDup_cons in Hnd as [Hnotin Hnd].
  apply elem_of_cons in Hin as [[= -> ->]|Hin].
  - exists ch. split; [left|].
    by rewrite fillBlanks_outside, cellAt_updCell_eq.
  - destruct (IH (updCell g r' c' (withLetter (Some ch))) letters Hnd
                ltac:(simpl in Hlen; lia) Hin) as (ch' & Hch' & Hcell).
    exists ch'. split; [by right|]. rewrite Hcell.
    rewrite cellAt_updCell_ne; [done|]. intros [= -> ->]. done.
Qed.

Lemma NoDup_blankCoords g : NoDup (blankCoords g).
Proof.
  unfold blankCoords. apply NoDup_ListNoDup, List.NoDup_filter, NoDup_ListNoDup.
  apply NoDup_coords.
Qed.

(** X5: what the blank resolver returns passes validation, and it is the
    given board with a letter of A-Z written on each wildcard cell; no other
    cell differs. *)
Theorem resolver_sound grid gameMode placementMode dictionary resolved :
  resolveGridWithBlanks grid gameMode placementMode dictionary = Some resolved →
  validatePlacementRules resolved gameMode placementMode dictionary = true
  ∧ (∀ r c, (r, c) ∉ blankCoords grid → cellAt resolved r c = cellAt grid r c)
  ∧ (∀ r c, (r, c) ∈ blankCoords grid →
       ∃ ch cell, ch ∈ alphabet ∧ cellAt grid r c = Some cell
                  ∧ cellAt resolved r c = Some (withLetter (Some ch) cell)).
Proof.
  unfold resolveGridWithBlanks. destruct dictionary as [dict|]; [|done].
  destruct (bool_decide (length (blankCoords grid) = 0%nat)) eqn:Hlen.
  - apply bool_decide_eq_true in Hlen.
    destruct (validatePlacementRules grid _ _ _) eqn:Hv; [|done].
    intros [= <-]. split_and!; [done..|].
    intros r c Hin. apply length_zero_iff_nil in Hlen. rewrite Hlen in Hin.
    by apply elem_of_nil in Hin.
  - intros (Hv & letters & Hall & Hl & ->)%trySolve_sound.
    split_and!; [done|by intros; apply fillBlanks_outside|].
    intros r c Hin.
    destruct (fillBlanks_inside grid _ letters r c (NoDup_blankCoords grid) Hl Hin)
      as (ch & Hch & Hcell).
    apply list_elem_of_In, filter_In in Hin as [_ Hstar].
    apply bool_decide_eq_true in Hstar.
    destruct (cellAt grid r c) as [cell|] eqn:Hc; [|done].
    exists ch, cell. split_and!; [|done..].
    rewrite Forall_forall in Hall. by apply Hall.
Qed.

Lemma resolver_sound_witness :
  validatePlacementRules (putBlank 5 4 "C" (putTile 5 5 "A" true (Some 1)
      (putTile 5 6 "T" true (Some 1) generateBoard)))
    DYNAMIC ACROSTIC (Some dictTwoWords) = true.
Proof.
  assert (resolveGridWithBlanks boardWildcard DYNAMIC ACROSTIC (Some dictTwoWords)
          = Some (putBlank 5 4 "C" (putTile 5 5 "A" true (Some 1)
                    (putTile 5 6 "T" true (Some 1) generateBoard)))) as Hres
    by (by vm_compute).
  exact (proj1 (resolver_sound _ _ _ _ _ Hres)).
Defined.

(** X6: the resolver gives up only when no choice of letters works: if it
    returns nothing although a dictionary is loaded, then the board fails
    validation whichever letters of A-Z are written on its wildcards. *)
Theorem resolver_complete grid gameMode placementMode dict letters :
  resolveGridWithBlanks grid gameMode placementMode (Some dict) = None →
  Forall (λ ch, ch ∈ alphabet) letters →
  length letters = length (blankCoords grid) →
  validatePlacementRules (fillBlanks grid (blankCoords grid) letters)
    gameMode placementMode (Some dict) = false.
Proof.
  unfold resolveGridWithBlanks.
  destruct (bool_decide (length (blankCoords grid) = 0%nat)) eqn:Hlen.
  - apply bool_decide_eq_true, length_zero_iff_nil in Hlen. rewrite Hlen.
    intros Hv _ Hl. destruct letters; [|done]. cbn [fillBlanks].
    by destruct (validatePlacementRules grid _ _ _).
  - apply trySolve_complete.
Qed.

Lemma resolver_complete_witness :
  validatePlacementRules (fillBlanks boardStuck (blankCoords boardStuck) ["S"%char])
    DYNAMIC ACROSTIC (Some dictCatHat) = false.
Proof.
  apply (resolver_complete boardStuck DYNAMIC ACROSTIC dictCatHat ["S"%char]).
  - by vm_compute.
  - constructor; [|constructor]. apply list_elem_of_In. vm_compute. tauto.
  - by vm_compute.
Defined.

End ResolveFacts.

(** * Properties of assembled chains and their cascade *)

Module ChainFacts.
Import Board Logic Spec Examples.
Import CascadeFacts AssemblyFacts.

Lemma filter_const {A} (q : A → bool) (b : bool) l :
  Forall (λ x, q x = b) l → List.filter q l = if b then l else [].
Proof.
  induction 1 as [|x l Hx _ IH]; [by destruct b|].
  simpl. rewrite Hx, IH. by destruct b.
Qed.

Lemma Forall_filter_pred {A} (p : A → bool) l :
  Forall (λ x, p x = true) (List.filter p l).
Proof. apply Forall_forall. intros x Hx. by apply list_elem_of_In, filter_In in Hx as [_ ?]. Qed.

Lemma Forall_earliest p l : Forall (λ x, p x = true) (earliest p l).
Proof.
  unfold earliest. pose proof (Forall_filter_pred p l) as Hall.
  destruct (List.filter p l) as [|x rest]; [constructor|].
  apply Forall_cons in Hall as [? _]. by repeat constructor.
Qed.

(** a filter that is constant on each of the five buckets keeps or drops
    whole buckets *)
Lemma filter_specChain (q : CompiledOp → bool) (bIf bOr bThen bAdd bMod : bool) entries :
  (∀ x, opIs IF x = true → q x = bIf) →
  (∀ x, opIs OR x = true → q x = bOr) →
  (∀ x, opIs THEN x = true → q x = bThen) →
  (∀ x, isAddition x = true → q x = bAdd) →
  (∀ x, isModifier x = true → q x = bMod) →
  List.filter q (specChain entries)
  = (if bIf then earliest (opIs IF) (sortByTurn entries) else [])
    ++ (if bOr then List.filter (opIs OR) (sortByTurn entries) else [])
    ++ (if bThen then earliest (opIs THEN) (sortByTurn entries) else [])
    ++ (if bAdd then List.filter isAddition (sortByTurn entries) else [])
    ++ (if bMod then List.filter isModifier (sortByTurn entries) else []).
Proof.
  intros H1 H2 H3 H4 H5. unfold specChain. cbv zeta.
  rewrite !List.filter_app.
  rewrite (filter_const q bIf), (filter_const q bOr), (filter_const q bThen),
    (filter_const q bAdd), (filter_const q bMod); [done|..].
  - eapply Forall_impl; [apply (Forall_filter_pred isModifier)|]. apply H5.
  - eapply Forall_impl; [apply (Forall_filter_pred isAddition)|]. apply H4.
  - eapply Forall_impl; [apply Forall_earliest|]. apply H3.
  - eapply Forall_impl; [apply Forall_filter_pred|]. apply H2.
  - eapply Forall_impl; [apply Forall_earliest|]. apply H1.
Qed.

Lemma opIs_true o x : opIs o x = true ↔ op x = o.
Proof. unfold opIs. apply bool_decide_eq_true. Qed.

Ltac by_kind :=
  intros x; unfold isAddition, isModifier, isTrigger, opIs;
  destruct (op x); vm_compute; intros; congruence.

Lemma triggers_assembled i entries data :
  triggersOf (mkChain i (assembleChain entries) data)
  = earliest (opIs IF) (sortByTurn entries)
    ++ List.filter (opIs OR) (sortByTurn entries).
Proof.
  unfold triggersOf. cbn [compiledOps]. rewrite assembleChain_spec.
  rewrite (filter_specChain isTrigger true true false false false); [|by_kind..].
  by rewrite !app_nil_r.
Qed.

Lemma actions_assembled i entries data :
  actionsOf (mkChain i (assembleChain entries) data)
  = earliest (opIs THEN) (sortByTurn entries)
    ++ List.filter isAddition (sortByTurn entries)
    ++ List.filter isModifier (sortByTurn entries).
Proof.
  unfold actionsOf. cbn [compiledOps]. rewrite assembleChain_spec.
  by rewrite (filter_specChain _ false false true true true); [|by_kind..].
Qed.

Lemma cascade_additions adds rest v :
  Forall (λ x, isAddition x = true) adds →
  cascade (adds ++ rest) v true
  = cascade rest (v + foldr (λ x acc, wordScore x + acc) 0 adds) true.
Proof.
  intros Hadds. revert v. induction Hadds as [|x adds Hx _ IH]; intros v.
  - simpl. f_equal. lia.
  - cbn [app cascade foldr]. unfold isAddition, opIs in Hx.
    rewrite orb_true_iff, !bool_decide_eq_true in Hx.
    destruct Hx as [Hx|Hx]; rewrite Hx; simpl; rewrite IH; f_equal; lia.
Qed.

Lemma cascade_modifiers mods v :
  Forall (λ x, isModifier x = true) mods →
  cascade mods v true = (fold_left applyModifier mods v, true).
Proof.
  intros Hmods. revert v. induction Hmods as [|x mods Hx _ IH]; intros v; [done|].
  cbn [cascade fold_left]. unfold isModifier, opIs in Hx.
  rewrite !orb_true_iff, !bool_decide_eq_true in Hx. unfold applyModifier.
  destruct Hx as [[Hx|Hx]|Hx]; rewrite Hx; simpl; rewrite ?IH; try done.
  destruct (decide (wordScore x = 0)) as [Hz|Hz].
  - by rewrite bool_decide_eq_false_2 by (by intros ?).
  - by rewrite bool_decide_eq_true_2.
Qed.

Lemma sum_filter_Permutation (p : CompiledOp → bool) l l' :
  l ≡ₚ l' →
  foldr (λ x acc, wordScore x + acc) 0 (List.filter p l)
  = foldr (λ x acc, wordScore x + acc) 0 (List.filter p l').
Proof.
  induction 1 as [|x l l' _ IH|x y l|l l' l'' _ IH1 _ IH2]; simpl.
  - done.
  - destruct (p x); simpl; lia.
  - destruct (p x), (p y); simpl; lia.
  - lia.
Qed.

(** X7: the cascade of an assembled chain.  When the cluster has a THEN
    entry, the earliest one sets the target; every AND and PLUS of the
    cluster then adds its word score, whatever its turn, and only after
    them the modifiers apply, in turn order.  The chain pays that value once
    per replay. *)
Theorem assembled_chain_cascade entries i data t :
  earliest (opIs THEN) (sortByTurn entries) = [t] →
  cascade (actionsOf (mkChain i (assembleChain entries) data)) 0 false
  = (fold_left applyModifier (List.filter isModifier (sortByTurn entries))
       (wordScore t + additionsTotal entries), true)
  ∧ ∀ allWords currentTurn,
      score (calculateChainScore [mkChain i (assembleChain entries) data]
               allWords currentTurn)
      = fold_left applyModifier (List.filter isModifier (sortByTurn entries))
          (wordScore t + additionsTotal entries)
        * Z.of_nat (replays (mkChain i (assembleChain entries) data)
                      allWords currentTurn).
Proof.
  intros Ht.
  assert (cascade (actionsOf (mkChain i (assembleChain entries) data)) 0 false
          = (fold_left applyModifier (List.filter isModifier (sortByTurn entries))
               (wordScore t + additionsTotal entries), true)) as Hc.
  { rewrite actions_assembled, Ht.
    pose proof (Forall_earliest (opIs THEN) (sortByTurn entries)) as Hthen.
    rewrite Ht in Hthen. apply Forall_cons in Hthen as [Hthen _].
    apply opIs_true in Hthen. cbn [app cascade].
    rewrite Hthen, bool_decide_eq_true_2 by done.
    rewrite cascade_additions by apply (Forall_filter_pred isAddition).
    rewrite cascade_modifiers by apply (Forall_filter_pred isModifier).
    unfold additionsTotal.
    by rewrite (sum_filter_Permutation isAddition _ _ (sortByTurn_Permutation entries)). }
  split; [done|]. intros allWords currentTurn.
  unfold calculateChainScore. cbn [score fold_left].
  rewrite chainStep_score, Hc. cbn [fst]. lia.
Qed.

Lemma assembled_chain_cascade_witness :
  cascade (actionsOf (mkChain 1 (assembleChain entriesOrdering) [])) 0 false
  = (66, true).
Proof.
  destruct (assembled_chain_cascade entriesOrdering 1 [] (entry THEN 4 "TEN" 3))
    as [Hc _]; [by vm_compute|].
  rewrite Hc. by vm_compute.
Defined.

Lemma earliest_submseteq p l : earliest p l ⊆+ List.filter p l.
Proof.
  unfold earliest. destruct (List.filter p l) as [|x rest]; [done|].
  simpl. apply submseteq_skip, submseteq_nil_l.
Qed.

Lemma buckets_submseteq (l : list CompiledOp) :
  List.filter (opIs IF) l ++ List.filter (opIs OR) l ++ List.filter (opIs THEN) l
  ++ List.filter isAddition l ++ List.filter isModifier l ⊆+ l.
Proof.
  induction l as [|x l IH]; [done|].
  unfold isAddition, isModifier, opIs in *. cbn [List.filter].
  destruct (op x); simpl;
    rewrite <- ?Permutation_middle; by constructor.
Qed.

Lemma assembleChain_submseteq entries : assembleChain entries ⊆+ entries.
Proof.
  rewrite assembleChain_spec.
  rewrite <- (sortByTurn_Permutation entries) at 2.
  etrans; [|apply buckets_submseteq]. unfold specChain. cbv zeta.
  repeat first [apply submseteq_app; [apply earliest_submseteq|]
               |apply submseteq_app; [done|]]. done.
Qed.

(** X8: what chain assembly keeps.  The chain is made of entries of the
    cluster, none of them twice; it holds at most one IF and one THEN and no
    START; every OR, AND, PLUS and modifier of the cluster is in it; and
    its Triggers come before its Actions. *)
Theorem assembled_chain_entries entries :
  assembleChain entries ⊆+ entries
  ∧ (length (List.filter (opIs IF) (assembleChain entries)) ≤ 1)%nat
  ∧ (length (List.filter (opIs THEN) (assembleChain entries)) ≤ 1)%nat
  ∧ Forall (λ x, op x ≠ START) (assembleChain entries)
  ∧ (∀ x, x ∈ entries → op x ∉ [IF; THEN; START] → x ∈ assembleChain entries)
  ∧ assembleChain entries
    = List.filter isTrigger (assembleChain entries)
      ++ List.filter (λ x, negb (isTrigger x)) (assembleChain entries).
Proof.
  split; [apply assembleChain_submseteq|].
  rewrite assembleChain_spec. split_and!.
  - rewrite (filter_specChain (opIs IF) true false false false false); [|by_kind..].
    rewrite !app_nil_r. unfold earliest.
    by destruct (head _); simpl; lia.
  - rewrite (filter_specChain (opIs THEN) false false true false false); [|by_kind..].
    rewrite !app_nil_r. unfold earliest. simpl.
    by destruct (head _); simpl; lia.
  - unfold specChain. cbv zeta. rewrite !Forall_app. split_and!.
    + eapply Forall_impl; [apply Forall_earliest|]. by_kind.
    + eapply Forall_impl; [apply Forall_filter_pred|]. by_kind.
    + eapply Forall_impl; [apply Forall_earliest|]. by_kind.
    + eapply Forall_impl; [apply (Forall_filter_pred isAddition)|]. by_kind.
    + eapply Forall_impl; [apply (Forall_filter_pred isModifier)|]. by_kind.
  - intros x Hin Hop. unfold specChain. cbv zeta. rewrite !elem_of_app.
    assert (x ∈ sortByTurn entries) as Hs by by rewrite sortByTurn_Permutation.
    apply list_elem_of_In in Hs.
    assert (opIs OR x = true ∨ isAddition x = true ∨ isModifier x = true) as Hk.
    { unfold isAddition, isModifier, opIs.
      rewrite !orb_true_iff, !bool_decide_eq_true.
      destruct (op x); try tauto; exfalso; apply Hop;
        apply list_elem_of_In; simpl; tauto. }
    destruct Hk as [Hk|[Hk|Hk]].
    + right; left. by apply list_elem_of_In, filter_In.
    + do 3 right; left. by apply list_elem_of_In, filter_In.
    + do 4 right. by apply list_elem_of_In, filter_In.
  - rewrite (filter_specChain isTrigger true true false false false); [|by_kind..].
    rewrite (filter_specChain (λ x, negb (isTrigger x)) false false true true true).
    + unfold specChain. cbv zeta. by rewrite !app_nil_r, <- !app_assoc.
    + by_kind.
    + by_kind.
    + by_kind.
    + by_kind.
    + by_kind.
Qed.

Lemma assembled_chain_entries_witness :
  entry OR 2 "OAT" 3 ∈ assembleChain entriesOrdering.
Proof.
  destruct (assembled_chain_entries entriesOrdering) as (_ & _ & _ & _ & Hkept & _).
  apply Hkept.
  - apply list_elem_of_In. simpl. tauto.
  - intros Hin. apply list_elem_of_In in Hin. simpl in Hin.
    by destruct Hin as [?|[?|[?|[]]]].
Defined.

(** X9: a cluster without a THEN entry never pays, whatever its IF and OR
    entries and whatever words are formed. *)
Theorem chain_without_THEN_pays_nothing entries i data chains allWords currentTurn :
  Forall (λ x, op x ≠ THEN) entries →
  score (calculateChainScore (mkChain i (assembleChain entries) data :: chains)
           allWords currentTurn)
  = score (calculateChainScore chains allWords currentTurn).
Proof.
  intros Hno. unfold calculateChainScore. cbn [score fold_left].
  rewrite !calculateChainScore_sum, chainStep_score. cbn [fst].
  rewrite cascade_no_THEN; [simpl; lia|].
  unfold actionsOf. cbn [compiledOps]. apply Forall_forall. intros x Hx.
  apply list_elem_of_In, filter_In in Hx as [Hx _]. apply list_elem_of_In in Hx.
  rewrite Forall_forall in Hno. apply Hno.
  eapply elem_of_submseteq; [done|apply assembleChain_submseteq].
Qed.

Lemma chain_without_THEN_pays_nothing_witness :
  score (calculateChainScore
           [mkChain 1 (assembleChain [entry IF 1 "CAT" 5; entry PLUS 2 "QUIZ" 10]) []]
           [freshWord "CAT" 3] 3) = 0.
Proof.
  rewrite (chain_without_THEN_pays_nothing
             [entry IF 1 "CAT" 5; entry PLUS 2 "QUIZ" 10] 1 [] [] [freshWord "CAT" 3] 3).
  - by vm_compute.
  - repeat first [apply Forall_nil_2 | apply Forall_cons_2; [done|]].
Defined.

End ChainFacts.

(** * Properties of the analyzer: what it records is sound *)

Module AnalyzerFacts.
Import Board Logic Spec.
Import ScanFacts ChainFacts.

Section Sound.
Variable dictionary : option (gset string).
Variable getCid : list string → Z.

Lemma opSound_mono words w o : opSound words o → opSound (words ++ [w]) o.
Proof.
  intros (Hop & w' & Hin & Heq). split; [done|]. exists w'.
  split; [|done]. apply elem_of_app. by left.
Qed.

Lemma dataSound_mono words w d : dataSound words d → dataSound (words ++ [w]) d.
Proof.
  intros (w' & Hin & Heq). exists w'. split; [|done]. apply elem_of_app. by left.
Qed.

Lemma flushRun_sound run st :
  runSound run → scanSound dictionary st → scanSound dictionary (flushRun dictionary getCid run st).
Proof.
  intros Hrun (Hwords & Hops & Hdata). unfold flushRun.
  destruct (bool_decide (1 < String.length (currentWord run))%nat) eqn:Hlen; [|done].
  apply bool_decide_eq_true in Hlen.
  destruct (isValid dictionary (currentWord run)) eqn:Hvalid; [|done].
  destruct (negb (bool_decide (joinIds (runCellIds run) ∈ visitedWords st))); [|done].
  set (w := {| w_word := currentWord run |}).
  assert (wordSound dictionary w) as Hw by done.
  assert (w ∈ allValidWords st ++ [w]) as Hin
    by (apply elem_of_app; right; apply list_elem_of_singleton; done).
  destruct (bool_decide (length (currentOps run) = 0%nat)); cbn [allValidWords rawOps rawDataWords];
    split_and!.
  - apply Forall_app. by split; [|repeat constructor].
  - eapply Forall_impl; [exact Hops|]. intros o. apply opSound_mono.
  - apply Forall_app. split.
    + eapply Forall_impl; [exact Hdata|]. intros d. apply dataSound_mono.
    + repeat constructor. by exists w.
  - apply Forall_app. by split; [|repeat constructor].
  - apply Forall_app. split.
    + eapply Forall_impl; [exact Hops|]. intros o. apply opSound_mono.
    + apply Forall_forall. intros o Ho. apply list_elem_of_In, in_map_iff in Ho
        as ([[o' t'] i'] & <- & Ho'). apply list_elem_of_In in Ho'.
      unfold runSound in Hrun. rewrite Forall_forall in Hrun.
      split; [exact (Hrun _ Ho')|]. by exists w.
  - eapply Forall_impl; [exact Hdata|]. intros d. apply dataSound_mono.
Qed.

Lemma extendRun_sound cell l run : runSound run → runSound (extendRun cell l run).
Proof.
  unfold runSound, extendRun. cbn [currentOps]. intros Hrun.
  destruct (operator cell) as [o|]; [|done].
  destruct (decide (o = START)); [done|].
  apply Forall_app. split; [done|]. by repeat constructor.
Qed.

Lemma scanLineFrom_sound cells run st :
  runSound run → scanSound dictionary st →
  scanSound dictionary (scanLineFrom dictionary getCid cells run st).
Proof.
  revert run st. induction cells as [|cell cells IH]; intros run st Hrun Hst;
    cbn [scanLineFrom].
  - by apply flushRun_sound.
  - destruct (letter cell) as [l|].
    + apply IH; [by apply extendRun_sound|done].
    + apply IH; [by constructor|by apply flushRun_sound].
Qed.

Lemma fold_scanLine_sound {A} (lineOf : A → list CellData) xs st :
  scanSound dictionary st →
  scanSound dictionary (fold_left (λ st x, scanLine dictionary getCid st (lineOf x)) xs st).
Proof.
  revert st. induction xs as [|x xs IH]; intros st Hst; [done|].
  cbn [fold_left]. apply IH. apply scanLineFrom_sound; [by constructor|done].
Qed.

Lemma scanBoard_sound grid : scanSound dictionary (scanBoard grid dictionary getCid).
Proof.
  unfold scanBoard. apply (fold_scanLine_sound (column grid)).
  apply (fold_scanLine_sound (λ cells, cells)). by split_and!; constructor.
Qed.

End Sound.

(** X10: what the analyzer reports is sound.  Every recorded word has two
    or more letters and, when a dictionary is loaded, is in it; every entry
    of every chain is an operator other than START that carries the text,
    score, cells and cluster of a recorded word of the chain's cluster; and
    a chain's data words are recorded words of its cluster. *)
Theorem analyzer_sound grid dictionary placementMode :
  Forall (wordSound dictionary) (analyzeBoardLogic grid dictionary placementMode).2
  ∧ Forall (λ chain,
      Forall (λ o, clusterId o = chainId chain
                   ∧ opSound (analyzeBoardLogic grid dictionary placementMode).2 o)
             (compiledOps chain)
      ∧ Forall (λ d, dataSound (analyzeBoardLogic grid dictionary placementMode).2
                       (d, chainId chain))
               (dataWords chain))
    (analyzeBoardLogic grid dictionary placementMode).1.
Proof.
  unfold analyzeBoardLogic.
  destruct (identifyClusters grid placementMode) as [cellToCluster nextClusterId].
  cbn [fst snd].
  destruct (scanBoard_sound dictionary (getClusterId placementMode cellToCluster) grid)
    as (Hwords & Hops & Hdata).
  split; [done|]. apply Forall_forall. intros chain Hchain.
  apply list_elem_of_bind in Hchain as (i & Hchain & _).
  unfold compileCluster in Hchain.
  destruct (_ && _); [by apply elem_of_nil in Hchain|].
  apply list_elem_of_singleton in Hchain as ->. cbn [compiledOps dataWords chainId].
  split; apply Forall_forall.
  - intros o Ho.
    eapply elem_of_submseteq in Ho; [|apply assembleChain_submseteq].
    apply list_elem_of_In, filter_In in Ho as [Ho Hi].
    apply bool_decide_eq_true in Hi. split; [done|].
    rewrite Forall_forall in Hops. by apply Hops, list_elem_of_In.
  - intros d Hd. apply list_elem_of_In, in_map_iff in Hd as ([d' j] & <- & Hd).
    apply filter_In in Hd as [Hd Hj]. apply bool_decide_eq_true in Hj.
    cbn [fst snd] in *. subst j.
    rewrite Forall_forall in Hdata. by apply (Hdata (d', i)), list_elem_of_In.
Qed.

End AnalyzerFacts.

(** * Properties of the turn operations: no tile is made or lost *)

Module TurnFacts.
Import Board TileSystem Validation Commit Spec TurnSpec Examples.
Import TileSystemFacts ScoringFacts.

(** permutations of tiles, decided by counting each tile on both sides *)
Ltac count_tiles :=
  let x := fresh "x" in
  apply (Permutation_count_occ Ascii.ascii_dec); intros x;
  repeat match goal with
         | H : _ ≡ₚ _ |- _ =>
             pose proof (proj1 (Permutation_count_occ Ascii.ascii_dec _ _) H x);
             clear H
         end;
  repeat match goal with
         | |- context [?a :: ?l] =>
             lazymatch l with
             | [] => fail
             | _ => change (a :: l) with ([a] ++ l)
             end
         | H : context [?a :: ?l] |- _ =>
             lazymatch l with
             | [] => fail
             | _ => change (a :: l) with ([a] ++ l) in H
             end
         end;
  rewrite ?count_occ_app in *; lia.

Lemma alter_middle {A} (f : A → A) i (l : list A) x :
  l !! i = Some x → alter f i l = take i l ++ f x :: drop (S i) l.
Proof.
  revert i. induction l as [|y l IH]; intros [|i] Hi; simplify_eq/=; [done|].
  f_equal. by apply IH.
Qed.

Lemma boardTiles_updCell g r c f cell :
  cellAt g r c = Some cell →
  ∃ rest, boardTiles g ≡ₚ option_list (tileOf cell) ++ rest
          ∧ boardTiles (updCell g r c f) ≡ₚ option_list (tileOf (f cell)) ++ rest.
Proof.
  unfold cellAt, updCell.
  destruct (bool_decide (0 ≤ r) && bool_decide (0 ≤ c)); [|done].
  destruct (g !! Z.to_nat r) as [cells|] eqn:Hrow; [|done]. cbn [mbind option_bind].
  intros Hcell.
  exists (omap tileOf (concat (take (Z.to_nat r) g))
          ++ omap tileOf (take (Z.to_nat c) cells)
          ++ omap tileOf (drop (S (Z.to_nat c)) cells)
          ++ omap tileOf (concat (drop (S (Z.to_nat r)) g))).
  unfold boardTiles.
  rewrite (alter_middle _ _ _ _ Hrow), (alter_middle _ _ _ _ Hcell).
  rewrite <- (take_drop_middle _ _ _ Hrow) at 1.
  rewrite <- (take_drop_middle _ _ _ Hcell) at 1.
  rewrite !concat_app, !concat_cons, !omap_app. cbn [omap list_omap].
  split.
  - destruct (tileOf cell); simpl; rewrite <- ?app_assoc; simpl;
      rewrite <- ?Permutation_middle; done.
  - destruct (tileOf (f cell)); simpl; rewrite <- ?app_assoc; simpl;
      rewrite <- ?Permutation_middle; done.
Qed.

Lemma forallb_alter {A} (p : A → bool) (f : A → A) i l :
  (∀ x, p x = true → p (f x) = true) →
  forallb p l = true → forallb p (alter f i l) = true.
Proof.
  intros Hf. revert i. induction l as [|y l IH]; intros [|i]; try done;
    cbn [alter list_alter forallb]; rewrite !andb_true_iff; intros [? ?];
    (split; [|done]) || (split; [done|]); auto.
Qed.

Lemma blankOk_updCell g r c f :
  (∀ cell, implb (isBlank (f cell)) (hasLetter (f cell)) = true) →
  blankOk g = true → blankOk (updCell g r c f) = true.
Proof.
  intros Hf. unfold blankOk, updCell. destruct (_ && _); [|done].
  apply forallb_alter. intros cells. apply forallb_alter. intros cell _. apply Hf.
Qed.

Lemma blankOk_cellAt g r c cell :
  blankOk g = true → cellAt g r c = Some cell →
  isBlank cell = true → hasLetter cell = true.
Proof.
  unfold blankOk, cellAt. intros Hok. destruct (_ && _); [|done].
  destruct (g !! Z.to_nat r) as [cells|] eqn:Hrow; [|done]. cbn [mbind option_bind].
  intros Hcell Hb. rewrite forallb_forall in Hok.
  specialize (Hok cells (proj1 (list_elem_of_In _ _) (list_elem_of_lookup_2 _ _ _ Hrow))).
  rewrite forallb_forall in Hok.
  specialize (Hok cell (proj1 (list_elem_of_In _ _) (list_elem_of_lookup_2 _ _ _ Hcell))).
  by rewrite Hb in Hok.
Qed.

Lemma letterToReturn_tileOf g r c cell :
  blankOk g = true → cellAt g r c = Some cell → letterToReturn cell = tileOf cell.
Proof.
  intros Hok Hcell. unfold letterToReturn, tileOf.
  destruct (isBlank cell) eqn:Hb; [|by destruct (letter cell)].
  pose proof (blankOk_cellAt _ _ _ _ Hok Hcell Hb) as Hl. unfold hasLetter in Hl.
  by destruct (letter cell).
Qed.

(** taking the tiles of the in-progress move off the board hands back
    exactly the tiles that leave it *)
Lemma liftMoves_conserves moves g acc :
  blankOk g = true →
  (liftMoves moves g acc).2 ++ boardTiles (liftMoves moves g acc).1
    ≡ₚ acc ++ boardTiles g
  ∧ blankOk (liftMoves moves g acc).1 = true.
Proof.
  revert g acc. induction moves as [|m moves IH]; intros g acc Hok; [done|].
  cbn [liftMoves]. destruct (cellAt g m.1.1 m.1.2) as [cell|] eqn:Hcell; [|by apply IH].
  assert (blankOk (updCell g m.1.1 m.1.2 clearCell) = true) as Hok'
    by (by apply blankOk_updCell).
  destruct (IH (updCell g m.1.1 m.1.2 clearCell)
              (match letterToReturn cell with
               | Some l => acc ++ [l] | None => acc end) Hok') as [Hperm Hok''].
  split; [|done]. rewrite Hperm.
  destruct (boardTiles_updCell g m.1.1 m.1.2 clearCell cell Hcell)
    as (rest & Hg & Hg').
  rewrite Hg, Hg', (letterToReturn_tileOf _ _ _ _ Hok Hcell).
  change (tileOf (clearCell cell)) with (@None ascii).
  destruct (tileOf cell) as [t|]; simpl; [|done].
  by rewrite <- app_assoc.
Qed.

Lemma liftMoves_letters moves g acc r c :
  lettered (liftMoves moves g acc).1 r c = true → lettered g r c = true.
Proof.
  revert g acc. induction moves as [|m moves IH]; intros g acc; [done|].
  cbn [liftMoves]. destruct (cellAt g m.1.1 m.1.2) as [cell|] eqn:Hcell; [|apply IH].
  intros Hl%IH. unfold lettered in *.
  destruct (decide ((r, c) = (m.1.1, m.1.2))) as [[= -> ->]|Hne].
  - rewrite cellAt_updCell_eq, Hcell in Hl. by simpl in Hl.
  - by rewrite cellAt_updCell_ne in Hl.
Qed.

Lemma drawTiles_conserves currentHand tileBag :
  hand (drawTiles currentHand tileBag) ++ bag (drawTiles currentHand tileBag)
  = currentHand ++ tileBag.
Proof.
  unfold drawTiles. destruct (_ || _); cbn [hand bag]; [done|].
  by rewrite <- app_assoc, take_drop.
Qed.

Lemma drawTiles_fresh_length tileBag :
  length (hand (drawTiles [] tileBag)) = (7 `min` length tileBag)%nat.
Proof.
  unfold drawTiles. cbn [length]. change (7 - Z.of_nat 0) with 7.
  rewrite bool_decide_eq_false_2 by lia. cbn [orb].
  destruct (bool_decide (length tileBag = 0%nat)) eqn:He; cbn [hand].
  - apply bool_decide_eq_true in He. destruct tileBag; [done|done].
  - cbn [app]. rewrite length_take. lia.
Qed.

Lemma shuffle_Permutation rnd tiles : shuffle rnd tiles ≡ₚ tiles.
Proof. apply fisherYates_Permutation. Qed.

(** X11: passing the turn puts the hand and the tiles of the in-progress
    move back into the bag and deals a fresh hand; over all of it no tile
    is made or lost, the move list is emptied and the new hand has seven
    tiles, or all there are. *)
Theorem handlePass_conserves rnd s :
  blankOk (grid s) = true →
  tilesInPlay (handlePass rnd s) ≡ₚ tilesInPlay s
  ∧ turnMoves (handlePass rnd s) = []
  ∧ isCpuTurn (handlePass rnd s) = true
  ∧ length (playerHand (handlePass rnd s))
    = (7 `min` (length (playerHand (handlePass rnd s))
                + length (tileBag (handlePass rnd s))))%nat
  ∧ ∀ r c, lettered (grid (handlePass rnd s)) r c = true → lettered (grid s) r c = true.
Proof.
  intros Hok. unfold handlePass, tilesInPlay.
  pose proof (liftMoves_conserves (turnMoves s) (grid s) (playerHand s) Hok) as [Hperm _].
  pose proof (liftMoves_letters (turnMoves s) (grid s) (playerHand s)) as Hlet.
  destruct (liftMoves (turnMoves s) (grid s) (playerHand s)) as [newGrid back].
  cbn [fst snd] in *. cbn [grid playerHand cpuHand tileBag turnMoves isCpuTurn].
  set (newBag := shuffle rnd (tileBag s ++ back)).
  pose proof (drawTiles_conserves [] newBag) as Hdraw.
  pose proof (drawTiles_fresh_length newBag) as Hlen.
  split_and!; [|done|done| |done].
  - rewrite (Permutation_app_swap_app (hand _)), (app_assoc (hand _)), Hdraw.
    cbn [app]. unfold newBag. rewrite shuffle_Permutation, <- app_assoc, Hperm.
    rewrite (Permutation_app_swap_app (playerHand s)). f_equiv.
    apply Permutation_app_swap_app.
  - rewrite Hlen. apply (f_equal length) in Hdraw.
    rewrite length_app in Hdraw. cbn [app] in Hdraw. lia.
Qed.

Lemma handlePass_conserves_witness :
  tilesInPlay (handlePass (λ _, 0%nat) sessionReplay) ≡ₚ tilesInPlay sessionReplay.
Proof.
  destruct (handlePass_conserves (λ _, 0%nat) sessionReplay) as [Hperm _];
    [by vm_compute|exact Hperm].
Defined.

(** X12: recalling the tiles of the in-progress move returns them to the
    player's hand: no tile is made or lost, the bag and the opponent's hand
    are untouched, the move list is emptied and no letter appears on the
    board. *)
Theorem recallTiles_conserves s :
  blankOk (grid s) = true →
  tilesInPlay (recallTiles s) ≡ₚ tilesInPlay s
  ∧ turnMoves (recallTiles s) = []
  ∧ tileBag (recallTiles s) = tileBag s ∧ cpuHand (recallTiles s) = cpuHand s
  ∧ (∃ back, playerHand (recallTiles s) = playerHand s ++ back)
  ∧ ∀ r c, lettered (grid (recallTiles s)) r c = true → lettered (grid s) r c = true.
Proof.
  intros Hok. unfold recallTiles.
  destruct (bool_decide (length (turnMoves s) = 0%nat)) eqn:Hlen.
  { apply bool_decide_eq_true, length_zero_iff_nil in Hlen.
    split_and!; try done. exists []. by rewrite app_nil_r. }
  unfold tilesInPlay.
  pose proof (liftMoves_conserves (turnMoves s) (grid s) [] Hok) as [Hperm _].
  pose proof (liftMoves_letters (turnMoves s) (grid s) []) as Hlet.
  destruct (liftMoves (turnMoves s) (grid s) []) as [newGrid back].
  cbn [fst snd app] in *. cbn [grid playerHand cpuHand tileBag turnMoves].
  split_and!; [|done..| by exists back |done].
  rewrite <- Hperm, <- !app_assoc. f_equiv.
  rewrite (Permutation_app_swap_app back), (Permutation_app_swap_app back). done.
Qed.

Lemma recallTiles_conserves_witness :
  tilesInPlay (recallTiles sessionReplay) ≡ₚ tilesInPlay sessionReplay.
Proof.
  destruct (recallTiles_conserves sessionReplay) as [Hperm _];
    [by vm_compute|exact Hperm].
Defined.

(** X13: when the computer passes, its hand goes back into the bag and it
    is dealt a fresh one; no tile is made or lost, the board and the
    player's hand are untouched, and the new hand has seven tiles, or all
    there are. *)
Theorem passCpuTurn_conserves rnd s :
  tilesInPlay (passCpuTurn rnd s) ≡ₚ tilesInPlay s
  ∧ grid (passCpuTurn rnd s) = grid s
  ∧ playerHand (passCpuTurn rnd s) = playerHand s
  ∧ isCpuTurn (passCpuTurn rnd s) = false
  ∧ length (cpuHand (passCpuTurn rnd s))
    = (7 `min` (length (cpuHand s) + length (tileBag s)))%nat.
Proof.
  unfold passCpuTurn, tilesInPlay. cbn [grid playerHand cpuHand tileBag isCpuTurn].
  set (newBag := shuffle rnd (tileBag s ++ cpuHand s)).
  pose proof (drawTiles_conserves [] newBag) as Hdraw.
  split_and!; [|done..|].
  - f_equiv. rewrite !app_assoc, Hdraw. cbn [app]. unfold newBag.
    rewrite shuffle_Permutation. f_equiv. apply Permutation_app_comm.
  - rewrite drawTiles_fresh_length. unfold newBag.
    rewrite (Permutation_length (shuffle_Permutation _ _)), length_app. lia.
Qed.

(** X14: placing a tile of the hand on an unlocked cell moves that tile
    from the hand to the board and, if the cell held a tile of this turn,
    moves that one back to the hand: no tile is made or lost.  The tile
    used has to be the letter placed, or a wildcard. *)
Theorem performTilePlacement_conserves r c l handIndex s cell tile :
  isCpuTurn s = false →
  cellAt (grid s) r c = Some cell → isLocked cell = false →
  playerHand s !! handIndex = Some tile → tile = "*"%char ∨ tile = l →
  tilesInPlay (performTilePlacement r c l handIndex s) ≡ₚ tilesInPlay s
  ∧ (blankOk (grid s) = true →
     blankOk (grid (performTilePlacement r c l handIndex s)) = true)
  ∧ (cellAt (grid (performTilePlacement r c l handIndex s)) r c ≫= tileOf) = Some tile
  ∧ List.filter (λ m, bool_decide (m.1 = (r, c)))
      (turnMoves (performTilePlacement r c l handIndex s)) = [(r, c, l)].
Proof.
  intros Hturn Hcell Hlock Htile Hl. unfold performTilePlacement.
  rewrite Hturn, Hcell, Hlock. cbn [negb andb]. rewrite andb_true_r.
  cbn [grid playerHand cpuHand tileBag turnMoves]. rewrite Htile.
  set (placed := λ cell0 : CellData, {| cellId := cellId cell0 |}).
  assert (tileOf (placed cell) = Some tile) as Hplaced.
  { unfold tileOf, placed. cbn [letter isBlank].
    destruct (decide (tile = "*"%char)) as [->|Hne].
    - by rewrite bool_decide_eq_true_2.
    - rewrite bool_decide_eq_false_2 by congruence. by destruct Hl as [Heq| ->]. }
  split_and!.
  - unfold tilesInPlay. cbn [grid playerHand cpuHand tileBag].
    destruct (boardTiles_updCell (grid s) r c placed cell Hcell) as (rest & Hg & Hg').
    rewrite Hg, Hg', Hplaced. cbn [option_list app].
    rewrite <- (take_drop_middle _ _ _ Htile) at 2.
    rewrite (delete_take_drop (playerHand s) handIndex).
    unfold letterToReturn, tileOf, hasLetter.
    destruct (letter cell) as [old|]; [destruct (isBlank cell)|]; simpl;
      count_tiles.
  - intros Hok. apply blankOk_updCell; [|done]. intros cell0.
    unfold placed, hasLetter. cbn [letter isBlank]. by destruct (bool_decide _).
  - by rewrite cellAt_updCell_eq, Hcell.
  - rewrite List.filter_app. cbn [List.filter fst].
    rewrite bool_decide_eq_true_2 by done.
    replace (List.filter _ (List.filter _ (turnMoves s))) with (@nil (Z * Z * ascii));
      [done|].
    induction (turnMoves s) as [|[[r' c'] l'] moves IH]; [done|].
    cbn [List.filter fst snd].
    destruct (bool_decide (r' = r)) eqn:Hr, (bool_decide (c' = c)) eqn:Hc;
      cbn [negb andb List.filter fst]; try done.
    + apply bool_decide_eq_false in Hc.
      rewrite bool_decide_eq_false_2 by congruence. done.
    + apply bool_decide_eq_false in Hr.
      rewrite bool_decide_eq_false_2 by congruence. done.
    + apply bool_decide_eq_false in Hr.
      rewrite bool_decide_eq_false_2 by congruence. done.
Qed.

Lemma performTilePlacement_conserves_witness :
  tilesInPlay (performTilePlacement 7 3 "E" 0 sessionReplay)
  ≡ₚ tilesInPlay sessionReplay.
Proof.
  edestruct (performTilePlacement_conserves 7 3 "E"%char 0%nat sessionReplay)
    as [Hperm _]; [done|vm_compute; reflexivity|done|vm_compute; reflexivity
                  |by right|exact Hperm].
Defined.

Lemma alter_id_at {A} (f : A → A) i (l : list A) x :
  l !! i = Some x → f x = x → alter f i l = l.
Proof.
  intros Hi Hx. by rewrite (alter_middle _ _ _ _ Hi), Hx, take_drop_middle.
Qed.

(** X15: placing a tile on an empty cell and recalling it is a round
    trip: the board is the one before and the hand holds the same tiles,
    the recalled one now last. *)
Theorem place_then_recall r c l handIndex s cell tile :
  isCpuTurn s = false → turnMoves s = [] →
  cellAt (grid s) r c = Some cell →
  letter cell = None → isLocked cell = false → isBlank cell = false →
  playerHand s !! handIndex = Some tile → tile = "*"%char ∨ tile = l →
  grid (recallTiles (performTilePlacement r c l handIndex s)) = grid s
  ∧ playerHand (recallTiles (performTilePlacement r c l handIndex s))
    = delete handIndex (playerHand s) ++ [tile]
  ∧ playerHand (recallTiles (performTilePlacement r c l handIndex s))
    ≡ₚ playerHand s
  ∧ turnMoves (recallTiles (performTilePlacement r c l handIndex s)) = [].
Proof.
  intros Hturn Hmoves Hcell Hletter Hlock Hblank Htile Hl.
  unfold performTilePlacement. rewrite Hturn, Hcell, Hlock, Hmoves, Htile.
  unfold hasLetter. rewrite Hletter. cbn [andb List.filter app].
  unfold recallTiles. cbn [turnMoves length grid playerHand].
  rewrite bool_decide_eq_false_2 by done. cbn [liftMoves fst snd].
  rewrite cellAt_updCell_eq, Hcell. cbn [fmap option_fmap option_map].
  unfold letterToReturn. cbn [isBlank letter app].
  assert ((if bool_decide (Some tile = Some "*"%char) then Some "*"%char else Some l)
          = Some tile) as ->.
  { destruct (decide (tile = "*"%char)) as [->|Hne].
    - by rewrite bool_decide_eq_true_2.
    - rewrite bool_decide_eq_false_2 by congruence. by destruct Hl as [Heq| ->]. }
  cbn [grid playerHand turnMoves]. split_and!; [|done| |done].
  - unfold updCell, cellAt in *.
    destruct (bool_decide (0 ≤ r) && bool_decide (0 ≤ c)); [|done].
    destruct (grid s !! Z.to_nat r) as [cells|] eqn:Hrow; [|done].
    cbn [mbind option_bind] in Hcell.
    rewrite list_alter_alter_eq. apply (alter_id_at _ _ _ cells Hrow).
    cbn [compose]. rewrite list_alter_alter_eq.
    apply (alter_id_at _ _ _ cell Hcell). cbn [compose]. unfold clearCell.
    cbn [cellId row col operator turnPlaced].
    destruct cell as [i0 r0 c0 o0 l0 k0 b0 t0].
    cbn [letter isLocked isBlank] in Hletter, Hlock, Hblank. by subst.
  - rewrite <- (take_drop_middle _ _ _ Htile) at 2.
    rewrite delete_take_drop. count_tiles.
Qed.

Lemma place_then_recall_witness :
  playerHand (recallTiles (performTilePlacement 7 3 "R" 2 sessionFresh))
  = ["E"; "E"; "S"; "O"; "R"]%char.
Proof.
  edestruct (place_then_recall 7 3 "R"%char 2%nat sessionFresh)
    as (_ & Hhand & _); [done|done|vm_compute; reflexivity|done|done|done
                        |vm_compute; reflexivity|by right|exact Hhand].
Defined.

Lemma deal_twice bag0 :
  length bag0 = 100%nat →
  hand (drawTiles [] bag0) ++ hand (drawTiles [] (bag (drawTiles [] bag0)))
    ++ bag (drawTiles [] (bag (drawTiles [] bag0))) = bag0
  ∧ length (hand (drawTiles [] bag0)) = 7%nat
  ∧ length (hand (drawTiles [] (bag (drawTiles [] bag0)))) = 7%nat
  ∧ length (bag (drawTiles [] (bag (drawTiles [] bag0)))) = 86%nat.
Proof.
  intros Hlen.
  pose proof (drawTiles_conserves [] bag0) as H1.
  pose proof (drawTiles_fresh_length bag0) as L1.
  pose proof (drawTiles_conserves [] (bag (drawTiles [] bag0))) as H2.
  pose proof (drawTiles_fresh_length (bag (drawTiles [] bag0))) as L2.
  cbn [app] in H1, H2.
  assert (length (bag (drawTiles [] bag0)) = 93%nat) as Hb1.
  { apply (f_equal length) in H1. rewrite length_app in H1. lia. }
  assert (length (bag (drawTiles [] (bag (drawTiles [] bag0)))) = 86%nat) as Hb2.
  { apply (f_equal length) in H2. rewrite length_app in H2. lia. }
  split_and!; [by rewrite H2, H1|lia|lia|done].
Qed.

(** X16: a new game deals seven tiles to each side from a freshly
    shuffled bag of the whole distribution and leaves 86 in the bag; the
    board is empty, the scores are zero and it is turn 1. *)
Theorem resetGame_deal rnd s :
  tilesInPlay (resetGame rnd s) ≡ₚ expandTable LETTER_DISTRIBUTION
  ∧ playerHand (resetGame rnd s) ++ cpuHand (resetGame rnd s)
    ++ tileBag (resetGame rnd s) = generateTileBag rnd
  ∧ length (playerHand (resetGame rnd s)) = 7%nat
  ∧ length (cpuHand (resetGame rnd s)) = 7%nat
  ∧ length (tileBag (resetGame rnd s)) = 86%nat
  ∧ grid (resetGame rnd s) = generateBoard
  ∧ turnMoves (resetGame rnd s) = []
  ∧ (turnCount (resetGame rnd s), playerScore (resetGame rnd s),
     cpuScore (resetGame rnd s), isCpuTurn (resetGame rnd s)) = (1, 0, 0, false).
Proof.
  destruct (deal_twice (generateTileBag rnd) (generateTileBag_length rnd))
    as (Hall & L1 & L2 & L3).
  pose proof (generateTileBag_Permutation rnd) as Hperm.
  unfold resetGame, tilesInPlay.
  cbn [grid playerHand cpuHand tileBag turnMoves turnCount playerScore cpuScore isCpuTurn].
  revert Hall L1 L2 L3 Hperm. generalize (generateTileBag rnd). intros bag0 Hall L1 L2 L3 Hperm.
  split_and!; [|exact Hall|exact L1|exact L2|exact L3|reflexivity..].
  assert (boardTiles generateBoard = []) as -> by (by vm_compute).
  by rewrite app_nil_r, !app_assoc, <- (app_assoc (hand _)), Hall.
Qed.

End TurnFacts.

(** * Properties of the move search: from evaluation to execution *)

Module MoveFacts.
Import Board TileSystem Validation Scoring Logic Search SearchSpec Commit.
Import Spec TurnSpec MoveSpec Examples.
Import ScoringFacts SearchFacts TurnFacts.

(** [evaluatePlacement] returns what its loop yields on the values of the
    session's board and hand. *)
Lemma evaluatePlacement_pure st word pivotIdx ar ac dir s :
  storeOk s → sessionOk st s → inBoard ar ac = true →
  (evaluatePlacement st word pivotIdx ar ac dir s).1
  = evaluateOn st (derefGrid s (sr_grid st))
      (default [] (handObjs s !! sr_cpuHand st)) word pivotIdx ar ac dir.
Proof.
  intros Hok (Hlen & Hrows & Halloc & Hcpu & Hplayer) Hanchor.
  rewrite evaluatePlacement_unfold. cbv zeta. unfold evaluateOn, offBoard. cbv zeta.
  set (start := startOf dir pivotIdx ar ac).
  set (chars := list_ascii_of_string word).
  set (real := derefGrid s (sr_grid st)).
  set (tiles := default [] (handObjs s !! sr_cpuHand st)).
  destruct (bool_decide (start.1 < 0) || bool_decide (start.2 < 0)
            || bool_decide (dir = H)
               && bool_decide (BOARD_SIZE < start.2 + Z.of_nat (String.length word))
            || bool_decide (dir = V)
               && bool_decide (BOARD_SIZE < start.1 + Z.of_nat (String.length word)))
    eqn:Hbounds; [done|].
  pose proof (cloneGrid_spec (sr_grid st) s Hok Halloc) as Hcl.
  destruct (cloneGrid (sr_grid st) s) as [refs s1]. cbn [fst snd] in *.
  pose proof Hcl as (Hp1 & Hh1 & Hn1 & Hok1 & _ & _ & Hnd & _).
  rewrite Hh1. fold tiles.
  set (s2 := (newHand tiles s1).2). set (th := (newHand tiles s1).1).
  assert (handObjs s2 !! th = Some tiles) as Hth by apply lookup_insert_eq.
  assert (Forall (λ l, is_Some (cellObjs s2 !! l)) (concat refs)) as Hall2
    by exact (cloned_allocated _ _ _ _ Hcl).
  destruct (overlay chars 0 refs th start.1 start.2 dir (sr_turnCount st) 0 [] s2)
    as [o s3] eqn:Hrun.
  destruct (overlay_sim refs th start.1 start.2 dir (sr_turnCount st) chars Hnd
              0 s2 tiles 0 [] o s3 Hall2 Hth Hrun) as (_ & _ & Hsim).
  cbn [fst snd].
  assert (derefGrid s2 refs = real) as Hreal by exact (cloned_deref _ _ _ _ Hcl).
  rewrite Hreal in Hsim.
  change (itemsFrom dir start.1 start.2 0 chars)
    with (wordItems word pivotIdx ar ac dir) in Hsim.
  destruct (overlayItems (wordItems word pivotIdx ar ac dir) real tiles
              (sr_turnCount st) 0 []) as [| |g' tiles' p' c'];
    destruct o as [| |placedCount coords]; cbn in Hsim; try done.
  destruct Hsim as (-> & -> & ->). done.
Qed.

(** on a candidate the overlay accepts, the loop of [executeMove] builds
    the same board, hand and list of new cells *)
Lemma executeLoop_overlay word pivotIdx ar ac dir turn chars :
  ∀ k g tiles placed coords g' tiles' placed' coords',
    overlayItems (itemsFrom dir (startOf dir pivotIdx ar ac).1
                    (startOf dir pivotIdx ar ac).2 k chars)
      g tiles turn placed coords = PPlaced g' tiles' placed' coords' →
    executeLoop chars k (mkMove word pivotIdx ar ac dir) turn g tiles coords
    = (g', tiles', coords').
Proof.
  destruct dir;
    (induction chars as [|ch chars IH];
     intros k g tiles placed coords g' tiles' placed' coords';
     [cbn [itemsFrom overlayItems executeLoop]; by intros [= <- <- _ <-]|]);
    cbn [itemsFrom overlayItems executeLoop mv_dir mv_r mv_c mv_pivot
         posOf startOf fst snd];
    unfold lettered, hasLetter;
    (destruct (cellAt g _ _) as [cell|]; [|done]);
    (destruct (letter cell) as [l|]; cbn [negb];
     [destruct (decide (l ≠ ch)); [done|apply IH]|]);
    (destruct (indexOf ch tiles) as [idx|]; [apply IH|]);
    (destruct (indexOf "*"%char tiles) as [bIdx|]; [apply IH|done]).
Qed.

(** the overlay moves tiles from the hand to the board and makes none *)
Lemma overlayItems_conserves items turn :
  ∀ g tiles placed coords g' tiles' placed' coords',
    overlayItems items g tiles turn placed coords
    = PPlaced g' tiles' placed' coords' →
    tiles' ++ boardTiles g' ≡ₚ tiles ++ boardTiles g.
Proof.
  induction items as [|[p ch] items IH];
    intros g tiles placed coords g' tiles' placed' coords'; cbn [overlayItems].
  - by intros [= <- <- _ _].
  - destruct (cellAt g p.1 p.2) as [cell|] eqn:Hcell; [|done].
    destruct (letter cell) as [l|] eqn:Hletter.
    + destruct (decide (l ≠ ch)); [done|]. apply IH.
    + assert (tileOf cell = None) as Hnone by (unfold tileOf; by rewrite Hletter).
      destruct (indexOf ch tiles) as [idx|] eqn:Hidx.
      * intros Hrec%IH. rewrite Hrec.
        destruct (boardTiles_updCell g p.1 p.2 (placeTile ch false turn) cell Hcell)
          as (rest & Hg & Hg').
        rewrite Hg, Hg', Hnone.
        change (tileOf (placeTile ch false turn cell)) with (Some ch).
        pose proof (delete_Permutation _ _ _ (indexOf_lookup _ _ _ Hidx)) as Hdel.
        simpl. count_tiles.
      * destruct (indexOf "*"%char tiles) as [bIdx|] eqn:Hb; [|done].
        intros Hrec%IH. rewrite Hrec.
        destruct (boardTiles_updCell g p.1 p.2 (placeTile ch true turn) cell Hcell)
          as (rest & Hg & Hg').
        rewrite Hg, Hg', Hnone.
        change (tileOf (placeTile ch true turn cell)) with (Some "*"%char).
        pose proof (delete_Permutation _ _ _ (indexOf_lookup _ _ _ Hb)) as Hdel.
        simpl. count_tiles.
Qed.

(** X17: the move the search settles on is the move that gets played.
    When [evaluatePlacement] values a candidate above -1, [executeMove] on
    the same session adds exactly that value to the computer's score; the
    board it leaves is the session's board with the word laid on its empty
    cells, it passes validation, and no tile is made or lost. *)
Theorem executeMove_pays_evaluated st s session word pivotIdx ar ac dir v :
  storeOk s → sessionOk st s → inBoard ar ac = true → viewOf st s session →
  (evaluatePlacement st word pivotIdx ar ac dir s).1 = Some v → -1 < v →
  cpuScore (executeMove (mkMove word pivotIdx ar ac dir) session)
  = cpuScore session + v
  ∧ overlaid (grid session)
      (grid (executeMove (mkMove word pivotIdx ar ac dir) session))
      (wordItems word pivotIdx ar ac dir) (turnCount session)
  ∧ validatePlacementRules
      (grid (executeMove (mkMove word pivotIdx ar ac dir) session))
      (gameMode session) (placementMode session) (dictionary session) = true
  ∧ tilesInPlay (executeMove (mkMove word pivotIdx ar ac dir) session)
    ≡ₚ tilesInPlay session
  ∧ turnCount (executeMove (mkMove word pivotIdx ar ac dir) session)
    = turnCount session + 1
  ∧ isCpuTurn (executeMove (mkMove word pivotIdx ar ac dir) session) = false.
Proof.
  intros Hok Hsess Hanchor (Hgrid & Hhand & Hturn & Hdict & Hpm & Hgm) Hv Hpos.
  rewrite evaluatePlacement_pure in Hv by done.
  unfold evaluateOn in Hv.
  rewrite <- Hgrid, <- Hhand, <- Hturn, <- Hdict, <- Hpm, <- Hgm in Hv.
  destruct (offBoard word pivotIdx ar ac dir); [injection Hv as <-; lia|].
  destruct (overlayItems (wordItems word pivotIdx ar ac dir) (grid session)
              (cpuHand session) (turnCount session) 0 [])
    as [| |g' tiles' placed' coords'] eqn:Hpure;
    [done|injection Hv as <-; lia|].
  destruct (bool_decide (placed' = 0)); [injection Hv as <-; lia|].
  destruct (validatePlacementRules g' _ _ _) eqn:Hvalid; [|injection Hv as <-; lia].
  injection Hv as <-.
  destruct (overlayItems_placed (wordItems word pivotIdx ar ac dir)
              (turnCount session) (itemsFrom_NoDup _ _ _ _ _) _ _ _ _ _ _ _ _ Hpure)
    as (_ & _ & _ & Hover).
  pose proof (overlayItems_conserves _ _ _ _ _ _ _ _ _ _ Hpure) as Hcons.
  unfold executeMove. cbn [mv_word].
  rewrite (executeLoop_overlay word pivotIdx ar ac dir (turnCount session)
             _ _ _ _ _ _ _ _ _ _ Hpure).
  unfold boardValue.
  destruct (analyzeBoardLogic g' (dictionary session) (placementMode session))
    as [chains allWords].
  cbn [grid cpuScore turnCount isCpuTurn fst snd].
  split_and!; [lia|done|done| |done|done].
  unfold tilesInPlay. cbn [grid playerHand cpuHand tileBag].
  pose proof (drawTiles_conserves tiles' (tileBag session)) as Hdraw.
  assert (hand (drawTiles tiles' (tileBag session))
          ++ bag (drawTiles tiles' (tileBag session))
          ≡ₚ tiles' ++ tileBag session) as Hdraw' by (by rewrite Hdraw).
  clear Hdraw. count_tiles.
Qed.

Lemma executeMove_pays_evaluated_witness :
  cpuScore (executeMove (mkMove "CAT" 0 4 3 V) sessionSearch) = 4 + 11.
Proof.
  destruct (executeMove_pays_evaluated searchState searchStore sessionSearch
              "CAT" 0 4 3 V 11) as [Hscore _].
  - by apply storeOf_ok.
  - split_and!.
    + reflexivity.
    + repeat constructor.
    + apply (bool_decide_unpack _). by vm_compute.
    + by eexists.
    + by eexists.
  - reflexivity.
  - split_and!; by vm_compute.
  - by vm_compute.
  - lia.
  - exact Hscore.
Defined.

(** X18: without a dictionary the search finds no move: every candidate
    is valued -1, so the computer can only pass. *)
Theorem search_needs_dictionary st s word pivotIdx ar ac dir :
  storeOk s → sessionOk st s → inBoard ar ac = true →
  sr_dictionary st = None →
  (evaluatePlacement st word pivotIdx ar ac dir s).1 = Some (-1).
Proof.
  intros Hok Hsess Hanchor Hnone.
  rewrite evaluatePlacement_pure by done. unfold evaluateOn.
  destruct (offBoard word pivotIdx ar ac dir) eqn:Hbounds; [done|].
  destruct Hsess as (Hlen & Hrows & _).
  assert (Forall (λ it : Z * Z * ascii, inBoard it.1.1 it.1.2 = true)
                 (wordItems word pivotIdx ar ac dir)) as Hfit.
  { unfold wordItems, offBoard in *. cbv zeta in Hbounds.
    rewrite !orb_false_iff, !andb_false_iff, !bool_decide_eq_false in Hbounds.
    destruct Hbounds as [[[Hr Hc] HH] HV].
    unfold inBoard in Hanchor.
    rewrite !andb_true_iff, !bool_decide_eq_true in Hanchor.
    apply itemsFrom_inBoard; [lia|lia|].
    rewrite length_chars. unfold startOf in *.
    destruct dir; cbn [fst snd] in *.
    - destruct HH as [HH|HH]; [done|]. lia.
    - destruct HV as [HV|HV]; [done|]. lia. }
  pose proof (overlayItems_no_throw (wordItems word pivotIdx ar ac dir)
                (sr_turnCount st) _ (default [] (handObjs s !! sr_cpuHand st)) 0 []
                (derefGrid_wf s _ Hlen Hrows) Hfit) as Hnothrow.
  destruct (overlayItems _ _ _ _ _ _) as [| |g' tiles' p' c']; [done|done|].
  rewrite Hnone. cbn [validatePlacementRules]. by destruct (bool_decide (p' = 0)).
Qed.

Lemma search_needs_dictionary_witness :
  (evaluatePlacement searchStateNoDictionary "CAT" 0 4 3 V searchStore).1 = Some (-1).
Proof.
  apply (search_needs_dictionary searchStateNoDictionary searchStore "CAT" 0 4 3 V).
  - by apply storeOf_ok.
  - split_and!.
    + reflexivity.
    + repeat constructor.
    + apply (bool_decide_unpack _). by vm_compute.
    + by eexists.
    + by eexists.
  - reflexivity.
  - reflexivity.
Defined.

Lemma pivotsFrom_spec chars a i p :
  p ∈ pivotsFrom i chars a → i ≤ p ∧ chars !! Z.to_nat (p - i) = Some a.
Proof.
  revert i. induction chars as [|ch chars IH]; intros i; cbn [pivotsFrom].
  - by intros ?%elem_of_nil.
  - assert (p ∈ pivotsFrom (i + 1) chars a →
            i ≤ p ∧ (ch :: chars) !! Z.to_nat (p - i) = Some a) as Hrest.
    { intros [Hle Hp]%IH. split; [lia|].
      replace (Z.to_nat (p - i)) with (S (Z.to_nat (p - (i + 1)))) by lia. done. }
    destruct (decide (ch = a)) as [->|_]; [|done].
    intros [->|Hin]%elem_of_cons; [|by apply Hrest].
    split; [lia|]. by rewrite Z.sub_diag.
Qed.

Lemma itemsFrom_at dir startR startC chars ch :
  ∀ k j, chars !! j = Some ch →
         (posOf dir startR startC (k + Z.of_nat j), ch)
         ∈ itemsFrom dir startR startC k chars.
Proof.
  induction chars as [|x chars IH]; intros k [|j] Hj; try done;
    cbn [itemsFrom].
  - injection Hj as ->. change (Z.of_nat 0) with 0. rewrite Z.add_0_r. left.
  - right. replace (k + Z.of_nat (S j)) with (k + 1 + Z.of_nat j) by lia.
    apply IH. exact Hj.
Qed.

(** X19: every pivot [getPivots] proposes puts a letter of the word on the
    anchor cell, in either orientation; for an anchor that holds a letter it
    is that letter, so the candidate agrees with the board at its anchor.
    For a letter-free anchor the single pivot is the middle of the word. *)
Theorem pivot_lands_on_anchor word anchorChar pivot ar ac dir :
  pivot ∈ getPivots word anchorChar → word ≠ "" →
  0 ≤ pivot < Z.of_nat (String.length word)
  ∧ ∃ ch, list_ascii_of_string word !! Z.to_nat pivot = Some ch
          ∧ (ar, ac, ch) ∈ wordItems word pivot ar ac dir
          ∧ (∀ a, anchorChar = Some a → ch = a)
          ∧ (anchorChar = None → pivot = Z.of_nat (String.length word) `div` 2).
Proof.
  intros Hin Hword.
  assert (0 ≤ pivot ∧ ∃ ch, list_ascii_of_string word !! Z.to_nat pivot = Some ch
            ∧ (∀ a, anchorChar = Some a → ch = a)
            ∧ (anchorChar = None → pivot = Z.of_nat (String.length word) `div` 2))
    as (Hpos & ch & Hch & Ha & Hmid).
  { destruct anchorChar as [a|]; cbn [getPivots] in Hin.
    - apply pivotsFrom_spec in Hin as [Hle Hp]. rewrite Z.sub_0_r in Hp.
      split; [done|]. exists a. split_and!; [done|by intros ? [= ->]|done].
    - apply list_elem_of_singleton in Hin as ->.
      assert (0 < String.length word)%nat as Hlen by (destruct word; [done|simpl; lia]).
      assert (0 ≤ Z.of_nat (String.length word) `div` 2
              < Z.of_nat (String.length word)) as Hmid
        by (split; [apply Z.div_pos; lia|apply Z.div_lt; lia]).
      split; [lia|].
      destruct (list_ascii_of_string word
                  !! Z.to_nat (Z.of_nat (String.length word) `div` 2)) as [ch|] eqn:Hch.
      + exists ch. by split_and!.
      + apply lookup_ge_None in Hch. rewrite length_chars in Hch. lia. }
  split.
  - split; [done|]. apply lookup_lt_Some in Hch. rewrite length_chars in Hch. lia.
  - exists ch. split_and!; [done| |done..].
    pose proof (itemsFrom_at dir (startOf dir pivot ar ac).1
                  (startOf dir pivot ar ac).2 _ ch 0 _ Hch) as Hitem.
    rewrite Z.add_0_l, Z2Nat.id in Hitem by done.
    replace (posOf dir (startOf dir pivot ar ac).1 (startOf dir pivot ar ac).2 pivot)
      with (ar, ac) in Hitem; [done|].
    unfold posOf, startOf. destruct dir; cbn [fst snd]; f_equal; lia.
Qed.

Lemma pivot_lands_on_anchor_witness :
  ∃ ch, list_ascii_of_string "HAT" !! Z.to_nat 1 = Some ch
        ∧ (3, 5, ch) ∈ wordItems "HAT" 1 3 5 V.
Proof.
  destruct (pivot_lands_on_anchor "HAT" (Some "A"%char) 1 3 5 V)
    as (_ & ch & Hch & Hitem & _).
  - apply list_elem_of_In. vm_compute. tauto.
  - done.
  - by exists ch.
Defined.

End MoveFacts.

(** * Properties of the base score *)

Module ScoreFacts.
Import Board TileSystem Validation Scoring Spec Examples.
Import ScoringFacts.

Lemma letterValue_nonneg ch : 0 ≤ letterValue ch.
Proof.
  unfold letterValue, LETTER_VALUES. cbn [lookupTable].
  repeat (case_decide; [simpl; lia|]). simpl. lia.
Qed.

Lemma getCellScore_nonneg cell : 0 ≤ getCellScore cell.
Proof.
  unfold getCellScore. destruct (isBlank cell); [done|].
  destruct (letter cell); [apply letterValue_nonneg|done].
Qed.

Lemma sum_cells_nonneg cells acc :
  acc ≤ fold_left (λ sum cell, sum + getCellScore cell) cells acc.
Proof.
  revert acc. induction cells as [|cell cells IH]; intros acc; [done|].
  cbn [fold_left]. pose proof (getCellScore_nonneg cell). etrans; [|apply IH]. lia.
Qed.

(** a scan never lowers the total and never forgets a word *)
Lemma scan_grows g r c dr dc (st : gset string * Z) :
  st.2 ≤ (scan g r c dr dc st).2 ∧ st.1 ⊆ (scan g r c dr dc st).1.
Proof.
  unfold scan. destruct (walkBack scanFuel g r c dr dc) as [startR startC].
  generalize (collectRun scanFuel g startR startC dr dc). intros cells.
  destruct (bool_decide (1 < length cells)%nat); [|done].
  destruct (bool_decide (_ ∈ st.1)); [done|]. cbn [fst snd]. split.
  - pose proof (sum_cells_nonneg cells 0). lia.
  - apply union_subseteq_r.
Qed.

(** a scan that changes nothing changes nothing on a larger set of words *)
Lemma scan_seen g r c dr dc (st st' : gset string * Z) :
  scan g r c dr dc st = st → st.1 ⊆ st'.1 → scan g r c dr dc st' = st'.
Proof.
  unfold scan. destruct (walkBack scanFuel g r c dr dc) as [startR startC].
  generalize (collectRun scanFuel g startR startC dr dc). intros cells.
  destruct (bool_decide (1 < length cells)%nat); [|done].
  destruct (bool_decide (_ ∈ st.1)) eqn:Hin.
  - apply bool_decide_eq_true in Hin. intros _ Hsub.
    by rewrite bool_decide_eq_true_2 by (by apply Hsub).
  - apply bool_decide_eq_false in Hin. intros Heq. exfalso. apply Hin.
    apply (f_equal fst) in Heq. cbn [fst] in Heq. rewrite <- Heq.
    apply elem_of_union. left. by apply elem_of_singleton.
Qed.

Lemma scan_idempotent g r c dr dc (st : gset string * Z) :
  scan g r c dr dc (scan g r c dr dc st) = scan g r c dr dc st.
Proof.
  unfold scan. destruct (walkBack scanFuel g r c dr dc) as [startR startC].
  generalize (collectRun scanFuel g startR startC dr dc). intros cells.
  destruct (bool_decide (1 < length cells)%nat); [|done].
  destruct (bool_decide (_ ∈ st.1)) eqn:Hin; [by rewrite Hin|].
  cbn [fst]. rewrite bool_decide_eq_true_2; [done|].
  apply elem_of_union. left. by apply elem_of_singleton.
Qed.

(** the body of the loop of [calculateScrabbleScore] *)
Lemma step_grows g (t : Z * Z) (st : gset string * Z) :
  let st1 := if lettered g t.1 t.2
             then scan g t.1 t.2 1 0 (scan g t.1 t.2 0 1 st) else st in
  st.2 ≤ st1.2 ∧ st.1 ⊆ st1.1
  ∧ ∀ st' : gset string * Z, st1.1 ⊆ st'.1 →
      (if lettered g t.1 t.2
       then scan g t.1 t.2 1 0 (scan g t.1 t.2 0 1 st') else st') = st'.
Proof.
  cbv zeta. destruct (lettered g t.1 t.2); [|done].
  pose proof (scan_grows g t.1 t.2 0 1 st) as [H1 H1'].
  pose proof (scan_grows g t.1 t.2 1 0 (scan g t.1 t.2 0 1 st)) as [H2 H2'].
  split_and!; [lia|by etrans|].
  intros st' Hsub.
  rewrite (scan_seen g t.1 t.2 0 1 (scan g t.1 t.2 0 1 st) st');
    [|apply scan_idempotent|by etrans].
  apply (scan_seen g t.1 t.2 1 0 (scan g t.1 t.2 1 0 (scan g t.1 t.2 0 1 st)));
    [apply scan_idempotent|done].
Qed.

Lemma fold_grows g tiles (st : gset string * Z) :
  let step := λ (st : gset string * Z) '(r, c),
                if lettered g r c
                then scan g r c 1 0 (scan g r c 0 1 st) else st in
  st.2 ≤ (fold_left step tiles st).2 ∧ st.1 ⊆ (fold_left step tiles st).1
  ∧ ∀ t st', t ∈ tiles → (fold_left step tiles st).1 ⊆ st'.1 → step st' t = st'.
Proof.
  cbv zeta. revert st. induction tiles as [|[r c] tiles IH]; intros st.
  - split_and!; [done..|]. by intros ? ? ?%elem_of_nil.
  - cbn [fold_left].
    destruct (step_grows g (r, c) st) as (H1 & H2 & H3). cbn [fst snd] in *.
    destruct (IH (if lettered g r c
                  then scan g r c 1 0 (scan g r c 0 1 st) else st))
      as (I1 & I2 & I3).
    split_and!; [lia|by etrans|].
    intros t st' [->|Hin]%elem_of_cons Hsub.
    + apply H3. by etrans.
    + by apply I3.
Qed.

(** X20: the base score is never negative. *)
Theorem base_score_nonneg g newTiles : 0 ≤ calculateScrabbleScore g newTiles.
Proof.
  unfold calculateScrabbleScore.
  by destruct (fold_grows g newTiles (∅, 0)) as [H _].
Qed.

(** X21: a word is scored once, however many of the listed cells lie in
    it: listing cells again that are already listed does not change the
    base score. *)
Theorem base_score_ignores_repeats g newTiles again :
  Forall (λ t, t ∈ newTiles) again →
  calculateScrabbleScore g (newTiles ++ again) = calculateScrabbleScore g newTiles.
Proof.
  intros Hagain. unfold calculateScrabbleScore. rewrite fold_left_app.
  destruct (fold_grows g newTiles (∅, 0)) as (_ & _ & Hseen). cbv zeta in Hseen.
  f_equal. revert Hseen. generalize (fold_left
    (λ (st : gset string * Z) '(r, c),
       if lettered g r c then scan g r c 1 0 (scan g r c 0 1 st) else st)
    newTiles (∅, 0)).
  intros st Hseen. induction Hagain as [|t again Ht _ IH]; [done|].
  cbn [fold_left]. rewrite (Hseen t st Ht); done.
Qed.

Lemma base_score_ignores_repeats_witness :
  calculateScrabbleScore boardBlankA ([(4, 3); (4, 5)] ++ [(4, 5); (4, 3)])
  = calculateScrabbleScore boardBlankA [(4, 3); (4, 5)].
Proof.
  apply (base_score_ignores_repeats boardBlankA [(4, 3); (4, 5)] [(4, 5); (4, 3)]).
  repeat constructor; apply list_elem_of_In; simpl; tauto.
Defined.

End ScoreFacts.

(** * The loops end: the iteration bounds of the model are enough *)

Module LoopFacts.
Import Board Scoring Logic Spec Examples.
Import ScoringFacts ClusterFacts.

(** X22: the queue loop of the flood fill ends.  From any state in which
    [identifyClusters] starts it, [fillFuel] iterations empty the queue, and
    allowing more iterations changes nothing. *)
Theorem flood_fill_terminates grid cid visited cellToCluster rc k :
  (floodFill fillFuel grid cid (visited, cellToCluster, [rc])).2 = []
  ∧ floodFill (fillFuel + k) grid cid (visited, cellToCluster, [rc])
    = floodFill fillFuel grid cid (visited, cellToCluster, [rc]).
Proof.
  split; [|apply floodFill_fuel].
  apply floodFill_done.
  assert (pending visited ≤ 121)%nat as Hp.
  { unfold pending. etrans; [apply List.filter_length_le|]. by vm_compute. }
  simpl. unfold fillFuel, BOARD_SIZE. lia.
Qed.

Lemma walkBack_inBoard g fuel r c dr dc :
  inBoard r c = true →
  inBoard (walkBack fuel g r c dr dc).1 (walkBack fuel g r c dr dc).2 = true.
Proof.
  revert r c. induction fuel as [|fuel IH]; intros r c Hin; [done|].
  cbn [walkBack].
  destruct (inBoard (r - dr) (c - dc) && lettered g (r - dr) (c - dc)) eqn:Hstep;
    [|done].
  apply andb_true_iff in Hstep as [Hstep _]. by apply IH.
Qed.

(** X23: the two loops of [scan] end.  Started on a cell of the board,
    along a row or a column, [BOARD_SIZE] iterations bring the first loop to
    the start of the run, still on the board, and the second to its end;
    allowing more iterations changes nothing. *)
Theorem scan_loops_terminate g r c dr dc k :
  unitDir dr dc → inBoard r c = true →
  walkBack (scanFuel + k) g r c dr dc = walkBack scanFuel g r c dr dc
  ∧ inBoard (walkBack scanFuel g r c dr dc).1 (walkBack scanFuel g r c dr dc).2 = true
  ∧ collectRun (scanFuel + k) g (walkBack scanFuel g r c dr dc).1
      (walkBack scanFuel g r c dr dc).2 dr dc
    = collectRun scanFuel g (walkBack scanFuel g r c dr dc).1
        (walkBack scanFuel g r c dr dc).2 dr dc.
Proof.
  intros Hdir Hin. destruct (scan_fuel g r c dr dc k Hdir Hin) as [Hback Hrun].
  pose proof (walkBack_inBoard g scanFuel r c dr dc Hin) as Hstart.
  split_and!; [done..|]. apply Hrun.
  - unfold inBoard in Hstart. rewrite !andb_true_iff, !bool_decide_eq_true in Hstart. lia.
  - unfold inBoard in Hstart. rewrite !andb_true_iff, !bool_decide_eq_true in Hstart. lia.
Qed.

Lemma scan_loops_terminate_witness :
  walkBack (scanFuel + 5) boardCatHat 4 5 0 1 = walkBack scanFuel boardCatHat 4 5 0 1.
Proof.
  destruct (scan_loops_terminate boardCatHat 4 5 0 1 5) as [Hback _];
    [by left|done|exact Hback].
Defined.

End LoopFacts.

(** * The initial board *)

Module BoardFacts.
Import Board Spec.
Import ValidationFacts.

(** case analysis over the 121 cells of the board *)
Ltac each_cell r c Hin tac :=
  apply coords_spec in Hin; vm_compute in Hin;
  repeat (apply elem_of_cons in Hin as [Hin|Hin];
          [injection Hin as -> ->; tac|]);
  by apply elem_of_nil in Hin.

(** X24: [generateBoard] builds 11 rows of 11 empty, unlocked cells; the
    cell at (r, c) carries the id r-c, its own coordinates and the operator
    of the layout; the ids are pairwise distinct; START sits on the centre
    cell only; and of the cells the layout's last two rules name, only the
    top and bottom edge midpoints are OR: the left and right ones were
    already given OVER and IF. *)
Theorem generateBoard_shape :
  wfGrid generateBoard
  ∧ (∀ r c, inBoard r c = true →
       cellAt generateBoard r c
       = Some {| cellId := coordId r c; row := r; col := c;
                 operator := operatorAt r c; letter := None;
                 isLocked := false; isBlank := false; turnPlaced := None |})
  ∧ NoDup (map cellId (concat generateBoard))
  ∧ (∀ r c, inBoard r c = true → operatorAt r c = Some START → (r, c) = (5, 5))
  ∧ operatorAt 5 5 = Some START
  ∧ (operatorAt 0 5, operatorAt 10 5, operatorAt 5 0, operatorAt 5 10)
    = (Some OR, Some OR, Some OVER, Some IF).
Proof.
  split_and!.
  - split; [done|]. repeat constructor.
  - intros r c Hin. each_cell r c Hin ltac:(vm_compute; reflexivity).
  - apply (bool_decide_unpack _). by vm_compute.
  - intros r c Hin. each_cell r c Hin ltac:(vm_compute; congruence).
  - done.
  - done.
Qed.

Lemma generateBoard_shape_witness :
  cellAt generateBoard 4 4
  = Some {| cellId := coordId 4 4; row := 4; col := 4;
            operator := operatorAt 4 4; letter := None;
            isLocked := false; isBlank := false; turnPlaced := None |}.
Proof.
  destruct generateBoard_shape as (_ & Hcell & _). by apply (Hcell 4 4).
Defined.

End BoardFacts.

(** * Properties of the player's commit *)

Module CommitFacts.
Import Board TileSystem Validation Scoring Logic Commit.
Import Spec TurnSpec MoveSpec Examples.
Import ScoringFacts ResolveFacts TurnFacts.

Lemma alter_ge {A} (f : A → A) i (l : list A) :
  (length l ≤ i)%nat → alter f i l = l.
Proof.
  revert i. induction l as [|x l IH]; intros [|i] Hi; simpl in *; try done; [lia|].
  f_equal. apply IH. lia.
Qed.

Lemma updCell_none g r c f : cellAt g r c = None → updCell g r c f = g.
Proof.
  unfold cellAt, updCell.
  destruct (bool_decide (0 ≤ r) && bool_decide (0 ≤ c)); [|done].
  destruct (g !! Z.to_nat r) as [cells|] eqn:Hrow; cbn [mbind option_bind].
  - intros Hcell. apply (alter_id_at _ _ _ cells Hrow).
    by apply alter_ge, lookup_ge_None.
  - intros _. by apply alter_ge, lookup_ge_None.
Qed.

(** an update that leaves the tile of the cell as it is leaves the tiles
    of the board as they are *)
Lemma boardTiles_updCell_same g r c f :
  (∀ cell, cellAt g r c = Some cell → tileOf (f cell) = tileOf cell) →
  boardTiles (updCell g r c f) ≡ₚ boardTiles g.
Proof.
  intros Hf. destruct (cellAt g r c) as [cell|] eqn:Hcell.
  - destruct (boardTiles_updCell g r c f cell Hcell) as (rest & Hg & Hg').
    by rewrite Hg, Hg', (Hf cell).
  - by rewrite updCell_none.
Qed.

Lemma lock_tiles turn moves g :
  boardTiles (fold_left (λ g (m : Z * Z * ascii),
                           updCell g m.1.1 m.1.2 (lockCell turn)) moves g)
  ≡ₚ boardTiles g.
Proof.
  revert g. induction moves as [|m moves IH]; intros g; [done|].
  cbn [fold_left]. rewrite IH. by apply boardTiles_updCell_same.
Qed.

(** what the lock loop does to one cell *)
Lemma lock_cell turn moves g r c :
  cellAt (fold_left (λ g (m : Z * Z * ascii),
                       updCell g m.1.1 m.1.2 (lockCell turn)) moves g) r c
  = if bool_decide ((r, c) ∈ moves.*1)
    then lockCell turn <$> cellAt g r c else cellAt g r c.
Proof.
  revert g. induction moves as [|[[r' c'] l] moves IH]; intros g.
  - cbn [fold_left fmap list_fmap]. by rewrite bool_decide_eq_false_2 by apply not_elem_of_nil.
  - cbn [fold_left fmap list_fmap fst snd]. rewrite IH.
    destruct (decide ((r, c) = (r', c'))) as [[= -> ->]|Hne].
    + rewrite cellAt_updCell_eq.
      rewrite (bool_decide_eq_true_2 (_ ∈ (r', c') :: _)) by left.
      destruct (cellAt g r' c') as [cell|]; [|by destruct (bool_decide _)].
      by destruct (bool_decide _).
    + rewrite cellAt_updCell_ne by done.
      destruct (bool_decide ((r, c) ∈ moves.*1)) eqn:Hin.
      * apply bool_decide_eq_true in Hin.
        by rewrite bool_decide_eq_true_2 by (by right).
      * apply bool_decide_eq_false in Hin.
        rewrite bool_decide_eq_false_2; [done|].
        by intros [?|?]%elem_of_cons.
Qed.

Lemma lock_scoreAlike turn moves g :
  scoreAlike g (fold_left (λ g (m : Z * Z * ascii),
                             updCell g m.1.1 m.1.2 (lockCell turn)) moves g).
Proof.
  intros r c. rewrite lock_cell.
  destruct (cellAt g r c) as [cell|]; destruct (bool_decide _); done.
Qed.

Lemma fillBlanks_tiles blanks letters g :
  Forall (λ p : Z * Z, ∀ cell, cellAt g p.1 p.2 = Some cell →
                                isBlank cell = true ∧ hasLetter cell = true) blanks →
  boardTiles (fillBlanks g blanks letters) ≡ₚ boardTiles g.
Proof.
  revert g letters. induction blanks as [|[r c] blanks IH]; intros g letters Hall;
    [done|].
  destruct letters as [|ch letters]; [done|]. cbn [fillBlanks].
  apply Forall_cons in Hall as [Hhere Hall]. cbn [fst snd] in Hhere.
  rewrite IH.
  - apply boardTiles_updCell_same. intros cell Hcell.
    destruct (Hhere cell Hcell) as [Hb Hl]. unfold tileOf, withLetter, hasLetter in *.
    cbn [letter isBlank]. rewrite Hb. by destruct (letter cell).
  - eapply Forall_impl; [exact Hall|]. intros [r' c'] Hp cell. cbn [fst snd] in *.
    destruct (decide ((r', c') = (r, c))) as [[= -> ->]|Hne].
    + rewrite cellAt_updCell_eq. destruct (cellAt g r c) as [cell0|]; [|done].
      intros [= <-]. destruct (Hp cell0 eq_refl) as [Hb _]. done.
    + rewrite cellAt_updCell_ne by done. apply Hp.
Qed.

Lemma wildcardsFlagged_cellAt g r c cell :
  wildcardsFlagged g = true → cellAt g r c = Some cell →
  letter cell = Some "*"%char → isBlank cell = true.
Proof.
  unfold wildcardsFlagged, cellAt. intros Hok. destruct (_ && _); [|done].
  destruct (g !! Z.to_nat r) as [cells|] eqn:Hrow; [|done]. cbn [mbind option_bind].
  intros Hcell Hstar. rewrite forallb_forall in Hok.
  specialize (Hok cells (proj1 (list_elem_of_In _ _) (list_elem_of_lookup_2 _ _ _ Hrow))).
  rewrite forallb_forall in Hok.
  specialize (Hok cell (proj1 (list_elem_of_In _ _) (list_elem_of_lookup_2 _ _ _ Hcell))).
  by rewrite bool_decide_eq_true_2 in Hok.
Qed.

(** the resolver only rewrites the letters shown by flagged wildcards, so
    the tiles on the board are the same *)
Lemma resolved_tiles g gameMode placementMode dictionary resolved :
  wildcardsFlagged g = true →
  resolveGridWithBlanks g gameMode placementMode dictionary = Some resolved →
  boardTiles resolved ≡ₚ boardTiles g.
Proof.
  intros Hflag. unfold resolveGridWithBlanks.
  destruct dictionary as [dict|]; [|done].
  destruct (bool_decide (length (blankCoords g) = 0%nat)).
  - destruct (validatePlacementRules g _ _ _); [|done]. by intros [= <-].
  - intros (_ & letters & _ & _ & ->)%trySolve_sound.
    apply fillBlanks_tiles. apply Forall_forall. intros [r c] Hin cell Hcell.
    apply list_elem_of_In, filter_In in Hin as [_ Hstar].
    apply bool_decide_eq_true in Hstar. cbn [fst snd] in *.
    rewrite Hcell in Hstar. cbn in Hstar.
    split; [by eapply wildcardsFlagged_cellAt|]. unfold hasLetter. by rewrite Hstar.
Qed.

(** X25: a commit that goes through locks exactly the cells of the move,
    stamped with the turn, on the resolved board; it pays the player the
    value of the board it leaves (base score of the words through the new
    cells plus the chain bonus), the same formula the computer's move is
    paid by; the turn counter advances, the move list is emptied and the
    turn passes. *)
Theorem commit_locks_and_pays s resolved :
  turnMoves s ≠ [] →
  resolveGridWithBlanks (grid s) (gameMode s) (placementMode s) (dictionary s)
  = Some resolved →
  (∀ r c, cellAt (grid (commitPlayerTurn s)) r c
          = if bool_decide ((r, c) ∈ (turnMoves s).*1)
            then lockCell (turnCount s) <$> cellAt resolved r c
            else cellAt resolved r c)
  ∧ playerScore (commitPlayerTurn s)
    = playerScore s
      + boardValue (dictionary s) (placementMode s) (turnCount s)
          (grid (commitPlayerTurn s)) (turnMoves s).*1
  ∧ turnCount (commitPlayerTurn s) = turnCount s + 1
  ∧ turnMoves (commitPlayerTurn s) = []
  ∧ isCpuTurn (commitPlayerTurn s) = true
  ∧ cpuScore (commitPlayerTurn s) = cpuScore s.
Proof.
  intros Hmoves Hres. unfold commitPlayerTurn. rewrite Hres.
  rewrite bool_decide_eq_false_2
    by (by destruct (turnMoves s)).
  set (newGrid := fold_left _ (turnMoves s) resolved).
  unfold boardValue.
  destruct (analyzeBoardLogic newGrid (dictionary s) (placementMode s))
    as [chains allWords] eqn:Han.
  cbn [grid playerScore turnCount turnMoves isCpuTurn cpuScore].
  rewrite Han. cbn [fst snd].
  split_and!; [intros r c; apply lock_cell| |done..].
  assert (map (λ m : Z * Z * ascii, (m.1.1, m.1.2)) (turnMoves s) = (turnMoves s).*1)
    as -> by (apply map_ext; by intros [[? ?] ?]).
  rewrite (scoreAlike_score resolved newGrid); [lia|apply lock_scoreAlike].
Qed.

Lemma commit_locks_and_pays_witness :
  cellAt (grid (commitPlayerTurn sessionReplay)) 5 3
  = lockCell 3 <$> cellAt boardReplay 5 3.
Proof.
  destruct (commit_locks_and_pays sessionReplay boardReplay) as [Hcell _].
  - done.
  - by vm_compute.
  - rewrite Hcell. by vm_compute.
Defined.

(** X26: a commit neither makes nor loses tiles, provided every cell that
    shows the wildcard sign is flagged as a blank (as tile placement
    flags it). *)
Theorem commit_conserves s :
  wildcardsFlagged (grid s) = true →
  tilesInPlay (commitPlayerTurn s) ≡ₚ tilesInPlay s.
Proof.
  intros Hflag. unfold commitPlayerTurn.
  destruct (bool_decide (length (turnMoves s) = 0%nat)); [done|].
  destruct (resolveGridWithBlanks _ _ _ _) as [resolved|] eqn:Hres; [|done].
  destruct (analyzeBoardLogic _ _ _) as [chains allWords].
  unfold tilesInPlay. cbn [grid playerHand cpuHand tileBag].
  rewrite lock_tiles, (resolved_tiles _ _ _ _ _ Hflag Hres).
  pose proof (drawTiles_conserves (playerHand s) (tileBag s)) as Hdraw.
  assert (hand (drawTiles (playerHand s) (tileBag s))
          ++ bag (drawTiles (playerHand s) (tileBag s))
          ≡ₚ playerHand s ++ tileBag s) as Hdraw' by (by rewrite Hdraw).
  clear Hdraw. count_tiles.
Qed.

Lemma commit_conserves_witness :
  tilesInPlay (commitPlayerTurn sessionReplay) ≡ₚ tilesInPlay sessionReplay.
Proof. apply (commit_conserves sessionReplay). by vm_compute. Defined.

End CommitFacts.

(** * Properties of cluster identification (GO mode) *)

Module LabelFacts.
Import Board Logic Spec Examples.
Import ValidationFacts ClusterFacts.















End LabelFacts.

(** * The board a commit leaves is a valid board *)

Module StandFacts.
Import Board TileSystem Validation Scoring Logic Commit.
Import Spec TurnSpec Examples.
Import ValidationFacts ScoringFacts ResolveFacts TurnFacts CommitFacts.

Lemma wordOk_all_locked dict gameMode w meta meta' :
  Forall (λ b : bool, b = true) meta' →
  wordOk dict gameMode w meta = true → wordOk dict gameMode w meta' = true.
Proof.
  intros Hall. unfold wordOk.
  destruct (bool_decide (1 < String.length w)%nat); [|done].
  destruct (negb (bool_decide (w ∈ dict))); [done|].
  destruct (decide (gameMode = FIXED)); [|done]. intros _.
  assert (existsb negb meta' = false) as ->; [|done].
  induction Hall as [|b meta' -> _ IH]; [done|]. by cbn [existsb negb orb].
Qed.

Lemma checkLineFrom_relock dict gameMode cells cells' :
  Forall2 (λ a b : CellData, letter b = letter a) cells cells' →
  Forall (λ b, hasLetter b = true → isLocked b = true) cells' →
  ∀ w meta meta',
    Forall (λ b : bool, b = true) meta' →
    checkLineFrom dict gameMode cells w meta = true →
    checkLineFrom dict gameMode cells' w meta' = true.
Proof.
  induction 1 as [|a b cells cells' Hab _ IH]; intros Hlocked w meta meta' Hmeta;
    cbn [checkLineFrom].
  - by apply wordOk_all_locked.
  - apply Forall_cons in Hlocked as [Hb Hlocked]. rewrite Hab.
    unfold hasLetter in Hb. destruct (letter a) as [l|].
    + rewrite Hab in Hb. apply IH; [done|]. apply Forall_app. split; [done|].
      repeat constructor. by apply Hb.
    + rewrite !andb_true_iff. intros [Hw Hrest]. split.
      * by eapply wordOk_all_locked.
      * eapply IH; [done|constructor|exact Hrest].
Qed.

Lemma lock_rows turn moves g :
  Forall2 (Forall2 (λ a b : CellData, letter b = letter a)) g
    (fold_left (λ g (m : Z * Z * ascii),
                  updCell g m.1.1 m.1.2 (lockCell turn)) moves g).
Proof.
  induction moves as [|m moves IH] using rev_ind.
  - cbn [fold_left]. apply Forall_Forall2_diag, Forall_forall. intros row _.
    apply Forall_Forall2_diag, Forall_forall. by intros cell _.
  - rewrite fold_left_app. cbn [fold_left]. unfold updCell.
    destruct (bool_decide (0 ≤ m.1.1) && bool_decide (0 ≤ m.1.2)); [|done].
    apply Forall2_alter_r; [done|]. intros row row' _ _ Hrow.
    apply Forall2_alter_r; [done|]. intros a b _ _ Hab. exact Hab.
Qed.

Lemma rows_locked g :
  (∀ r c cell, cellAt g r c = Some cell → hasLetter cell = true →
               isLocked cell = true) →
  Forall (Forall (λ b, hasLetter b = true → isLocked b = true)) g.
Proof.
  intros Hall. apply Forall_lookup. intros i row Hrow.
  apply Forall_lookup. intros j cell Hcell. apply (Hall (Z.of_nat i) (Z.of_nat j)).
  unfold cellAt. rewrite !bool_decide_eq_true_2 by lia. cbn [andb].
  by rewrite !Nat2Z.id, Hrow.
Qed.

Lemma column_rel (R : CellData → CellData → Prop) g g' c :
  Forall2 (Forall2 R) g g' → Forall2 R (column g c) (column g' c).
Proof.
  unfold column. induction 1 as [|row row' g g' Hrow _ IH]; [constructor|].
  cbn [omap list_omap].
  pose proof (proj1 (Forall2_lookup _ _ _) Hrow (Z.to_nat c)) as Hc.
  inversion Hc; [by constructor|done].
Qed.

Lemma column_all (P : CellData → Prop) g c :
  Forall (Forall P) g → Forall P (column g c).
Proof.
  unfold column. induction 1 as [|row g Hrow _ IH]; [constructor|].
  cbn [omap list_omap]. destruct (row !! Z.to_nat c) as [cell|] eqn:Hc; [|done].
  constructor; [|done]. rewrite Forall_lookup in Hrow. by eapply Hrow.
Qed.

Lemma forallb_pointwise {A} (f f' : A → bool) l :
  (∀ x, f x = f' x) → forallb f l = forallb f' l.
Proof. intros Hf. induction l as [|x l IH]; [done|]. simpl. by rewrite Hf, IH. Qed.

Lemma isolationOk_letters g g' :
  (∀ r c, lettered g' r c = lettered g r c) → isolationOk g' = isolationOk g.
Proof.
  intros Hsame. unfold isolationOk. apply forallb_pointwise. intros [r c].
  by rewrite !Hsame.
Qed.

Lemma filter_none {A} (p : A → bool) l :
  (∀ x, In x l → p x = false) → List.filter p l = [].
Proof.
  induction l as [|x l IH]; [done|]. intros Hall. simpl.
  rewrite (Hall x) by (by left). apply IH. intros y Hy. apply Hall. by right.
Qed.

Lemma cellAt_inBoard g r c cell :
  wfGrid g → cellAt g r c = Some cell → inBoard r c = true.
Proof.
  intros [Hlen Hrows]. unfold cellAt, inBoard.
  destruct (bool_decide (0 ≤ r)) eqn:Hr; [|done].
  destruct (bool_decide (0 ≤ c)) eqn:Hc; [|done].
  apply bool_decide_eq_true in Hr, Hc. cbn [andb].
  destruct (g !! Z.to_nat r) as [row|] eqn:Hrow; [|done]. cbn [mbind option_bind].
  intros Hcell. rewrite Forall_lookup in Hrows.
  pose proof (Hrows _ _ Hrow) as Hrl.
  apply lookup_lt_Some in Hrow, Hcell. rewrite Hlen in Hrow. rewrite Hrl in Hcell.
  rewrite !andb_true_iff, !bool_decide_eq_true. unfold BOARD_SIZE in *. lia.
Qed.

(** the resolver returns a valid board whose cells are those of the given
    board, the wildcards showing a letter *)
Lemma resolved_cells g gameMode placementMode dictionary resolved :
  resolveGridWithBlanks g gameMode placementMode dictionary = Some resolved →
  validatePlacementRules resolved gameMode placementMode dictionary = true
  ∧ ∀ r c, cellAt resolved r c = cellAt g r c
           ∨ ∃ ch cell, cellAt g r c = Some cell ∧ hasLetter cell = true
                        ∧ cellAt resolved r c = Some (withLetter (Some ch) cell).
Proof.
  unfold resolveGridWithBlanks. destruct dictionary as [dict|]; [|done].
  destruct (bool_decide (length (blankCoords g) = 0%nat)).
  - destruct (validatePlacementRules g _ _ _) eqn:Hv; [|done].
    intros [= <-]. split; [done|]. by left.
  - intros (Hv & letters & _ & Hlen & ->)%trySolve_sound. split; [done|].
    intros r c. destruct (decide ((r, c) ∈ blankCoords g)) as [Hin|Hout].
    + right.
      destruct (fillBlanks_inside g _ letters r c (NoDup_blankCoords g) Hlen Hin)
        as (ch & _ & Hcell).
      apply list_elem_of_In, filter_In in Hin as [_ Hstar].
      apply bool_decide_eq_true in Hstar.
      destruct (cellAt g r c) as [cell|] eqn:Hc; [|done]. cbn in Hstar.
      exists ch, cell. split_and!; [done| |done]. unfold hasLetter. by rewrite Hstar.
    + left. by apply fillBlanks_outside.
Qed.

(** X28: the board a commit leaves is a valid board again, with no tile
    left unlocked and the same cells lettered as the resolved board,
    provided the board is 11 by 11 and the move list names every unlocked
    tile of it (which tile placement maintains).  So the next turn starts
    from a board that passes validation. *)
Theorem commit_leaves_valid_board s resolved :
  turnMoves s ≠ [] →
  resolveGridWithBlanks (grid s) (gameMode s) (placementMode s) (dictionary s)
  = Some resolved →
  wfGrid (grid s) →
  Forall (λ a, a ∈ (turnMoves s).*1) (newTiles (grid s)) →
  validatePlacementRules (grid (commitPlayerTurn s)) (gameMode s)
    (placementMode s) (dictionary s) = true
  ∧ newTiles (grid (commitPlayerTurn s)) = []
  ∧ ∀ r c, lettered (grid (commitPlayerTurn s)) r c = lettered resolved r c.
Proof.
  intros Hmoves Hres Hwf Hnew.
  assert (∀ r c cell, cellAt (grid s) r c = Some cell → hasLetter cell = true →
                      isLocked cell = false → (r, c) ∈ (turnMoves s).*1) as Hcover.
  { intros r c cell Hcell Hl Hlock. rewrite Forall_forall in Hnew. apply Hnew.
    apply list_elem_of_In, filter_In. split.
    - apply list_elem_of_In, coords_spec. by eapply cellAt_inBoard.
    - by rewrite Hcell, Hl, Hlock. }
  destruct (resolved_cells _ _ _ _ _ Hres) as [Hvalid Hcells].
  unfold commitPlayerTurn. rewrite Hres.
  rewrite bool_decide_eq_false_2 by (by destruct (turnMoves s)).
  set (newGrid := fold_left _ (turnMoves s) resolved).
  destruct (analyzeBoardLogic newGrid (dictionary s) (placementMode s))
    as [chains allWords].
  cbn [grid].
  assert (∀ r c, cellAt newGrid r c
                 = if bool_decide ((r, c) ∈ (turnMoves s).*1)
                   then lockCell (turnCount s) <$> cellAt resolved r c
                   else cellAt resolved r c) as Hcell
    by (intros r c; apply lock_cell).
  assert (∀ r c, lettered newGrid r c = lettered resolved r c) as Hlet.
  { intros r c. unfold lettered. rewrite Hcell.
    destruct (bool_decide _); [|done]. by destruct (cellAt resolved r c). }
  assert (∀ r c cell, cellAt newGrid r c = Some cell → hasLetter cell = true →
                      isLocked cell = true) as Hlocked.
  { intros r c cell Hc Hl. rewrite Hcell in Hc.
    destruct (bool_decide ((r, c) ∈ (turnMoves s).*1)) eqn:Hin.
    - destruct (cellAt resolved r c); [|done]. by injection Hc as <-.
    - apply bool_decide_eq_false in Hin.
      destruct (isLocked cell) eqn:Hlock; [done|]. exfalso. apply Hin.
      destruct (Hcells r c) as [Hsame|(ch & cell0 & Hg & Hl0 & Hr)].
      + rewrite Hsame in Hc. by eapply Hcover.
      + rewrite Hr in Hc. injection Hc as <-. by eapply Hcover. }
  assert (newTiles newGrid = []) as Hnone.
  { unfold newTiles. apply filter_none. intros [r c] _.
    destruct (cellAt newGrid r c) as [cell|] eqn:Hc; [|done].
    destruct (hasLetter cell) eqn:Hl; [|done].
    by rewrite (Hlocked r c cell Hc Hl). }
  split_and!; [|done|done].
  destruct (dictionary s) as [dict|]; [|done].
  unfold validatePlacementRules in *.
  rewrite !andb_true_iff in Hvalid. destruct Hvalid as [[[Hiso Hconn] Hrows] Hcols].
  rewrite forallb_forall in Hrows, Hcols.
  pose proof (lock_rows (turnCount s) (turnMoves s) resolved) as Hrel.
  fold newGrid in Hrel.
  pose proof (rows_locked newGrid Hlocked) as Hall.
  rewrite !andb_true_iff. split_and!.
  - by rewrite (isolationOk_letters resolved newGrid).
  - unfold connectivityOk. rewrite Hnone.
    destruct (decide (placementMode s = ACROSTIC)); [|done].
    by destruct (hasLockedTiles newGrid).
  - apply forallb_forall. intros r Hr. specialize (Hrows r Hr).
    eapply (checkLineFrom_relock dict (gameMode s)); [| |constructor|exact Hrows].
    + pose proof (proj1 (Forall2_lookup _ _ _) Hrel (Z.to_nat r)) as Hrow.
      inversion Hrow; [done|constructor].
    + destruct (newGrid !! Z.to_nat r) as [row|] eqn:Hrow; [|constructor].
      rewrite Forall_lookup in Hall. by eapply Hall.
  - apply forallb_forall. intros c Hc. specialize (Hcols c Hc).
    eapply (checkLineFrom_relock dict (gameMode s)); [| |constructor|exact Hcols].
    + by apply column_rel.
    + by apply column_all.
Qed.

Lemma commit_leaves_valid_board_witness :
  validatePlacementRules (grid (commitPlayerTurn sessionReplay)) DYNAMIC ACROSTIC
    (Some dictCatHat) = true.
Proof.
  destruct (commit_leaves_valid_board sessionReplay boardReplay) as [Hvalid _].
  - done.
  - by vm_compute.
  - split; [done|]. repeat constructor.
  - apply (bool_decide_unpack _). by vm_compute.
  - exact Hvalid.
Defined.

(** X29: tile placement maintains what the commit relies on: the board
    stays 11 by 11, the move list still names every unlocked tile, and
    every cell showing the wildcard sign is still flagged blank.  The tile
    used has to be the letter placed, or a wildcard. *)
Theorem placement_keeps_invariants r c l handIndex s tile :
  playerHand s !! handIndex = Some tile → tile = "*"%char ∨ tile = l →
  wfGrid (grid s) →
  Forall (λ a, a ∈ (turnMoves s).*1) (newTiles (grid s)) →
  wildcardsFlagged (grid s) = true →
  wfGrid (grid (performTilePlacement r c l handIndex s))
  ∧ Forall (λ a, a ∈ (turnMoves (performTilePlacement r c l handIndex s)).*1)
           (newTiles (grid (performTilePlacement r c l handIndex s)))
  ∧ wildcardsFlagged (grid (performTilePlacement r c l handIndex s)) = true.
Proof.
  intros Htile Hl Hwf Hcover Hflag. unfold performTilePlacement.
  destruct (isCpuTurn s); [done|].
  destruct (cellAt (grid s) r c) as [cell|] eqn:Hcell; [|done].
  destruct (isLocked cell); [done|]. cbn [grid turnMoves].
  split_and!.
  - by apply SearchFacts.wfGrid_updCell.
  - apply Forall_forall. intros [r' c'] Hin.
    apply list_elem_of_In, filter_In in Hin as [Hcoords Hnew].
    rewrite fmap_app. apply elem_of_app.
    destruct (decide ((r', c') = (r, c))) as [[= -> ->]|Hne].
    { right. by apply list_elem_of_singleton. }
    left. rewrite cellAt_updCell_ne in Hnew by done.
    rewrite Forall_forall in Hcover.
    assert ((r', c') ∈ (turnMoves s).*1) as Hold.
    { apply Hcover. by apply list_elem_of_In, filter_In. }
    apply list_elem_of_fmap in Hold as ([[r0 c0] l0] & [= <- <-] & Hm).
    apply list_elem_of_fmap. exists (r', c', l0). split; [done|].
    apply list_elem_of_In, filter_In. split; [by apply list_elem_of_In|].
    cbn [fst snd]. apply negb_true_iff, andb_false_iff.
    destruct (decide (r' = r)) as [->|Hr].
    + right. apply bool_decide_eq_false. intros ->. done.
    + left. by apply bool_decide_eq_false.
  - unfold wildcardsFlagged, updCell. destruct (_ && _); [|done].
    apply forallb_alter; [|done]. intros cells Hcells.
    apply forallb_alter; [|done]. intros cell0 _. cbn [letter isBlank].
    rewrite Htile.
    destruct (decide (l = "*"%char)) as [->|Hne].
    + destruct Hl as [->| ->]; by rewrite !bool_decide_eq_true_2.
    + by rewrite bool_decide_eq_false_2 by congruence.
Qed.

Lemma placement_keeps_invariants_witness :
  wildcardsFlagged (grid (performTilePlacement 7 3 "R" 2 sessionFresh)) = true.
Proof.
  destruct (placement_keeps_invariants 7 3 "R"%char 2%nat sessionFresh "R"%char)
    as (_ & _ & Hflag).
  - done.
  - by right.
  - split; [done|]. repeat constructor.
  - apply (bool_decide_unpack _). by vm_compute.
  - by vm_compute.
  - exact Hflag.
Defined.

End StandFacts.

(** * The gates in front of the commit *)

Module GateFacts.
Import Board Validation Commit Examples.

(** X30: the commit button and the Enter key let the same sessions
    through.  Both demand a non-empty move, a board the resolver accepts, a
    loaded dictionary and the player's turn; and although they are written
    differently for the two placement modes, both demand in either mode that
    on the first turn a tile of the move lies on the centre cell (5, 5). *)
Theorem commit_gates_agree isLoadingDict s :
  canCommit isLoadingDict s = enterCommits isLoadingDict s
  ∧ (canCommit isLoadingDict s = true →
     turnMoves s ≠ [] ∧ isLoadingDict = false ∧ isCpuTurn s = false
     ∧ is_Some (resolveGridWithBlanks (grid s) (gameMode s) (placementMode s)
                  (dictionary s))
     ∧ (isFirstTurn (grid s) = true →
        ∃ l, (5, 5, l) ∈ turnMoves s)).
Proof.
  unfold canCommit, enterCommits, isStartCovered, isBoardValid. cbv zeta.
  split.
  - destruct (isCpuTurn s); [by rewrite !andb_false_r|].
    destruct isLoadingDict; [by rewrite !andb_false_r|]. cbn [orb negb].
    destruct (turnMoves s) as [|m moves]; [done|].
    rewrite bool_decide_eq_true_2 by (simpl; lia).
    rewrite bool_decide_eq_false_2 by done.
    rewrite !andb_true_r. cbn [andb].
    destruct (isFirstTurn (grid s)), (existsb _ (m :: moves)),
      (placementMode s), (resolveGridWithBlanks _ _ _ _); done.
  - rewrite !andb_true_iff, bool_decide_eq_true, !negb_true_iff.
    intros [[[[Hlen Hvalid] Hload] Hcpu] Hstart].
    split_and!;
      [intros Hnil; rewrite Hnil in Hlen; simpl in Hlen; lia|done|done| |].
    + by destruct (resolveGridWithBlanks _ _ _ _).
    + intros Hfirst. rewrite Hfirst in Hstart. cbn [negb orb] in Hstart.
      assert (existsb (λ m : Z * Z * ascii,
                         bool_decide (m.1.1 = 5) && bool_decide (m.1.2 = 5))
                      (turnMoves s) = true) as Hex
        by (by destruct (placementMode s)).
      apply existsb_exists in Hex as ([[r c] l] & Hin & Hrc).
      cbn [fst snd] in Hrc.
      rewrite andb_true_iff, !bool_decide_eq_true in Hrc. destruct Hrc as [-> ->].
      exists l. by apply list_elem_of_In.
Qed.

Lemma commit_gates_agree_witness : ∃ l, (5, 5, l) ∈ turnMoves sessionOpening.
Proof.
  destruct (commit_gates_agree false sessionOpening) as [_ Hgate].
  destruct Hgate as (_ & _ & _ & _ & Hstart); [by vm_compute|].
  apply Hstart. by vm_compute.
Defined.

End GateFacts.
